(** * Javascript-Barcode-Reader: verification of [src/utiltities.js]

    A shallow embedding of the numeric core of the barcode reader
    ([isUrl], [applyAdaptiveThreshold], [applySimpleThreshold],
    [getLines], [combineAllPossible]) together with the properties its
    specification states about it.

    Modelling conventions.
    - JavaScript numbers are rationals extended with [NaN] and the two
      infinities.  [applyAdaptiveThreshold], whose sums and comparison
      depend on it, computes the values of pixels in IEEE-754 doubles:
      every operation gives the exact result rounded to the nearest
      double, ties to even ([round64]).  Array indices, loop counters
      and the mean that [applySimpleThreshold] compares with 127 are
      computed exactly, which is what doubles give for integers below
      2^53 and, for the comparison, for bytes.  The sign of zero is not
      represented; the one place where it is observable
      ([data.length / (width * height)] with a zero product) is written
      out by cases in [js_channels].
    - A JavaScript array is a list of optional elements ([None] is a
      hole, read back as [undefined]); a write past the end extends the
      array.  The pixel array additionally carries the properties that
      writes under non-index keys (fractions, negatives, [NaN], ...)
      create on the array object.
    - [width] and [height] are integers and the pixel array is a
      [number[]], as the documentation of the functions says.
      [new Array(n)] raises a [RangeError] unless [n] is an array
      length, an integer from 0 to 2^32 - 1; memory is not a limit.
    - Strings are sequences of code units below 256.
    - [Array.prototype.sort] is stable, as ECMAScript requires.
    - Loops whose bounds are fixed numbers are folds over [seq]; the one
      loop whose bound ([data.length]) can move while it runs takes
      fuel.
    - [getImageDataFromSource] is modelled by the way its promise ends.
      Its sources are primitives, pixel arrays and objects with own data
      properties (no functions, hence no thenables); Jimp, the document,
      the canvas and the loading of an [Image] are functions of a
      platform record, each answering once: Jimp calls back or throws,
      an image loads or fails to. *)

From Stdlib Require Import ZArith QArith Qround Qabs Qpower Lia List Bool.
From Stdlib Require Import String Ascii.
From Stdlib Require Import Sorting.Sorted Sorting.Permutation Lqa.
From stdpp Require Import base list.
Import ListNotations.

Local Open Scope nat_scope.

(** ** Numbers *)

Module JsNum.

Inductive number : Type :=
| Fin (q : Q)
| NaN
| PInf
| NInf.

Definition of_Z (z : Z) : number := Fin (inject_Z z).
Definition of_nat (n : nat) : number := of_Z (Z.of_nat n).

Definition Qlt_bool (x y : Q) : bool :=
  (Qnum x * QDen y <? Qnum y * QDen x)%Z.

Definition is_zero (q : Q) : bool := (Qnum q =? 0)%Z.
Definition is_neg (q : Q) : bool := (Qnum q <? 0)%Z.

Definition neg (a : number) : number :=
  match a with
  | Fin q => Fin (- q)
  | NaN => NaN
  | PInf => NInf
  | NInf => PInf
  end.

Definition add (a b : number) : number :=
  match a, b with
  | Fin x, Fin y => Fin (x + y)
  | NaN, _ | _, NaN => NaN
  | PInf, NInf | NInf, PInf => NaN
  | PInf, _ | _, PInf => PInf
  | NInf, _ | _, NInf => NInf
  end.

Definition sub (a b : number) : number := add a (neg b).

(** The sign of [inf * q]; zero times infinity is [NaN]. *)
Definition scale_inf (positive : bool) (q : Q) : number :=
  if is_zero q then NaN
  else if Bool.eqb positive (negb (is_neg q)) then PInf else NInf.

Definition mul (a b : number) : number :=
  match a, b with
  | Fin x, Fin y => Fin (x * y)
  | NaN, _ | _, NaN => NaN
  | PInf, Fin q | Fin q, PInf => scale_inf true q
  | NInf, Fin q | Fin q, NInf => scale_inf false q
  | PInf, PInf | NInf, NInf => PInf
  | PInf, NInf | NInf, PInf => NInf
  end.

(** Division; a zero divisor is taken as [+0]. *)
Definition div (a b : number) : number :=
  match a, b with
  | Fin x, Fin y =>
      if is_zero y then
        if is_zero x then NaN else if is_neg x then NInf else PInf
      else Fin (x / y)
  | NaN, _ | _, NaN => NaN
  | Fin _, (PInf | NInf) => Fin 0
  | PInf, Fin y => if is_neg y then NInf else PInf
  | NInf, Fin y => if is_neg y then PInf else NInf
  | (PInf | NInf), (PInf | NInf) => NaN
  end.

(** [a < b]; every comparison with [NaN] is false. *)
Definition lt (a b : number) : bool :=
  match a, b with
  | Fin x, Fin y => Qlt_bool x y
  | NaN, _ | _, NaN => false
  | _, NInf => false
  | PInf, _ => false
  | NInf, _ => true
  | _, PInf => true
  end.

Definition gt (a b : number) : bool := lt b a.

(** [a === b] on numbers. *)
Definition eqb (a b : number) : bool :=
  match a, b with
  | Fin x, Fin y => Qeq_bool x y
  | PInf, PInf | NInf, NInf => true
  | _, _ => false
  end.

(** Equality of the property names two numbers stringify to. *)
Definition same_key (a b : number) : bool :=
  match a, b with
  | NaN, NaN => true
  | _, _ => eqb a b
  end.

(** A number is an array index when it is a non-negative integer. *)
Definition as_index (k : number) : option nat :=
  match k with
  | Fin q =>
      let r := Qred q in
      if ((Qden r =? 1)%positive && (0 <=? Qnum r)%Z)%bool
      then Some (Z.to_nat (Qnum r))
      else None
  | _ => None
  end.

(** Equality up to the representation of a rational. *)
Definition equiv (a b : number) : Prop :=
  match a, b with
  | Fin x, Fin y => x == y
  | NaN, NaN | PInf, PInf | NInf, NInf => True
  | _, _ => False
  end.

(** *** Doubles

    A JavaScript number is an IEEE-754 double: 53 significant bits, no
    bit below [2^-1074], nothing finite from [2^1024] on.  The result of
    an operation is the exact result rounded to the nearest double, to
    the one with an even last bit when two are equally near. *)

Definition pow2 (e : Z) : Q := (2 ^ e)%Q.

(** [floor (log2 q)] for a positive [q]. *)
Definition ilog2 (q : Q) : Z :=
  let k := (Z.log2 (Qnum q) - Z.log2 (Zpos (Qden q)))%Z in
  if Qle_bool (pow2 k) q then k else (k - 1)%Z.

(** The nearest integer, the even one of two that are equally near. *)
Definition nearest_even (q : Q) : Z :=
  let f := Qfloor q in
  match Qcompare (q - inject_Z f) (1 # 2) with
  | Lt => f
  | Gt => (f + 1)%Z
  | Eq => if Z.even f then f else (f + 1)%Z
  end.

(** The exponent of the last place of the doubles around [q]. *)
Definition last_place (q : Q) : Z := Z.max (ilog2 (Qabs q) - 52) (-1074).

(** [q] rounded to a multiple of its last place. *)
Definition round_fin (q : Q) : Q :=
  if is_zero q then 0%Q
  else (inject_Z (nearest_even (q / pow2 (last_place q)))
        * pow2 (last_place q))%Q.

(** The double nearest to [q]: an infinity when rounding reaches
    [2^1024]. *)
Definition round64 (q : Q) : number :=
  let r := Qred (round_fin q) in
  if Qle_bool (pow2 1024) (Qabs r) then (if is_neg q then NInf else PInf)
  else Fin r.

Definition rounded (a : number) : number :=
  match a with
  | Fin q => round64 q
  | _ => a
  end.

(** The operations of doubles. *)
Definition fadd (a b : number) : number := rounded (add a b).
Definition fsub (a b : number) : number := rounded (sub a b).
Definition fmul (a b : number) : number := rounded (mul a b).
Definition fdiv (a b : number) : number := rounded (div a b).

End JsNum.

Import JsNum.

Declare Scope js_scope.
Delimit Scope js_scope with js.
Bind Scope js_scope with number.
Infix "+" := add : js_scope.
Infix "-" := sub : js_scope.
Infix "*" := mul : js_scope.
Infix "/" := div : js_scope.
Infix "<" := lt : js_scope.
Infix ">" := gt : js_scope.

(** ** Values and arrays *)

Inductive value : Type :=
| Undefined
| Num (n : number).

(** [ToNumber]: arithmetic on [undefined] yields [NaN]. *)
Definition to_number (v : value) : number :=
  match v with
  | Undefined => NaN
  | Num n => n
  end.

(** [v === n] for a number literal [n]. *)
Definition strict_eq_num (v : value) (n : number) : bool :=
  match v with
  | Undefined => false
  | Num m => eqb m n
  end.

Section Arrays.
Context {A : Type}.

(** [a[i]] on the dense part of an array. *)
Definition arr_get (a : list (option A)) (i : nat) : option A :=
  match a !! i with
  | Some x => x
  | None => None
  end.

(** [a[i] = x]: in place inside the array, extending it with holes
    when [i] is at or past the end. *)
Definition arr_set (a : list (option A)) (i : nat) (x : A) : list (option A) :=
  if i <? length a then <[i := Some x]> a
  else a ++ replicate (i - length a) None ++ [Some x].
End Arrays.

(** The pixel array object: its elements and the properties created by
    writes under keys that are not array indices. *)
Record jsarray : Type := JsArray {
  elems : list (option number);
  props : list (number * value)
}.

Definition of_numbers (l : list number) : jsarray :=
  {| elems := map Some l; props := [] |}.

Definition of_bytes (l : list Z) : jsarray := of_numbers (map of_Z l).

Definition data_length (d : jsarray) : nat := length (elems d).

Definition elem_value (o : option number) : value :=
  match o with
  | Some n => Num n
  | None => Undefined
  end.

Definition data_get (d : jsarray) (k : number) : value :=
  match as_index k with
  | Some i => elem_value (arr_get (elems d) i)
  | None =>
      match find (fun kv => same_key (fst kv) k) (props d) with
      | Some kv => snd kv
      | None => Undefined
      end
  end.

Definition data_set (d : jsarray) (k : number) (n : number) : jsarray :=
  match as_index k with
  | Some i => {| elems := arr_set (elems d) i n; props := props d |}
  | None => {| elems := elems d; props := (k, Num n) :: props d |}
  end.

(** [data.length / (width * height)].  With a zero product the quotient
    is [NaN] for an empty array and otherwise an infinity whose sign is
    that of the zero ([0 * negative] is [-0]). *)
Definition js_channels (d : jsarray) (width height : Z) : number :=
  let n := (width * height)%Z in
  if (n =? 0)%Z then
    if data_length d =? 0 then NaN
    else if ((width <? 0)%Z || (height <? 0)%Z)%bool then NInf
    else PInf
  else Fin (inject_Z (Z.of_nat (data_length d)) / inject_Z n).

(** What a call produces: a value, or an exception. *)
Inductive exn : Type := RangeError.

Inductive outcome (A : Type) : Type :=
| Returned (a : A)
| Thrown (e : exn).
Arguments Returned {A} a.
Arguments Thrown {A} e.

(** ** getLines *)

Module Lines.

(** The inner loop over the rows of one column: the number of pixels
    whose first channel is 255, and the last value read. *)
Definition scan_column (data : jsarray) (channels : number)
    (width : Z) (height : nat) (col : nat) : nat * value :=
  foldl
    (fun '(matches, _) row =>
       let value :=
         data_get data
           (of_Z (Z.of_nat row * width + Z.of_nat col) * channels)%js in
       (if strict_eq_num value (of_Z 255) then S matches else matches, value))
    (0, Undefined) (seq 0 height).

Record scan_state : Type := ScanState {
  padding_left : bool;
  padding_right : bool;
  bmp : list bool
}.

Definition scan_step (data : jsarray) (channels : number)
    (width : Z) (height : nat) (st : scan_state) (col : nat) : scan_state :=
  let '(matches, value) := scan_column data channels width height col in
  let edge := strict_eq_num value (of_Z 0) in
  {| padding_left :=
       if (edge && (Z.of_nat col =? 0)%Z)%bool then false else padding_left st;
     padding_right :=
       if (edge && (Z.of_nat col =? width - 1)%Z)%bool then false
       else padding_right st;
     bmp := bmp st ++ [1 <? matches] |}.

Definition scan (data : jsarray) (channels : number) (width height : Z)
  : scan_state :=
  foldl (scan_step data channels width (Z.to_nat height))
    {| padding_left := true; padding_right := true; bmp := [] |}
    (seq 0 (Z.to_nat width)).

Record rle_state : Type := RleState {
  curr : option bool;
  count : nat;
  lines : list nat
}.

Definition eq_opt_bool (a b : option bool) : bool :=
  match a, b with
  | Some x, Some y => Bool.eqb x y
  | None, None => true
  | _, _ => false
  end.

Definition rle_step (bmp : list bool) (width : Z) (st : rle_state) (col : nat)
  : rle_state :=
  if eq_opt_bool (bmp !! col) (curr st) then
    {| curr := curr st;
       count := S (count st);
       lines := if (Z.of_nat col =? width - 1)%Z
                then lines st ++ [S (count st)] else lines st |}
  else
    {| curr := bmp !! col; count := 1; lines := lines st ++ [count st] |}.

(** The run-length loop, before the edge runs are removed. *)
Definition runLengths (bmp : list bool) (width : Z) : list nat :=
  lines
    (foldl (rle_step bmp width)
       {| curr := bmp !! 0; count := 1; lines := [] |}
       (seq 0 (Z.to_nat width))).

(** [lines.shift()] and [lines.pop()]. *)
Definition shift {A} (l : list A) : list A := tail l.
Definition pop {A} (l : list A) : list A := removelast l.

Definition trim (st : scan_state) (l : list nat) : list nat :=
  let l := if padding_left st then shift l else l in
  if padding_right st then pop l else l.

Definition getLines (data : jsarray) (width height : Z) : outcome (list nat) :=
  let channels := js_channels data width height in
  let st := scan data channels width height in
  Returned (trim st (runLengths (bmp st) width)).

End Lines.

(** ** applySimpleThreshold and applyAdaptiveThreshold *)

Module Binarizer.

Definition one : number := of_Z 1.
Definition two : number := of_Z 2.
Definition three : number := of_Z 3.

(** [(data[k] + data[k + 1] + data[k + 2]) / 3] *)
Definition mean3 (data : jsarray) (k : number) : number :=
  ((to_number (data_get data k)
    + to_number (data_get data (k + one))
    + to_number (data_get data (k + two))) / three)%js.

(** [data[k] = v; data[k + 1] = v; data[k + 2] = v] *)
Definition set3 (data : jsarray) (k : number) (v : number) : jsarray :=
  data_set (data_set (data_set data k v) (k + one)%js v) (k + two)%js v.

(** *** Simple threshold *)

Definition simple_body (data : jsarray) (i : number) : jsarray :=
  let v := mean3 data i in
  let v := if (v > of_Z 127)%js then of_Z 255 else of_Z 0 in
  set3 data i v.

(** [for (let i = 0; i < data.length; i += channels)]: the bound is read
    again before every iteration. [None] when the fuel runs out. *)
Fixpoint simple_loop (fuel : nat) (channels : number) (i : number)
    (data : jsarray) : option jsarray :=
  if (i < of_nat (data_length data))%js then
    match fuel with
    | O => None
    | S fuel => simple_loop fuel channels (i + channels)%js (simple_body data i)
    end
  else Some data.

Definition applySimpleThreshold (fuel : nat) (data : jsarray)
    (width height : Z) : option jsarray :=
  simple_loop fuel (js_channels data width height) (of_Z 0) data.

(** *** Adaptive threshold *)

(** [a[z]] for an integer [z]. *)
Definition int_get (a : list (option number)) (z : Z) : number :=
  if (z <? 0)%Z then NaN
  else to_number (elem_value (arr_get a (Z.to_nat z))).

Record pass1_state : Type := Pass1 {
  p1_data : jsarray;
  p1_integral : list (option number);
  p1_sum : number
}.

(** [(data[k] + data[k + 1] + data[k + 2]) / 3] in doubles. *)
Definition grey3 (data : jsarray) (k : number) : number :=
  fdiv
    (fadd
       (fadd (to_number (data_get data k))
          (to_number (data_get data (k + one)%js)))
       (to_number (data_get data (k + two)%js)))
    three.

Definition pass1_body (channels : number) (width : Z) (i : nat)
    (st : pass1_state) (j : nat) : pass1_state :=
  let pureIndex := (Z.of_nat j * width + Z.of_nat i)%Z in
  let index := (of_Z pureIndex * channels)%js in
  let v := grey3 (p1_data st) index in
  let data := set3 (p1_data st) index v in
  let sum := fadd (p1_sum st) v in
  let cell :=
    if (Z.of_nat i =? 0)%Z then sum
    else fadd (int_get (p1_integral st) (pureIndex - 1)) sum in
  {| p1_data := data;
     p1_integral := arr_set (p1_integral st) (Z.to_nat pureIndex) cell;
     p1_sum := sum |}.

Definition pass1_column (channels : number) (width : Z) (height : nat)
    (st : pass1_state) (i : nat) : pass1_state :=
  foldl (pass1_body channels width i)
    {| p1_data := p1_data st; p1_integral := p1_integral st;
       p1_sum := of_Z 0 |}
    (seq 0 height).

Definition pass1 (channels : number) (width height : Z) (data : jsarray)
    (integralImage : list (option number)) : pass1_state :=
  foldl (pass1_column channels width (Z.to_nat height))
    {| p1_data := data; p1_integral := integralImage; p1_sum := of_Z 0 |}
    (seq 0 (Z.to_nat width)).

(** [t = 0.15] is the double nearest to 15/100, and [1 - t] the double
    nearest to what is left of 1: [0x1.b333333333333p-1], a little less
    than 17/20. *)
Definition t : number := round64 (15 # 100).
Definition one_minus_t : number := fsub one t.

(** [s2 = Math.ceil(Math.floor(width / 4) / 2)] *)
Definition bracket (width : Z) : Z := (width / 4)%Z.
Definition half_bracket (width : Z) : Z := ((bracket width + 1) / 2)%Z.

(** [if (z < 0) z = 0] and [if (z >= bound) z = bound - 1] *)
Definition clamp_low (z : Z) : Z := if (z <? 0)%Z then 0%Z else z.
Definition clamp_high (bound z : Z) : Z :=
  if (z >=? bound)%Z then (bound - 1)%Z else z.

(** The four-corner sum over the window. *)
Definition window_sum (integralImage : list (option number))
    (width x1 x2 y1 y2 : Z) : number :=
  fadd
    (fsub
       (fsub (int_get integralImage (y2 * width + x2))
          (int_get integralImage (y1 * width + x2)))
       (int_get integralImage (y2 * width + x1)))
    (int_get integralImage (y1 * width + x1)).

(** The value written for the pixel in column [i], row [j], whose first
    channel holds [pixel]. *)
Definition pass2_value (pixel : number) (integralImage : list (option number))
    (width height : Z) (i j : nat) : number :=
  let s2 := half_bracket width in
  let x1 := clamp_low (Z.of_nat i - s2) in
  let x2 := clamp_high width (Z.of_nat i + s2) in
  let y1 := clamp_low (Z.of_nat j - s2) in
  let y2 := clamp_high height (Z.of_nat j + s2) in
  let count := ((x2 - x1) * (y2 - y1))%Z in
  let sum := window_sum integralImage width x1 x2 y1 y2 in
  if lt (fmul pixel (of_Z count)) (fmul sum one_minus_t) then of_Z 0
  else of_Z 255.

Definition pass2_body (channels : number) (width height : Z)
    (integralImage : list (option number)) (i : nat)
    (data : jsarray) (j : nat) : jsarray :=
  let pureIndex := (Z.of_nat j * width + Z.of_nat i)%Z in
  let index := (of_Z pureIndex * channels)%js in
  let v :=
    pass2_value (to_number (data_get data index)) integralImage
      width height i j in
  set3 data index v.

Definition pass2 (channels : number) (width height : Z)
    (integralImage : list (option number)) (data : jsarray) : jsarray :=
  foldl
    (fun data i =>
       foldl (pass2_body channels width height integralImage i) data
         (seq 0 (Z.to_nat height)))
    data (seq 0 (Z.to_nat width)).

(** The first pass on a fresh integral image,
    [new Array(width * height).fill(0)]. *)
Definition first_pass (data : jsarray) (width height : Z) : pass1_state :=
  let integralImage :=
    replicate (Z.to_nat (width * height)) (Some (of_Z 0)) in
  pass1 (js_channels data width height) width height data integralImage.

(** [new Array(n)] raises a [RangeError] unless [n] is an array length,
    an integer from 0 to [2^32 - 1]. *)
Definition array_length (n : Z) : bool := ((0 <=? n) && (n <? 2 ^ 32))%Z.

Definition applyAdaptiveThreshold (data : jsarray) (width height : Z)
  : outcome jsarray :=
  if negb (array_length (width * height)) then Thrown RangeError
  else
    let channels := js_channels data width height in
    let st := first_pass data width height in
    Returned (pass2 channels width height (p1_integral st) (p1_data st)).

End Binarizer.

(** ** combineAllPossible *)

Module Merger.

Local Open Scope Z_scope.

(** The comparator [(a, b) => b.length - a.length]. *)
Definition by_length_desc (a b : string) : Z :=
  Z.of_nat (String.length b) - Z.of_nat (String.length a).

(** [Array.prototype.sort] with a comparator: the sort is stable, so
    for a consistent comparator its result is the one of any stable
    sort; here insertion from the right. *)
Fixpoint sort_insert {A} (cmp : A -> A -> Z) (x : A) (l : list A) : list A :=
  match l with
  | [] => [x]
  | y :: l' => if cmp x y <=? 0 then x :: l else y :: sort_insert cmp x l'
  end.

Fixpoint js_sort {A} (cmp : A -> A -> Z) (l : list A) : list A :=
  match l with
  | [] => []
  | x :: l' => sort_insert cmp x (js_sort cmp l')
  end.

Definition question : ascii := "?"%char.

(** The callback of the inner [forEach]: [finalResult[index]] is
    written when it is unset or holds ["?"]. *)
Definition place (finalResult : list (option ascii)) (index : nat) (char : ascii)
  : list (option ascii) :=
  let unset_or_unknown :=
    match arr_get finalResult index with
    | None => true
    | Some c => Ascii.eqb c question
    end in
  if unset_or_unknown
  then arr_set finalResult index (if Ascii.eqb char question then question else char)
  else finalResult.

(** [result.split('').forEach((char, index) => ...)] *)
Fixpoint place_all (finalResult : list (option ascii)) (index : nat)
    (chars : list ascii) : list (option ascii) :=
  match chars with
  | [] => finalResult
  | char :: rest => place_all (place finalResult index char) (S index) rest
  end.

Record merge_state : Type := MergeState {
  finalResult : list (option ascii);
  maxLength : nat
}.

(** The callback of the outer [forEach]. *)
Definition merge_step (st : merge_state) (result : string) : merge_state :=
  let length := String.length result in
  if ((maxLength st =? 0)%nat || (length =? maxLength st)%nat)%bool then
    {| finalResult :=
         place_all (finalResult st) 0 (list_ascii_of_string result);
       maxLength := length |}
  else st.

(** [finalResult.join('')]; a hole is rendered as the empty string. *)
Fixpoint join (l : list (option ascii)) : string :=
  match l with
  | [] => EmptyString
  | Some c :: l' => String c (join l')
  | None :: l' => join l'
  end.

(** The call returns the merged string; the second component is the
    array [results] as the call leaves it (it is sorted in place). *)
Definition combineAllPossible (results : list string) : string * list string :=
  let results := js_sort by_length_desc results in
  let st := foldl merge_step {| finalResult := []; maxLength := 0 |} results in
  (join (finalResult st), results).

End Merger.

(** ** isUrl *)

Module Url.

(** Regular expressions without anchors, groups being plain
    parentheses: membership is decided with derivatives. *)
Inductive regex : Type :=
| Void
| Eps
| Class (p : ascii -> bool)
| Cat (r1 r2 : regex)
| Alt (r1 r2 : regex)
| Star (r : regex).

Fixpoint nullable (r : regex) : bool :=
  match r with
  | Void => false
  | Eps => true
  | Class _ => false
  | Cat r1 r2 => nullable r1 && nullable r2
  | Alt r1 r2 => nullable r1 || nullable r2
  | Star _ => true
  end.

Fixpoint deriv (c : ascii) (r : regex) : regex :=
  match r with
  | Void => Void
  | Eps => Void
  | Class p => if p c then Eps else Void
  | Cat r1 r2 =>
      if nullable r1 then Alt (Cat (deriv c r1) r2) (deriv c r2)
      else Cat (deriv c r1) r2
  | Alt r1 r2 => Alt (deriv c r1) (deriv c r2)
  | Star r1 => Cat (deriv c r1) (Star r1)
  end.

Fixpoint matches (r : regex) (s : string) : bool :=
  match s with
  | EmptyString => nullable r
  | String c s' => matches (deriv c r) s'
  end.

Definition any : regex := Class (fun _ => true).
Definition lit (c : ascii) : regex := Class (Ascii.eqb c).
Definition opt (r : regex) : regex := Alt Eps r.
Definition plus (r : regex) : regex := Cat r (Star r).

Fixpoint word (s : string) : regex :=
  match s with
  | EmptyString => Eps
  | String c s' => Cat (lit c) (word s')
  end.

(** [regexp.test(s)]: some substring of [s] matches. *)
Definition test (r : regex) (s : string) : bool :=
  matches (Cat (Star any) (Cat r (Star any))) s.

Definition between (lo hi : nat) (c : ascii) : bool :=
  let n := nat_of_ascii c in ((lo <=? n) && (n <=? hi))%nat.

Definition is_digit (c : ascii) : bool := between 48 57 c.

(** [\w] *)
Definition is_word (c : ascii) : bool :=
  between 65 90 c || between 97 122 c || is_digit c || Ascii.eqb c "_".

(** [\S]: not white space nor a line terminator (code units below 256). *)
Definition is_nonspace (c : ascii) : bool :=
  let n := nat_of_ascii c in
  negb (between 9 13 c || (n =? 32)%nat || (n =? 160)%nat).

(** [[\w#!:.?+=&%@!\-/]] *)
Definition is_path_char (c : ascii) : bool :=
  is_word c
  || existsb (Ascii.eqb c) (list_ascii_of_string "#!:.?+=&%@!-/").

(** [/(ftp|http|https):\/\/(\w+:{0,1}\w*@)?(\S+)(:[0-9]+)?(\/|\/([\w#!:.?+=&%@!\-/]))?/] *)
Definition regexp : regex :=
  Cat (Alt (word "ftp") (Alt (word "http") (word "https")))
  (Cat (word "://")
  (Cat (opt (Cat (plus (Class is_word))
            (Cat (opt (lit ":")) (Cat (Star (Class is_word)) (lit "@")))))
  (Cat (plus (Class is_nonspace))
  (Cat (opt (Cat (lit ":") (plus (Class is_digit))))
       (opt (Alt (lit "/") (Cat (lit "/") (Class is_path_char)))))))).

(** The values [isUrl] computes with. *)
Inductive jsval : Type :=
| JUndefined
| JBool (b : bool)
| JString (s : string).

(** [s[i]]: the one-character string at [i], or [undefined]. *)
Definition char_at (s : string) (i : nat) : jsval :=
  match String.get i s with
  | Some c => JString (String c EmptyString)
  | None => JUndefined
  end.

Definition truthy (v : jsval) : bool :=
  match v with
  | JUndefined => false
  | JBool b => b
  | JString s => negb (String.eqb s EmptyString)
  end.

(** [!v] *)
Definition js_not (v : jsval) : jsval := JBool (negb (truthy v)).

(** [a === b]: false across types. *)
Definition strict_equal (a b : jsval) : bool :=
  match a, b with
  | JUndefined, JUndefined => true
  | JBool x, JBool y => Bool.eqb x y
  | JString x, JString y => String.eqb x y
  | _, _ => false
  end.

(** [!s[0] === '#' || regexp.test(s)]: the negation binds tighter than
    the comparison. *)
Definition isUrl (s : string) : bool :=
  strict_equal (js_not (char_at s 0)) (JString "#") || test regexp s.

End Url.

(** ** createImageData and getImageDataFromSource *)

Module Source.

Import Url.

(** The values a source can be: primitives, a pixel array, or an object
    with named properties (own properties only). *)
#[warnings="-register-all"]
Inductive jsvalue : Type :=
| VUndefined
| VNull
| VBool (b : bool)
| VNumber (n : number)
| VString (s : string)
| VPixels (a : jsarray)
| VObject (fields : list (string * jsvalue)).

Fixpoint field (name : string) (fields : list (string * jsvalue)) : jsvalue :=
  match fields with
  | [] => VUndefined
  | (k, v) :: rest => if String.eqb name k then v else field name rest
  end.

(** [v.name] for a value that is neither [null] nor [undefined]. *)
Definition get_prop (v : jsvalue) (name : string) : jsvalue :=
  match v with
  | VObject fields => field name fields
  | _ => VUndefined
  end.

Definition truthy (v : jsvalue) : bool :=
  match v with
  | VUndefined | VNull => false
  | VBool b => b
  | VNumber (Fin q) => negb (is_zero q)
  | VNumber NaN => false
  | VNumber _ => true
  | VString s => negb (String.eqb s EmptyString)
  | VPixels _ | VObject _ => true
  end.

(** [v === s] for a string literal [s]. *)
Definition is_string (v : jsvalue) (s : string) : bool :=
  match v with
  | VString s' => String.eqb s' s
  | _ => false
  end.

Inductive error : Type :=
| TypeError
| InvalidImageSource
| Raised (what : jsvalue).

(** A call returns or throws. *)
Inductive completion (A : Type) : Type :=
| Normal (a : A)
| Abrupt (e : error).
Arguments Normal {A} a.
Arguments Abrupt {A} e.

(** What [Jimp.read] is asked to read, and what it hands to its
    callback: an error, or an image whose bitmap has the bytes of its
    buffer, a width and a height; [require] or the call itself may throw
    instead. *)
Inductive jimp_request : Type :=
| ReadUrl (url : string)
| ReadPath (path : string).

Inductive jimp_result : Type :=
| JimpThrown (what : jsvalue)
| JimpError (err : jsvalue)
| JimpImage (data : jsarray) (width height : jsvalue).

(** What happens to an [Image] after its [src] is set. *)
Inductive load_result : Type :=
| LoadError (event : jsvalue)
| Loaded (img : jsvalue).

(** The collaborators outside the repository. *)
Record platform : Type := Platform {
  (** the own properties of the global [process], if there is such an
      object *)
  process : option (list (string * jsvalue));
  jimp_read : jimp_request -> jimp_result;
  load_image : string -> load_result;
  getElementById : string -> jsvalue;
  (** a fresh canvas of the given size, the image drawn on it at the
      origin, and [getImageData(0, 0, width, height)] of it *)
  draw_and_read : jsvalue -> jsvalue -> jsvalue -> completion jsvalue;
  (** [canvas.getContext('2d').getImageData(0, 0, width, height)] *)
  canvas_read : jsvalue -> jsvalue -> jsvalue -> completion jsvalue
}.

Definition isNode (process : option (list (string * jsvalue))) : bool :=
  match process with
  | None => false
  | Some fields =>
      let release := field "release" fields in
      (truthy release && is_string (get_prop release "name") "node")%bool
  end.

Definition createImageData (env : platform) (image : jsvalue)
  : completion jsvalue :=
  let width := get_prop image "naturalWidth" in
  let height := get_prop image "naturalHeight" in
  draw_and_read env image width height.

(** How a promise ends: fulfilled, rejected, or never settled. *)
Inductive settlement : Type :=
| Fulfilled (v : jsvalue)
| Rejected (e : error)
| Pending.

(** Inside the executor only the first [resolve] or [reject] counts. *)
Definition resolve (v : jsvalue) (state : option settlement)
  : option settlement :=
  match state with
  | Some _ => state
  | None => Some (Fulfilled v)
  end.

Definition reject (e : error) (state : option settlement)
  : option settlement :=
  match state with
  | Some _ => state
  | None => Some (Rejected e)
  end.

(** The executor has run to its end. *)
Definition settled_as (state : option settlement) : settlement :=
  match state with
  | Some s => s
  | None => Pending
  end.

(** The executor was left by an exception: the promise is rejected with
    it unless it was settled before. *)
Definition thrown_out (e : error) (state : option settlement) : settlement :=
  settled_as (reject e state).

(** [resolve(call)] followed by the rest of the executor. *)
Definition resolve_call (call : completion jsvalue)
    (rest : option settlement -> settlement) (state : option settlement)
  : settlement :=
  match call with
  | Normal v => rest (resolve v state)
  | Abrupt e => thrown_out e state
  end.

Definition invalid_source (state : option settlement) : settlement :=
  settled_as (reject InvalidImageSource state).

(** The call of [Jimp.read] with its callback. *)
Definition jimp_callback (result : jimp_result) : settlement :=
  match result with
  | JimpThrown what => thrown_out (Raised what) None
  | JimpError err => settled_as (reject (Raised err) None)
  | JimpImage data width height =>
      settled_as
        (resolve
           (VObject [("data", VPixels data); ("width", width);
                     ("height", height)]%string)
           None)
  end.

(** [img.onerror = reject; img.onload = () => resolve(createImageData(img))]:
    an exception in the load handler leaves the promise unsettled. *)
Definition image_handlers (env : platform) (result : load_result)
  : settlement :=
  match result with
  | LoadError event => settled_as (reject (Raised event) None)
  | Loaded img =>
      match createImageData env img with
      | Normal v => settled_as (resolve v None)
      | Abrupt _ => Pending
      end
  end.

Definition getImageDataFromSource (env : platform) (source : jsvalue)
  : settlement :=
  let isURLSource :=
    match source with
    | VString s => isUrl s
    | _ => false
    end in
  match source with
  | VUndefined | VNull =>
      (* [const { tagName } = source] throws *)
      Rejected TypeError
  | VString s =>
      if isNode (process env) then
        jimp_callback
          (jimp_read env (if isURLSource then ReadUrl s else ReadPath s))
      else if isURLSource then
        image_handlers env (load_image env s)
      else
        let imgElem := getElementById env s in
        if truthy imgElem
        then resolve_call (createImageData env imgElem) invalid_source None
        else invalid_source None
  | _ =>
      let tagName := get_prop source "tagName" in
      if truthy tagName then
        if is_string tagName "IMG" then
          resolve_call (createImageData env source) invalid_source None
        else if is_string tagName "CANVAS" then
          resolve_call
            (canvas_read env source (get_prop source "naturalWidth")
               (get_prop source "naturalHeight"))
            invalid_source None
        else invalid_source None
      else if (truthy (get_prop source "data")
               && truthy (get_prop source "width")
               && truthy (get_prop source "height"))%bool
      then settled_as (resolve source None)
      else invalid_source None
  end.

End Source.

Import Lines Binarizer Merger Url.

(** * Vocabulary of the properties *)

(** [is_key x k]: the number [x] denotes the array index [k]. *)
Definition is_key (x : number) (k : nat) : Prop :=
  match x with
  | Fin q => q == inject_Z (Z.of_nat k)
  | _ => False
  end.

(** [cell d k] is [data[k]] for an index [k]. *)
Definition cell (d : jsarray) (k : nat) : value :=
  elem_value (arr_get (elems d) k).

Definition put (d : jsarray) (k : nat) (n : number) : jsarray :=
  {| elems := arr_set (elems d) k n; props := props d |}.

Definition put3 (d : jsarray) (k : nat) (n : number) : jsarray :=
  put (put (put d k n) (k + 1) n) (k + 2) n.

Definition rle_prefix (bmp : list bool) (width : Z) (k : nat) : rle_state :=
  foldl (rle_step bmp width)
    {| curr := bmp !! 0; count := 1; lines := [] |} (seq 0 k).

Definition last_column_turns (bmp : list bool) : bool :=
  negb (eq_opt_bool (bmp !! (length bmp - 1)) (bmp !! (length bmp - 2))).

Definition longer_first (a b : string) : Prop :=
  (String.length b <= String.length a)%nat.

Definition has_length (n : nat) (s : string) : bool :=
  (String.length s =? n)%nat.

(** What one candidate does to a result without holes: a position
    holding ["?"] takes the candidate's character, a position past the
    end is appended, every other position stays. *)
Fixpoint merge_chars (f cs : list ascii) : list ascii :=
  match f, cs with
  | s :: f', c :: cs' =>
      (if Ascii.eqb s question then c else s) :: merge_chars f' cs'
  | [], _ => cs
  | _, [] => f
  end.

Definition max_length (l : list string) : nat :=
  foldr Nat.max 0 (map String.length l).

(** The first character other than ["?"] that the candidates have at
    position [i], in their order; ["?"] when there is none. *)
Fixpoint first_definite (i : nat) (rs : list string) : ascii :=
  match rs with
  | [] => question
  | r :: rs' =>
      match String.get i r with
      | Some c => if Ascii.eqb c question then first_definite i rs' else c
      | None => first_definite i rs'
      end
  end.

Definition chars (s : string) : list ascii := list_ascii_of_string s.

Definition merge_init : merge_state := {| finalResult := []; maxLength := 0 |}.

(** A buffer of [W] by [H] pixels with [c] values per pixel. *)
Record buffer_shape (data : jsarray) (W H c : nat) : Prop := BufferShape {
  shape_width : 0 < W;
  shape_height : 0 < H;
  shape_length : data_length data = c * (W * H)
}.

(** [(data[k] + data[k + 1] + data[k + 2]) / 3] at an index. *)
Definition mean_at (d : jsarray) (k : nat) : number :=
  ((to_number (cell d k) + to_number (cell d (k + 1))
    + to_number (cell d (k + 2))) / three)%js.

(** A cell holds 0 or 255. *)
Definition binary (v : value) : Prop :=
  v = Num (of_Z 0) \/ v = Num (of_Z 255).

Definition threshold127 (v : number) : number :=
  if (v > of_Z 127)%js then of_Z 255 else of_Z 0.

(** The first three channels of the pixels read so far (the columns
    before [i] and the first [n] rows of column [i]) hold 0 or 255. *)
Definition binary_upto (W H c i n : nat) (d : jsarray) : Prop :=
  forall i' j' k,
    (i' < i /\ j' < H) \/ (i' = i /\ j' < n) -> k < 3 ->
    binary (cell d ((j' * W + i') * c + k)).

(** The greyscale value of the pixel in column [i], row [j]: the mean
    of its first three channels. *)
Definition grey (d : jsarray) (c W : nat) (i j : nat) : number :=
  mean_at d ((j * W + i) * c).

Definition sum_numbers (l : list number) : number := foldl add (of_Z 0) l.

(** The sum of the first [n] greyscale values of column [i]. *)
Definition column_sum (d : jsarray) (c W : nat) (i n : nat) : number :=
  sum_numbers (map (grey d c W i) (seq 0 n)).

(** The sum of the greyscale values over the rectangle
    [[0,x] x [0,y]]. *)
Definition rect_sum (d : jsarray) (c W : nat) (x y : nat) : number :=
  sum_numbers (map (fun i => column_sum d c W i (S y)) (seq 0 (S x))).

(** The numbers with 53 significant bits and no bit below [2^-1074]. *)
Definition representable (r : Q) : Prop :=
  exists m e, (r == inject_Z m * pow2 e)%Q
              /\ (Z.abs m <= 2 ^ 53)%Z /\ (-1074 <= e)%Z.

(** The numbers that rounding leaves as they are. *)
Definition is_double (a : number) : Prop := rounded a = a.

(** Every element of an array is a double. *)
Definition all_doubles (a : list (option number)) : Prop :=
  forall k x, arr_get a k = Some x -> is_double x.

(** The greyscale value as the first pass computes it, in doubles, *)
Definition grey_at (d : jsarray) (k : nat) : number :=
  fdiv
    (fadd (fadd (to_number (cell d k)) (to_number (cell d (k + 1))))
       (to_number (cell d (k + 2))))
    three.

Definition grey64 (d : jsarray) (c W : nat) (i j : nat) : number :=
  grey_at d ((j * W + i) * c).

(** the running sum of column [i] after [n] rows, *)
Definition column_sum64 (d : jsarray) (c W : nat) (i n : nat) : number :=
  foldl fadd (of_Z 0) (map (grey64 d c W i) (seq 0 n)).

(** and the entry of the integral image for column [i], row [j]. *)
Fixpoint integral64 (d : jsarray) (c W : nat) (i j : nat) : number :=
  match i with
  | 0 => column_sum64 d c W 0 (S j)
  | S i' => fadd (integral64 d c W i' j) (column_sum64 d c W (S i') (S j))
  end.

Definition processed (i n i' j' : nat) : bool :=
  (i' <? i) || ((i' =? i) && (j' <? n)).

(** The state of the first pass when the columns before [i] and the
    first [n] rows of column [i] have been read. *)
Record pass1_inv (data : jsarray) (W H c : nat) (i n : nat)
    (st : pass1_state) : Prop := Pass1Inv {
  inv_sum : p1_sum st = column_sum64 data c W i n;
  inv_length : length (p1_integral st) = W * H;
  inv_integral : forall i' j',
    i' < W -> j' < H -> processed i n i' j' = true ->
    arr_get (p1_integral st) (j' * W + i') = Some (integral64 data c W i' j');
  inv_data : forall i' j' k,
    i' < W -> j' < H -> k < c ->
    cell (p1_data st) ((j' * W + i') * c + k)
    = if (processed i n i' j' && (k <? 3))%bool
      then Num (grey64 data c W i' j')
      else cell data ((j' * W + i') * c + k)
}.
Arguments inv_sum {data W H c i n st}.
Arguments inv_length {data W H c i n st}.
Arguments inv_integral {data W H c i n st}.
Arguments inv_data {data W H c i n st}.

(** The state a column starts from. *)
Definition restart (st : pass1_state) : pass1_state :=
  {| p1_data := p1_data st; p1_integral := p1_integral st;
     p1_sum := of_Z 0 |}.

(** What the second pass writes for the pixel in column [i], row [j]
    of the buffer [data1] that the first pass left. *)
Definition pass2_pixel (data1 : jsarray) (W H c : nat)
    (I : list (option number)) (i j : nat) : number :=
  pass2_value (to_number (cell data1 ((j * W + i) * c))) I
    (Z.of_nat W) (Z.of_nat H) i j.

Definition pass2_inv (data1 : jsarray) (W H c : nat)
    (I : list (option number)) (i n : nat) (d : jsarray) : Prop :=
  forall i' j' k,
    i' < W -> j' < H -> k < c ->
    cell d ((j' * W + i') * c + k)
    = if (processed i n i' j' && (k <? 3))%bool
      then Num (pass2_pixel data1 W H c I i' j')
      else cell data1 ((j' * W + i') * c + k).

(** The pixels of the image are fewer than [2^32], so that the
    integral image can be allocated. *)
Definition fits (W H : nat) : Prop := (Z.of_nat W * Z.of_nat H < 2 ^ 32)%Z.

(** A cell holds a byte. *)
Definition byte (v : value) : Prop :=
  exists z, v = Num (of_Z z) /\ (0 <= z <= 255)%Z.

(** The integer a cell holds. *)
Definition byte_value (v : value) : Z :=
  match v with
  | Num (Fin q) => Qfloor q
  | _ => 0%Z
  end.

(** The first three channels of every pixel hold bytes. *)
Definition byte_pixels (d : jsarray) (c W H : nat) : Prop :=
  forall i j k, i < W -> j < H -> k < 3 ->
    byte (cell d ((j * W + i) * c + k)).

(** The sum of the first three channels of a pixel of bytes. *)
Definition channel_sum (d : jsarray) (c W : nat) (i j : nat) : Z :=
  (byte_value (cell d ((j * W + i) * c))
   + byte_value (cell d ((j * W + i) * c + 1))
   + byte_value (cell d ((j * W + i) * c + 2)))%Z.

(** Every pixel's greyscale value is an integer. *)
Definition whole_greys (d : jsarray) (c W H : nat) : Prop :=
  forall i j, i < W -> j < H -> (channel_sum d c W i j mod 3 = 0)%Z.

(** The greyscale values of such pixels and their sums, as integers. *)
Definition grey_Z (d : jsarray) (c W : nat) (i j : nat) : Z :=
  (channel_sum d c W i j / 3)%Z.

Fixpoint column_Z (d : jsarray) (c W : nat) (i n : nat) : Z :=
  match n with
  | 0 => 0%Z
  | S n' => (column_Z d c W i n' + grey_Z d c W i n')%Z
  end.

Fixpoint rect_Z (d : jsarray) (c W : nat) (x y : nat) : Z :=
  match x with
  | 0 => column_Z d c W 0 (S y)
  | S x' => (rect_Z d c W x' y + column_Z d c W (S x') (S y))%Z
  end.

(** The rectangle sum [[0,x] x [0,y]] of a buffer whose pixels all
    have the greyscale value [g]. *)
Definition area (g : Z) (x y : Z) : Z := ((x + 1) * (y + 1) * g)%Z.

(** [x] is [NaN] or the integer [z]. *)
Definition nan_or (x : number) (z : Z) : Prop := x = NaN \/ x = of_Z z.

(** What a cell of a buffer of the one value [g] can hold before it is
    thresholded: [g], or nothing that counts as a number. *)
Definition flat (g : Z) (v : value) : Prop := nan_or (to_number v) g.

(** The first pass on a buffer of the one value [g], when the columns
    before [i] and the first [n] rows of column [i] have been read. *)
Record flat_inv1 (W H : nat) (g : Z) (i n : nat) (st : pass1_state)
  : Prop := FlatInv1 {
  flat_sum : nan_or (p1_sum st) (Z.of_nat n * g);
  flat_length : length (p1_integral st) = W * H;
  flat_integral : forall i' j',
    i' < W -> j' < H -> processed i n i' j' = true ->
    exists x, arr_get (p1_integral st) (j' * W + i') = Some x
              /\ nan_or x (area g (Z.of_nat i') (Z.of_nat j'));
  flat_data : forall k, flat g (cell (p1_data st) k)
}.
Arguments flat_sum {W H g i n st}.
Arguments flat_length {W H g i n st}.
Arguments flat_integral {W H g i n st}.
Arguments flat_data {W H g i n st}.

(** The second pass on such a buffer. *)
Record flat_inv2 (W H c : nat) (g : Z) (i n : nat) (d : jsarray)
  : Prop := FlatInv2 {
  flat_cells : forall k, flat g (cell d k) \/ cell d k = Num (of_Z 255);
  flat_written : forall i' j' k,
    i' < W -> j' < H -> k < 3 -> processed i n i' j' = true ->
    cell d ((j' * W + i') * c + k) = Num (of_Z 255)
}.
Arguments flat_cells {W H c g i n d}.
Arguments flat_written {W H c g i n d}.

(** Dimensions that do not describe the buffer. *)
Definition invalid_dimensions (data : jsarray) (width height : Z) : Prop :=
  (width <= 0)%Z \/ (height <= 0)%Z
  \/ ~ (width * height | Z.of_nat (data_length data))%Z.

(** The number of pixels of column [col] whose first channel is 255. *)
Definition column_matches (data : jsarray) (c W H col : nat) : nat :=
  length
    (List.filter
       (fun row => strict_eq_num (cell data ((row * W + col) * c)) (of_Z 255))
       (seq 0 H)).

(** The first channel of the pixel of column [col] in the last row. *)
Definition column_last (data : jsarray) (c W H col : nat) : value :=
  match H with
  | 0 => Undefined
  | S h => cell data ((h * W + col) * c)
  end.

(** A column counts as white when more than one of its pixels is. *)
Definition white_columns (data : jsarray) (c W H : nat) : list bool :=
  map (fun col => 1 <? column_matches data c W H col) (seq 0 W).

(** The first channel of the last row is 0 in column [col]. *)
Definition dark_foot (data : jsarray) (c W H col : nat) : bool :=
  strict_eq_num (column_last data c W H col) (of_Z 0).

(** Run-length encoding: the lengths of the maximal runs of equal
    values, [n] being the length so far of the run of [b]s. *)
Fixpoint rle_from (b : bool) (n : nat) (l : list bool) : list nat :=
  match l with
  | [] => [n]
  | x :: l' =>
      if Bool.eqb x b then rle_from b (S n) l' else n :: rle_from x 1 l'
  end.

Definition rle (l : list bool) : list nat :=
  match l with
  | [] => []
  | b :: l' => rle_from b 1 l'
  end.

(** The columns whose runs are emitted: all of them, or all but the
    last one when it differs from the column before it. *)
Definition settled (bmp : list bool) : list bool :=
  if last_column_turns bmp then removelast bmp else bmp.

Definition lengthen_first (l : list nat) : list nat :=
  match l with
  | [] => []
  | n :: l' => S n :: l'
  end.

(** What the loop emits from a column on, [b] being the colour of the
    current run and [n] its counter. *)
Fixpoint emitted (b : bool) (n : nat) (l : list bool) : list nat :=
  match l with
  | [] => []
  | x :: l' =>
      match l' with
      | [] => if Bool.eqb x b then [S n] else [n]
      | _ :: _ =>
          if Bool.eqb x b then emitted b (S n) l' else n :: emitted x 1 l'
      end
  end.

(** The runs that are returned: the first one is dropped unless the
    left foot is dark, then the last one unless the right foot is. *)
Definition drop_edges (left_dark right_dark : bool) (runs : list nat)
  : list nat :=
  let runs := if left_dark then runs else shift runs in
  if right_dark then runs else pop runs.

(** The pixel in column [col] of row [row] is brighter than 127 on the
    mean of its first three channels. *)
Definition bright (data : jsarray) (c W row col : nat) : bool :=
  (mean_at data ((row * W + col) * c) > of_Z 127)%js.

(** The number of bright pixels of a column. *)
Definition bright_count (data : jsarray) (c W H col : nat) : nat :=
  length (List.filter (fun row => bright data c W row col) (seq 0 H)).

(** The first three channels of the pixels read so far hold [v]. *)
Definition written_upto (v : number) (W H c i n : nat) (d : jsarray) : Prop :=
  forall i' j' k,
    (i' < i /\ j' < H) \/ (i' = i /\ j' < n) -> k < 3 ->
    cell d ((j' * W + i') * c + k) = Num v.

(** The sum of the greyscale values over the window
    [[x1 + 1, x2] x [y1 + 1, y2]], from the four rectangle sums. *)
Definition window_total (data : jsarray) (c W : nat) (x1 x2 y1 y2 : Z)
  : number :=
  (rect_sum data c W (Z.to_nat x2) (Z.to_nat y2)
   - rect_sum data c W (Z.to_nat x2) (Z.to_nat y1)
   - rect_sum data c W (Z.to_nat x1) (Z.to_nat y2)
   + rect_sum data c W (Z.to_nat x1) (Z.to_nat y1))%js.

(** The pixel in column [i], row [j] is darker than 85% of the mean of
    its window: its greyscale value times the size of the window is
    below 17/20 of the window's sum. *)
Definition below_window_mean (data : jsarray) (c W H i j : nat) : bool :=
  let s2 := half_bracket (Z.of_nat W) in
  let x1 := clamp_low (Z.of_nat i - s2) in
  let x2 := clamp_high (Z.of_nat W) (Z.of_nat i + s2) in
  let y1 := clamp_low (Z.of_nat j - s2) in
  let y2 := clamp_high (Z.of_nat H) (Z.of_nat j + s2) in
  (grey data c W i j * of_Z ((x2 - x1) * (y2 - y1))
   < window_total data c W x1 x2 y1 y2 * Fin (17 # 20))%js.

(** The same window sum as an integer. *)
Definition window_Z (data : jsarray) (c W : nat) (x1 x2 y1 y2 : Z) : Z :=
  (rect_Z data c W (Z.to_nat x2) (Z.to_nat y2)
   - rect_Z data c W (Z.to_nat x2) (Z.to_nat y1)
   - rect_Z data c W (Z.to_nat x1) (Z.to_nat y2)
   + rect_Z data c W (Z.to_nat x1) (Z.to_nat y1))%Z.

(** The strings a regular expression denotes. *)
Inductive lang : regex -> list ascii -> Prop :=
| lang_eps : lang Eps []
| lang_class p c : p c = true -> lang (Class p) [c]
| lang_cat r1 r2 l1 l2 :
    lang r1 l1 -> lang r2 l2 -> lang (Cat r1 r2) (l1 ++ l2)
| lang_alt_l r1 r2 l : lang r1 l -> lang (Alt r1 r2) l
| lang_alt_r r1 r2 l : lang r2 l -> lang (Alt r1 r2) l
| lang_star_nil r : lang (Star r) []
| lang_star_app r l1 l2 :
    lang r l1 -> lang (Star r) l2 -> lang (Star r) (l1 ++ l2).

(** The string holds ["ftp://"], ["http://"] or ["https://"] followed
    at once by a character that is not white space. *)
Definition has_url (s : string) : Prop :=
  exists (before : list ascii) (scheme : string) (c : ascii)
         (after : list ascii),
    In scheme ["ftp"; "http"; "https"]%string
    /\ is_nonspace c = true
    /\ chars s = before ++ chars scheme ++ chars "://" ++ c :: after.

Import Source.

(** The test of the pixel-data branch: [data], [width] and [height] are
    all truthy. *)
Definition has_pixels (source : jsvalue) : bool :=
  (truthy (get_prop source "data") && truthy (get_prop source "width")
   && truthy (get_prop source "height"))%bool.

(** Neither a string nor [null] nor [undefined]. *)
Definition is_structured (source : jsvalue) : Prop :=
  match source with
  | VUndefined | VNull | VString _ => False
  | _ => True
  end.

(** A page with the given elements by id, where nothing can be drawn and
    no image loads. *)
Definition page (elements : list (string * jsvalue)) : platform :=
  {| process := None;
     jimp_read := fun _ => JimpThrown VUndefined;
     load_image := fun _ => LoadError VUndefined;
     getElementById := fun id =>
       match field id elements with
       | VUndefined => VNull
       | element => element
       end;
     draw_and_read := fun image _ _ => Normal image;
     canvas_read := fun _ _ _ => Abrupt TypeError |}.

(** A Node process where [Jimp.read] gives back what it was asked for,
    as the only byte sequence it knows. *)
Definition node (bytes : jsarray) : platform :=
  {| process :=
       Some [("release", VObject [("name", VString "node")])]%string;
     jimp_read := fun request =>
       match request with
       | ReadUrl _ => JimpError (VString "offline")
       | ReadPath _ => JimpImage bytes (VNumber (Fin 1)) (VNumber (Fin 1))
       end;
     load_image := fun _ => LoadError VUndefined;
     getElementById := fun _ => VNull;
     draw_and_read := fun _ _ _ => Abrupt TypeError;
     canvas_read := fun _ _ _ => Abrupt TypeError |}.

(** * Properties *)

(** ** Array keys *)

Lemma as_index_key x k : is_key x k -> as_index x = Some k.
Proof.
  destruct x as [q| | |]; simpl; try tauto.
  intros Hq. rewrite (Qred_complete _ _ Hq), inject_Z_Qred. simpl.
  destruct (Z.leb_spec 0 (Z.of_nat k)); [|lia].
  now rewrite Nat2Z.id.
Qed.

Lemma is_key_of_nat k : is_key (of_nat k) k.
Proof. simpl. reflexivity. Qed.

Lemma is_key_add x k y n :
  is_key x k -> is_key y n -> is_key (x + y)%js (k + n).
Proof.
  destruct x as [q| | |], y as [r| | |]; simpl; try tauto.
  intros -> ->. rewrite Nat2Z.inj_add, inject_Z_plus. reflexivity.
Qed.

Lemma is_key_mul x k y n :
  is_key x k -> is_key y n -> is_key (x * y)%js (k * n).
Proof.
  destruct x as [q| | |], y as [r| | |]; simpl; try tauto.
  intros -> ->. rewrite Nat2Z.inj_mul, inject_Z_mult. reflexivity.
Qed.

Lemma is_key_one : is_key one 1.
Proof. reflexivity. Qed.

Lemma is_key_two : is_key two 2.
Proof. reflexivity. Qed.

(** ** Reading and writing array elements *)

Section ArrayFacts.
Context {A : Type}.
Implicit Types (a : list (option A)) (i j : nat) (x : A).

Lemma arr_get_set_eq a i x : arr_get (arr_set a i x) i = Some x.
Proof.
  unfold arr_get, arr_set. destruct (Nat.ltb_spec i (length a)).
  - now rewrite list_lookup_insert_eq.
  - rewrite lookup_app_r by lia.
    rewrite lookup_app_r; rewrite length_replicate; [|lia].
    now replace (i - length a - (i - length a)) with 0 by lia.
Qed.

Lemma arr_get_set_ne a i j x : i <> j -> arr_get (arr_set a i x) j = arr_get a j.
Proof.
  intros Hne. unfold arr_get, arr_set. destruct (Nat.ltb_spec i (length a)).
  - now rewrite list_lookup_insert_ne.
  - destruct (Nat.lt_ge_cases j (length a)) as [Hj|Hj].
    + now rewrite lookup_app_l.
    + rewrite (lookup_ge_None_2 a j) by lia.
      rewrite lookup_app_r by lia.
      destruct (Nat.lt_ge_cases (j - length a) (i - length a)) as [Hk|Hk].
      * rewrite lookup_app_l by (rewrite length_replicate; lia).
        now rewrite lookup_replicate_2.
      * rewrite lookup_app_r by (rewrite length_replicate; lia).
        rewrite length_replicate.
        destruct (j - length a - (i - length a)) as [|m] eqn:E; [lia|].
        reflexivity.
Qed.

Lemma arr_set_length a i x :
  length (arr_set a i x) = Nat.max (length a) (S i).
Proof.
  unfold arr_set. destruct (Nat.ltb_spec i (length a)).
  - rewrite length_insert. lia.
  - rewrite !length_app, length_replicate. simpl. lia.
Qed.

Lemma arr_set_length_lt a i x :
  i < length a -> length (arr_set a i x) = length a.
Proof. intros. rewrite arr_set_length. lia. Qed.
End ArrayFacts.

Lemma data_get_key d x k : is_key x k -> data_get d x = cell d k.
Proof. intros H. unfold data_get. now rewrite (as_index_key _ _ H). Qed.

Lemma data_set_key d x k n : is_key x k -> data_set d x n = put d k n.
Proof. intros H. unfold data_set. now rewrite (as_index_key _ _ H). Qed.

Lemma cell_put_eq d k n : cell (put d k n) k = Num n.
Proof. unfold cell, put. simpl. now rewrite arr_get_set_eq. Qed.

Lemma cell_put_ne d k j n : k <> j -> cell (put d k n) j = cell d j.
Proof. intros. unfold cell, put. simpl. now rewrite arr_get_set_ne. Qed.

Lemma data_length_put d k n :
  data_length (put d k n) = Nat.max (data_length d) (S k).
Proof. unfold data_length, put. simpl. apply arr_set_length. Qed.

Lemma props_put d k n : props (put d k n) = props d.
Proof. reflexivity. Qed.

Lemma set3_key d x k n : is_key x k -> set3 d x n = put3 d k n.
Proof.
  intros H. unfold set3, put3.
  rewrite (data_set_key _ (x + two)%js (k + 2))
    by (apply is_key_add; [exact H|apply is_key_two]).
  rewrite (data_set_key _ (x + one)%js (k + 1))
    by (apply is_key_add; [exact H|apply is_key_one]).
  rewrite (data_set_key _ x k) by exact H.
  reflexivity.
Qed.

Lemma mean3_key d x k :
  is_key x k ->
  mean3 d x =
  ((to_number (cell d k) + to_number (cell d (k + 1))
    + to_number (cell d (k + 2))) / three)%js.
Proof.
  intros H. unfold mean3.
  rewrite (data_get_key _ (x + two)%js (k + 2))
    by (apply is_key_add; [exact H|apply is_key_two]).
  rewrite (data_get_key _ (x + one)%js (k + 1))
    by (apply is_key_add; [exact H|apply is_key_one]).
  rewrite (data_get_key _ x k) by exact H.
  reflexivity.
Qed.

Lemma cell_put3_in d k n j : k <= j < k + 3 -> cell (put3 d k n) j = Num n.
Proof.
  intros Hj. unfold put3.
  destruct (Nat.eq_dec j (k + 2)) as [->|H2]; [apply cell_put_eq|].
  rewrite cell_put_ne by lia.
  destruct (Nat.eq_dec j (k + 1)) as [->|H1]; [apply cell_put_eq|].
  rewrite cell_put_ne by lia.
  replace j with k by lia. apply cell_put_eq.
Qed.

Lemma cell_put3_out d k n j : j < k \/ k + 3 <= j -> cell (put3 d k n) j = cell d j.
Proof.
  intros Hj. unfold put3. now rewrite !cell_put_ne by lia.
Qed.

Lemma data_length_put3 d k n :
  data_length (put3 d k n) = Nat.max (data_length d) (k + 3).
Proof. unfold put3. rewrite !data_length_put. lia. Qed.

(** ** The run-length loop of getLines *)

Lemma eq_opt_bool_spec a b : eq_opt_bool a b = true <-> a = b.
Proof.
  destruct a as [[]|], b as [[]|]; simpl; split; congruence.
Qed.

Section RunLengths.
Variable bmp : list bool.
Variable n : nat.
Hypothesis bmp_length : length bmp = S n.

Local Abbreviation width := (Z.of_nat (S n)).

Lemma rle_prefix_S k :
  rle_prefix bmp width (S k) = rle_step bmp width (rle_prefix bmp width k) k.
Proof. unfold rle_prefix. now rewrite seq_S, foldl_snoc. Qed.

(** Before the last column the current run is still open: the runs
    emitted so far and the open counter add up to one more than the
    number of columns read. *)
Lemma rle_prefix_open k :
  k <= n ->
  sum_list (lines (rle_prefix bmp width k)) + count (rle_prefix bmp width k)
  = S k
  /\ curr (rle_prefix bmp width k) = bmp !! (k - 1).
Proof.
  induction k as [|k IH]; intros Hk.
  - now simpl.
  - destruct IH as [IHs IHc]; [lia|].
    rewrite rle_prefix_S. unfold rle_step.
    replace (S k - 1) with k by lia.
    destruct (eq_opt_bool (bmp !! k) (curr (rle_prefix bmp width k))) eqn:E;
      simpl.
    + apply eq_opt_bool_spec in E.
      destruct (Z.eqb_spec (Z.of_nat k) (width - 1)) as [Hw|_]; [lia|].
      split; [lia | congruence].
    + rewrite sum_list_with_app. simpl. split; [lia | reflexivity].
Qed.

(** The emitted runs add up to [width + 1], or to [width] when the
    last column starts a run of its own (which is then never
    emitted). *)
Lemma runLengths_sum :
  sum_list (runLengths bmp width) =
  if last_column_turns bmp then S n else S (S n).
Proof.
  unfold runLengths. rewrite Nat2Z.id.
  change (foldl _ _ (seq 0 (S n))) with (rle_prefix bmp width (S n)).
  destruct (rle_prefix_open n) as [Hs Hc]; [lia|].
  rewrite rle_prefix_S. unfold rle_step, last_column_turns.
  rewrite bmp_length.
  replace (S n - 1) with n by lia. replace (S n - 2) with (n - 1) by lia.
  rewrite Hc.
  destruct (eq_opt_bool (bmp !! n) (bmp !! (n - 1))) eqn:E; simpl.
  - destruct (Z.eqb_spec (Z.of_nat n) (width - 1)) as [_|Hw]; [|lia].
    rewrite sum_list_with_app. simpl. lia.
  - rewrite sum_list_with_app. simpl. lia.
Qed.
End RunLengths.

(** A row of columns of one colour comes out as a single run that is
    one column too long. *)
Lemma runLengths_uniform (b : bool) (n : nat) :
  runLengths (replicate (S n) b) (Z.of_nat (S n)) = [S (S n)].
Proof.
  unfold runLengths. rewrite Nat2Z.id.
  assert (Hk : forall k, k <= n ->
    foldl (rle_step (replicate (S n) b) (Z.of_nat (S n)))
      {| curr := Some b; count := 1; lines := [] |} (seq 0 k)
    = {| curr := Some b; count := S k; lines := [] |}).
  { induction k as [|k IH]; intros Hk; [reflexivity|].
    rewrite seq_S, foldl_snoc, IH by lia. unfold rle_step. simpl curr.
    rewrite lookup_replicate_2 by lia. simpl. rewrite Bool.eqb_reflx.
    destruct (Z.eqb_spec (Z.of_nat k) (Z.of_nat (S n) - 1)); [lia|reflexivity]. }
  change (replicate (S n) b !! 0) with (Some b).
  rewrite seq_S, foldl_snoc, Hk by lia. unfold rle_step. simpl curr.
  rewrite lookup_replicate_2 by lia. simpl. rewrite Bool.eqb_reflx.
  destruct (Z.eqb_spec (Z.of_nat n) (Z.of_nat (S n) - 1)); [reflexivity|lia].
Qed.

(** C1 (code defect).  The run-length loop seeds its counter with 1 and
    then counts column 0 again, so the first run is emitted one column
    too long: for the all-black 2x2 RGBA image the result is the single
    run 3, not 2, and the emitted runs add up to 3 although the image is
    2 columns wide; in general columns of one colour come out as the
    single run [width + 1]. *)
Theorem getLines_first_run_one_too_long :
  let black := of_bytes (repeat 0%Z 16) in
  getLines black 2 2 = Returned [3]
  /\ runLengths (bmp (scan black (js_channels black 2 2) 2 2)) 2 = [3]
  /\ sum_list (runLengths (bmp (scan black (js_channels black 2 2) 2 2)) 2) <> 2
  /\ forall (b : bool) (n : nat),
       runLengths (replicate (S n) b) (Z.of_nat (S n)) = [S (S n)].
Proof.
  split; [reflexivity|]. split; [reflexivity|]. split; [discriminate|].
  apply runLengths_uniform.
Qed.

(** ** combineAllPossible *)

Section Sorting.
Local Open Scope Z_scope.

Lemma sort_insert_perm x l :
  Permutation (x :: l) (sort_insert by_length_desc x l).
Proof.
  induction l as [|y l IH]; simpl; [reflexivity|].
  destruct (by_length_desc x y <=? 0); [reflexivity|].
  rewrite perm_swap. now constructor.
Qed.

Lemma js_sort_perm l : Permutation l (js_sort by_length_desc l).
Proof.
  induction l as [|x l IH]; simpl; [reflexivity|].
  rewrite <- sort_insert_perm. now constructor.
Qed.

Lemma sort_insert_sorted x l :
  StronglySorted longer_first l ->
  StronglySorted longer_first (sort_insert by_length_desc x l).
Proof.
  induction 1 as [|y l Hs IH Hy]; simpl.
  - repeat constructor.
  - unfold by_length_desc at 1.
    destruct (Z.leb_spec (Z.of_nat (String.length y) - Z.of_nat (String.length x)) 0)
      as [Hle|Hgt].
    + constructor; [now constructor|].
      constructor; [unfold longer_first; lia|].
      eapply Forall_impl; [exact Hy|]. unfold longer_first. simpl. lia.
    + constructor; [exact IH|].
      rewrite <- sort_insert_perm. constructor; [unfold longer_first; lia|exact Hy].
Qed.

Lemma js_sort_sorted l : StronglySorted longer_first (js_sort by_length_desc l).
Proof.
  induction l as [|x l IH]; simpl; [constructor|].
  now apply sort_insert_sorted.
Qed.

(** Stability: candidates of one length keep their relative order. *)
Lemma sort_insert_stable n x l :
  List.filter (has_length n) (sort_insert by_length_desc x l)
  = List.filter (has_length n) (x :: l).
Proof.
  induction l as [|y l IH]; simpl; [reflexivity|].
  unfold by_length_desc at 1.
  destruct (Z.leb_spec (Z.of_nat (String.length y) - Z.of_nat (String.length x)) 0)
    as [Hle|Hgt]; [reflexivity|].
  simpl. rewrite IH. simpl. unfold has_length.
  destruct (Nat.eqb_spec (String.length x) n), (Nat.eqb_spec (String.length y) n);
    try reflexivity; lia.
Qed.

Lemma js_sort_stable n l :
  List.filter (has_length n) (js_sort by_length_desc l) = List.filter (has_length n) l.
Proof.
  induction l as [|x l IH]; simpl; [reflexivity|].
  rewrite sort_insert_stable. simpl. now rewrite IH.
Qed.

Lemma js_sort_sorted_id l :
  StronglySorted longer_first l -> js_sort by_length_desc l = l.
Proof.
  induction 1 as [|x l Hs IH Hx]; simpl; [reflexivity|].
  rewrite IH. destruct l as [|y l]; simpl; [reflexivity|].
  inversion Hx as [|? ? Hxy _]; subst. unfold by_length_desc, longer_first in *.
  destruct (Z.leb_spec (Z.of_nat (String.length y) - Z.of_nat (String.length x)) 0);
    [reflexivity|lia].
Qed.

Lemma same_length_sorted n l :
  Forall (fun s => String.length s = n) l -> StronglySorted longer_first l.
Proof.
  induction 1 as [|x l Hx Hl IH]; constructor; [exact IH|].
  eapply Forall_impl; [exact Hl|]. unfold longer_first. simpl. intros; lia.
Qed.
End Sorting.

(** *** The merge on dense results *)

Lemma merge_chars_nil_r f : merge_chars f [] = f.
Proof. now destruct f. Qed.

Lemma merge_chars_length f cs :
  length (merge_chars f cs) = Nat.max (length f) (length cs).
Proof.
  revert cs. induction f as [|s f IH]; intros [|c cs]; simpl; try lia.
  now rewrite IH.
Qed.

Lemma merge_chars_self f : merge_chars f f = f.
Proof.
  induction f as [|s f IH]; simpl; [reflexivity|].
  rewrite IH. now destruct (Ascii.eqb s question).
Qed.

Lemma keep_char c : (if Ascii.eqb c question then question else c) = c.
Proof. destruct (Ascii.eqb_spec c question); congruence. Qed.

Lemma place_dense pre suf c :
  place (map Some (pre ++ suf)) (length pre) c
  = map Some (pre ++ merge_chars suf [c]).
Proof.
  unfold place, arr_get. rewrite keep_char, list_lookup_fmap, lookup_app_r by lia.
  rewrite Nat.sub_diag. destruct suf as [|s suf]; simpl.
  - unfold arr_set. rewrite length_map, length_app, Nat.add_0_r, Nat.ltb_irrefl.
    rewrite Nat.sub_diag. simpl. now rewrite app_nil_r, map_app.
  - rewrite merge_chars_nil_r.
    destruct (Ascii.eqb s question); [|reflexivity].
    unfold arr_set. rewrite length_map, length_app. simpl.
    destruct (Nat.ltb_spec (length pre) (length pre + S (length suf))); [|lia].
    rewrite !map_app. simpl.
    rewrite insert_app_r_alt by (rewrite length_map; lia).
    rewrite length_map, Nat.sub_diag. reflexivity.
Qed.

Lemma place_all_dense cs : forall pre suf,
  place_all (map Some (pre ++ suf)) (length pre) cs
  = map Some (pre ++ merge_chars suf cs).
Proof.
  induction cs as [|c cs IH]; intros pre suf; simpl.
  - now rewrite merge_chars_nil_r.
  - rewrite place_dense.
    destruct suf as [|s suf]; simpl.
    + specialize (IH (pre ++ [c]) []). rewrite app_nil_r in IH.
      rewrite length_app, Nat.add_1_r in IH. rewrite IH.
      rewrite <- app_assoc. simpl. now destruct cs.
    + rewrite merge_chars_nil_r.
      specialize (IH (pre ++ [if Ascii.eqb s question then c else s]) suf).
      rewrite length_app, Nat.add_1_r, <- app_assoc in IH. simpl in IH.
      now rewrite IH, <- app_assoc.
Qed.

Lemma string_length_chars s : String.length s = length (chars s).
Proof. induction s as [|c s IH]; simpl; congruence. Qed.

Lemma get_chars s : forall i, String.get i s = nth_error (chars s) i.
Proof.
  induction s as [|c s IH]; intros [|i]; simpl; try reflexivity. apply IH.
Qed.

Lemma join_dense l : join (map Some l) = string_of_list_ascii l.
Proof. induction l as [|c l IH]; simpl; congruence. Qed.

Lemma chars_string_of_list l : chars (string_of_list_ascii l) = l.
Proof. apply list_ascii_of_string_of_list_ascii. Qed.

(** A step on a dense result, for a candidate that is consulted. *)
Lemma merge_step_dense f m r :
  m = 0 \/ String.length r = m ->
  merge_step {| finalResult := map Some f; maxLength := m |} r
  = {| finalResult := map Some (merge_chars f (chars r));
       maxLength := String.length r |}.
Proof.
  intros Hm. unfold merge_step. simpl.
  replace ((m =? 0) || (String.length r =? m))%bool with true.
  - f_equal. apply (place_all_dense (list_ascii_of_string r) [] f).
  - symmetry. apply orb_true_iff. rewrite !Nat.eqb_eq. tauto.
Qed.

(** A candidate of another length than a non-zero [maxLength] is
    skipped. *)
Lemma merge_step_skip st r :
  maxLength st <> 0 -> String.length r <> maxLength st -> merge_step st r = st.
Proof.
  intros H0 Hr. unfold merge_step.
  destruct (Nat.eqb_spec (maxLength st) 0); [tauto|].
  destruct (Nat.eqb_spec (String.length r) (maxLength st)); [tauto|reflexivity].
Qed.

(** Candidates of one length are all consulted, in order. *)
Lemma merge_same_length n rs : forall f m,
  Forall (fun s => String.length s = n) rs ->
  m = 0 \/ m = n ->
  exists m',
    foldl merge_step {| finalResult := map Some f; maxLength := m |} rs
    = {| finalResult := map Some (foldl merge_chars f (map chars rs));
         maxLength := m' |}
    /\ (m' = 0 \/ m' = n).
Proof.
  induction rs as [|r rs IH]; intros f m Hall Hm; simpl.
  - now exists m.
  - inversion Hall as [|? ? Hr Hrs]; subst.
    rewrite merge_step_dense by (destruct Hm; [left|right]; congruence).
    apply IH; [exact Hrs | now right].
Qed.

(** Once [maxLength] is non-zero, only candidates of that length are
    consulted. *)
Lemma merge_skips_other_lengths rs : forall st,
  maxLength st <> 0 ->
  foldl merge_step st rs
  = foldl merge_step st (List.filter (has_length (maxLength st)) rs).
Proof.
  induction rs as [|r rs IH]; intros st Hst; simpl; [reflexivity|].
  unfold has_length at 1.
  destruct (Nat.eqb_spec (String.length r) (maxLength st)) as [Hr|Hr]; simpl.
  - assert (Hm : maxLength (merge_step st r) = maxLength st).
    { unfold merge_step. rewrite <- Hr, Nat.eqb_refl, orb_true_r. reflexivity. }
    rewrite <- Hm. apply IH. now rewrite Hm.
  - rewrite merge_step_skip by assumption. now apply IH.
Qed.

(** On a list in order of non-increasing length the merge consults
    exactly the candidates that are as long as the first one. *)
Lemma merge_sorted r rs :
  StronglySorted longer_first (r :: rs) ->
  foldl merge_step merge_init (r :: rs)
  = foldl merge_step merge_init
      (List.filter (has_length (String.length r)) (r :: rs)).
Proof.
  intros Hs. apply StronglySorted_inv in Hs as [_ Hr].
  cbn [List.filter]. unfold has_length at 1. rewrite Nat.eqb_refl.
  cbn [foldl].
  assert (Hm : maxLength (merge_step merge_init r) = String.length r)
    by reflexivity.
  destruct (Nat.eq_dec (String.length r) 0) as [H0|H0].
  - f_equal. symmetry. apply forallb_filter_id. apply forallb_forall.
    apply List.Forall_forall. eapply Forall_impl; [exact Hr|].
    unfold longer_first, has_length. intros s Hsr. apply Nat.eqb_eq. lia.
  - rewrite (merge_skips_other_lengths rs (merge_step merge_init r))
      by (rewrite Hm; exact H0).
    now rewrite Hm.
Qed.

Lemma max_length_perm l l' : Permutation l l' -> max_length l = max_length l'.
Proof.
  unfold max_length.
  induction 1; simpl; try lia.
Qed.

Lemma max_length_sorted r rs :
  StronglySorted longer_first (r :: rs) -> max_length (r :: rs) = String.length r.
Proof.
  intros Hs. apply StronglySorted_inv in Hs as [_ Hr].
  unfold max_length. simpl.
  enough (foldr Nat.max 0 (map String.length rs) <= String.length r) by lia.
  induction Hr as [|s rs Hs Hrs IH]; simpl; [lia|].
  unfold longer_first in Hs. lia.
Qed.

Lemma max_length_same n l :
  Forall (fun s => String.length s = n) l -> l <> [] -> max_length l = n.
Proof.
  unfold max_length.
  induction 1 as [|s l Hs Hl IH]; intros Hne; [congruence|]. simpl.
  destruct l as [|s' l]; simpl in *; [lia|].
  rewrite IH by congruence. lia.
Qed.

(** The merge of a collection is the merge of its longest candidates,
    taken in their original order. *)
Lemma merge_sort_longest l :
  foldl merge_step merge_init (js_sort by_length_desc l)
  = foldl merge_step merge_init (List.filter (has_length (max_length l)) l).
Proof.
  pose proof (js_sort_sorted l) as Hs.
  pose proof (js_sort_perm l) as Hp.
  destruct (js_sort by_length_desc l) as [|r rs] eqn:E.
  - apply Permutation_nil_r in Hp. now subst.
  - rewrite merge_sorted by exact Hs.
    rewrite (max_length_perm _ _ Hp), (max_length_sorted _ _ Hs).
    now rewrite <- E, js_sort_stable.
Qed.

Lemma filter_has_length n l :
  Forall (fun s => String.length s = n) (List.filter (has_length n) l).
Proof.
  apply List.Forall_forall. intros s Hs. apply filter_In in Hs as [_ Hs].
  now apply Nat.eqb_eq in Hs.
Qed.

Lemma longest_nonempty l :
  l <> [] -> List.filter (has_length (max_length l)) l <> [].
Proof.
  intros Hne.
  assert (Hex : exists s, In s l /\ String.length s = max_length l).
  { induction l as [|s l IH]; [congruence|].
    destruct l as [|s' l].
    - exists s. split; [now left|]. unfold max_length. simpl. lia.
    - destruct IH as (x & Hx & Hlx); [congruence|].
      change (max_length (s :: s' :: l))
        with (Nat.max (String.length s) (max_length (s' :: l))).
      destruct (Nat.max_spec (String.length s) (max_length (s' :: l)))
        as [[_ ->]|[_ ->]].
      + exists x. split; [now right|exact Hlx].
      + exists s. split; [now left|reflexivity]. }
  destruct Hex as (s & Hin & Hlen). intros Hnil.
  assert (Hs : In s (List.filter (has_length (max_length l)) l)).
  { apply filter_In. split; [exact Hin|]. now apply Nat.eqb_eq. }
  rewrite Hnil in Hs. exact Hs.
Qed.

Lemma merge_chars_fold_length n css : forall f,
  Forall (fun cs => length cs = n) css -> length f = n ∨ (f = [] ∧ css <> []) ->
  length (foldl merge_chars f css) = n.
Proof.
  induction css as [|cs css IH]; intros f Hall Hf; simpl.
  - destruct Hf as [Hf|[_ Hf]]; [exact Hf|congruence].
  - inversion Hall as [|? ? Hcs Hcss]; subst. apply IH; [exact Hcss|].
    left. rewrite merge_chars_length. destruct Hf as [Hf|[-> _]]; simpl; lia.
Qed.

(** Position by position: what is there stays unless it is ["?"], and
    a ["?"] is replaced by the first definite character that follows. *)
Lemma merge_chars_fold_nth i rs : forall f c,
  Forall (fun s => String.length s = length f) rs ->
  nth_error f i = Some c ->
  nth_error (foldl merge_chars f (map chars rs)) i
  = Some (if Ascii.eqb c question then first_definite i rs else c).
Proof.
  induction rs as [|r rs IH]; intros f c Hall Hc; simpl.
  - rewrite Hc. destruct (Ascii.eqb_spec c question); congruence.
  - inversion Hall as [|? ? Hr Hrs]; subst.
    assert (Hi : i < length f) by (apply nth_error_Some; congruence).
    assert (Hm : nth_error (merge_chars f (chars r)) i
                 = Some (if Ascii.eqb c question
                         then match String.get i r with
                              | Some c' => c' | None => question end
                         else c)).
    { rewrite get_chars. rewrite string_length_chars in Hr.
      clear IH Hall Hrs Hi. revert i Hc Hr. generalize (chars r) as cs.
      induction f as [|s f IHf]; intros cs [|i] Hc Hr; simpl in *;
        try discriminate.
      - destruct cs as [|c' cs]; [discriminate|]. simpl.
        injection Hc as ->. reflexivity.
      - destruct cs as [|c' cs]; [discriminate|]. simpl.
        apply IHf; [exact Hc|]. simpl in Hr. lia. }
    assert (Hlen : length (merge_chars f (chars r)) = length f)
      by (rewrite merge_chars_length, <- string_length_chars, Hr; lia).
    rewrite (IH _ _) with (2 := Hm) by (now rewrite Hlen).
    rewrite get_chars in *.
    destruct (Ascii.eqb_spec c question) as [->|Hq].
    + destruct (nth_error (chars r) i) as [c'|] eqn:E; [reflexivity|].
      rewrite Ascii.eqb_refl. reflexivity.
    + destruct (Ascii.eqb_spec c question); [contradiction|reflexivity].
Qed.

(** The merged string of a collection whose candidates all have one
    length. *)
Lemma combine_same_length r rs :
  Forall (fun s => String.length s = String.length r) rs ->
  fst (combineAllPossible (r :: rs))
  = string_of_list_ascii (foldl merge_chars (chars r) (map chars rs)).
Proof.
  intros Hall. unfold combineAllPossible. cbn [fst].
  rewrite js_sort_sorted_id
    by (apply (same_length_sorted (String.length r)); now constructor).
  destruct (merge_same_length (String.length r) (r :: rs) [] 0) as (m & Hm & _);
    [now constructor | now left |].
  change (map Some []) with (@nil (option ascii)) in Hm. rewrite Hm.
  cbn [finalResult]. rewrite join_dense. reflexivity.
Qed.

(** C7.  The merged string is as long as the longest candidate, it is
    the merge of the candidates of maximal length alone (shorter ones
    contribute nothing), the empty collection merges to the empty
    string, and "12" with "123" gives "123". *)
Theorem combineAllPossible_longest_only (results : list string) :
  String.length (fst (combineAllPossible results)) = max_length results
  /\ fst (combineAllPossible results)
     = fst (combineAllPossible
              (List.filter (has_length (max_length results)) results))
  /\ fst (combineAllPossible []) = ""%string
  /\ fst (combineAllPossible ["12"; "123"]%string) = "123"%string.
Proof.
  assert (Hfilter : fst (combineAllPossible results)
     = fst (combineAllPossible
              (List.filter (has_length (max_length results)) results))).
  { unfold combineAllPossible. cbn [fst]. fold merge_init.
    rewrite merge_sort_longest.
    rewrite (js_sort_sorted_id (List.filter _ _))
      by (eapply same_length_sorted, filter_has_length).
    reflexivity. }
  repeat split; try reflexivity; [|exact Hfilter].
  rewrite Hfilter.
  destruct results as [|r0 rs0]; [reflexivity|].
  pose proof (longest_nonempty (r0 :: rs0)) as Hne.
  pose proof (filter_has_length (max_length (r0 :: rs0)) (r0 :: rs0)) as Hall.
  destruct (List.filter _ (r0 :: rs0)) as [|r rs]; [now destruct Hne|].
  inversion Hall as [|? ? Hr Hrs]; subst.
  rewrite combine_same_length by (now rewrite Hr).
  rewrite string_length_chars, chars_string_of_list.
  apply merge_chars_fold_length.
  - apply Forall_fmap. eapply Forall_impl; [exact Hrs|].
    intros s Hs. simpl. now rewrite <- string_length_chars.
  - left. now rewrite <- string_length_chars.
Qed.

(** C8.  For candidates of one length: the merged string has that
    length; a definite character of the first candidate stays; every
    position holds the first definite character the candidates have
    there, in their order (so a "?" never replaces a definite character
    and a later candidate fills a position earlier ones left as "?"),
    or "?" when no candidate has one; merging a candidate with itself
    gives it back; and "1?3" with "123" gives "123". *)
Theorem combineAllPossible_equal_length (r : string) (rs : list string)
    (Hsame : Forall (fun s => String.length s = String.length r) rs) :
  let merged := fst (combineAllPossible (r :: rs)) in
  String.length merged = String.length r
  /\ (forall i c, String.get i r = Some c -> c <> question ->
        String.get i merged = Some c)
  /\ (forall i, i < String.length r ->
        String.get i merged = Some (first_definite i (r :: rs)))
  /\ fst (combineAllPossible [r; r]) = r
  /\ fst (combineAllPossible [r]) = r
  /\ fst (combineAllPossible ["1?3"; "123"]%string) = "123"%string.
Proof.
  intros merged. subst merged. rewrite combine_same_length by exact Hsame.
  assert (Hnth : forall i c, String.get i r = Some c ->
    String.get i (string_of_list_ascii (foldl merge_chars (chars r) (map chars rs)))
    = Some (if Ascii.eqb c question then first_definite i rs else c)).
  { intros i c Hc. rewrite get_chars, chars_string_of_list.
    apply merge_chars_fold_nth.
    - now rewrite <- string_length_chars.
    - now rewrite <- get_chars. }
  repeat split.
  - rewrite string_length_chars, chars_string_of_list.
    apply merge_chars_fold_length.
    + apply Forall_fmap. eapply Forall_impl; [exact Hsame|].
      intros s Hs. simpl. now rewrite <- string_length_chars.
    + left. now rewrite <- string_length_chars.
  - intros i c Hc Hq. rewrite (Hnth _ _ Hc).
    destruct (Ascii.eqb_spec c question); [contradiction|reflexivity].
  - intros i Hi.
    destruct (String.get i r) as [c|] eqn:Hc.
    + rewrite (Hnth _ _ Hc). simpl. now rewrite Hc.
    + rewrite get_chars in Hc. apply nth_error_None in Hc.
      rewrite <- string_length_chars in Hc. lia.
  - rewrite combine_same_length by (now constructor).
    simpl. rewrite merge_chars_self. apply string_of_list_ascii_of_string.
  - rewrite combine_same_length by constructor.
    simpl. apply string_of_list_ascii_of_string.
Qed.

Lemma combineAllPossible_equal_length_witness :
  let merged := fst (combineAllPossible ["1?3"; "123"]%string) in
  String.length merged = 3
  /\ (forall i c, String.get i "1?3" = Some c -> c <> question ->
        String.get i merged = Some c)
  /\ (forall i, i < 3 ->
        String.get i merged = Some (first_definite i ["1?3"; "123"]%string))
  /\ fst (combineAllPossible ["1?3"; "1?3"]%string) = "1?3"%string
  /\ fst (combineAllPossible ["1?3"]%string) = "1?3"%string
  /\ fst (combineAllPossible ["1?3"; "123"]%string) = "123"%string.
Proof.
  apply (combineAllPossible_equal_length "1?3" ["123"%string]).
  repeat constructor.
Defined.

(** C9, as the code has it.  [combineAllPossible] sorts the caller's
    collection in place: after the call it holds the same candidates in
    order of non-increasing length, candidates of one length in their
    original relative order. *)
Theorem combineAllPossible_sorts_input (results : list string) :
  let after := snd (combineAllPossible results) in
  Permutation results after
  /\ StronglySorted longer_first after
  /\ (forall n, List.filter (has_length n) after
                = List.filter (has_length n) results).
Proof.
  cbn. split; [apply js_sort_perm|].
  split; [apply js_sort_sorted|]. intros n. apply js_sort_stable.
Qed.

(** C9 fails as stated: a collection that is not already in order of
    non-increasing length comes back reordered. *)
Lemma combineAllPossible_reorders_input :
  snd (combineAllPossible ["12"; "123"]%string) = ["123"; "12"]%string
  /\ snd (combineAllPossible ["12"; "123"]%string) <> ["12"; "123"]%string.
Proof. split; [reflexivity|discriminate]. Qed.

(** A collection already in that order is left as it is. *)
Lemma combineAllPossible_keeps_sorted_input (results : list string) :
  StronglySorted longer_first results ->
  snd (combineAllPossible results) = results.
Proof. intros Hs. cbn. now apply js_sort_sorted_id. Qed.

(** ** isUrl *)

(** The left operand of the disjunction: a boolean is never strictly
    equal to a string. *)
Lemma isUrl_left_disjunct (s : string) :
  strict_equal (js_not (char_at s 0)) (JString "#") = false.
Proof. reflexivity. Qed.

(** C10.  [isUrl] is the regular-expression test: its left disjunct is
    false for every string, the empty one included. *)
Theorem isUrl_is_regexp_test (s : string) :
  isUrl s = test regexp s
  /\ strict_equal (js_not (char_at s 0)) (JString "#") = false.
Proof. split; reflexivity. Qed.

(** ** Numbers: comparisons and equality up to representation *)

Lemma Qlt_bool_iff x y : Qlt_bool x y = true <-> (x < y)%Q.
Proof. unfold Qlt_bool, Qlt. apply Z.ltb_lt. Qed.

Lemma lt_key x k n : is_key x k -> lt x (of_nat n) = (k <? n).
Proof.
  destruct x as [q| | |]; simpl; try tauto. intros Hq.
  destruct (Nat.ltb_spec k n) as [Hlt|Hge].
  - apply Qlt_bool_iff. rewrite Hq, <- Zlt_Qlt. lia.
  - apply not_true_is_false. rewrite Qlt_bool_iff, Hq, <- Zlt_Qlt. lia.
Qed.

Lemma of_nat_key k : is_key (of_Z (Z.of_nat k)) k.
Proof. apply is_key_of_nat. Qed.

(** ** Pixel buffers *)

Lemma channels_key data W H c :
  buffer_shape data W H c ->
  is_key (js_channels data (Z.of_nat W) (Z.of_nat H)) c.
Proof.
  intros [HW HH Hlen]. unfold js_channels.
  destruct (Z.eqb_spec (Z.of_nat W * Z.of_nat H) 0) as [E|E]; [nia|].
  simpl. rewrite Hlen, <- Nat2Z.inj_mul, Nat2Z.inj_mul, inject_Z_mult.
  field. intros Hz. apply E. rewrite <- Nat2Z.inj_mul.
  apply (proj1 (inject_Z_injective _ 0)). exact Hz.
Qed.

Lemma binary_threshold127 v : binary (Num (threshold127 v)).
Proof. unfold threshold127, binary. destruct (v > of_Z 127)%js; tauto. Qed.

Lemma binary_put3 d k v x :
  binary (Num v) -> binary (cell d x) -> binary (cell (put3 d k v) x).
Proof.
  intros Hv Hx.
  destruct (Nat.lt_ge_cases x k) as [H1|H1].
  - now rewrite cell_put3_out by lia.
  - destruct (Nat.lt_ge_cases x (k + 3)) as [H2|H2].
    + now rewrite cell_put3_in by lia.
    + now rewrite cell_put3_out by lia.
Qed.

(** ** applySimpleThreshold *)

Lemma simple_body_key d x k :
  is_key x k -> simple_body d x = put3 d k (threshold127 (mean_at d k)).
Proof.
  intros Hk. unfold simple_body.
  rewrite (mean3_key _ _ k Hk), (set3_key _ _ k _ Hk). reflexivity.
Qed.

Section SimpleLoop.
Variable c : nat.
Variable channels : number.
Hypothesis channels_c : is_key channels c.

(** Whatever the stride, a run that ends has gone through the whole
    array and leaves 0 or 255 in every cell it wrote. *)
Lemma simple_loop_binary fuel : forall m x d out,
  is_key x (m * c) ->
  (forall p j, p < m -> j < 3 -> binary (cell d (p * c + j))) ->
  simple_loop fuel channels x d = Some out ->
  data_length d <= data_length out
  /\ exists m', data_length out <= m' * c
     /\ forall p j, p < m' -> j < 3 -> binary (cell out (p * c + j)).
Proof.
  induction fuel as [|fuel IH]; intros m x d out Hx Hbin; simpl;
    rewrite (lt_key _ _ _ Hx);
    destruct (Nat.ltb_spec (m * c) (data_length d)) as [Hlt|Hge];
    try discriminate;
    try (intros [= <-]; split; [lia|]; exists m; split; [lia|exact Hbin]).
  intros Hrun. rewrite (simple_body_key _ _ _ Hx) in Hrun.
  apply (IH (S m)) in Hrun.
  - rewrite data_length_put3 in Hrun. destruct Hrun as [Hlen Hout].
    split; [lia|exact Hout].
  - replace (S m * c) with (m * c + c) by lia. now apply is_key_add.
  - intros p j Hp Hj. destruct (Nat.eq_dec p m) as [->|Hne].
    + rewrite cell_put3_in by lia. apply binary_threshold127.
    + apply binary_put3; [apply binary_threshold127|].
      apply Hbin; [lia|exact Hj].
Qed.

(** With at least three values per pixel the loop ends after one
    iteration per pixel, having thresholded every pixel on its own
    original values and left the other values alone. *)
Lemma simple_loop_pixels N (c3 : 3 <= c) n : forall m x d fuel,
  m + n = N ->
  n <= fuel ->
  is_key x (m * c) ->
  data_length d = c * N ->
  exists out,
    simple_loop fuel channels x d = Some out
    /\ data_length out = c * N
    /\ forall p j, p < N -> j < c ->
         cell out (p * c + j)
         = if ((m <=? p) && (j <? 3))%bool
           then Num (threshold127 (mean_at d (p * c)))
           else cell d (p * c + j).
Proof.
  induction n as [|n IH]; intros m x d fuel Hmn Hfuel Hx Hlen.
  - exists d. assert (m = N) by lia. subst m.
    split; [|split; [exact Hlen|]].
    + destruct fuel; simpl; rewrite (lt_key _ _ _ Hx), Hlen;
        destruct (Nat.ltb_spec (N * c) (c * N)); (reflexivity || lia).
    + intros p j Hp Hj. destruct (Nat.leb_spec N p); [lia|reflexivity].
  - destruct fuel as [|fuel]; [lia|]. simpl.
    rewrite (lt_key _ _ _ Hx), Hlen.
    destruct (Nat.ltb_spec (m * c) (c * N)) as [_|Hge]; [|nia].
    rewrite (simple_body_key _ _ _ Hx).
    destruct (IH (S m) (x + channels)%js
                (put3 d (m * c) (threshold127 (mean_at d (m * c)))) fuel)
      as (out & Hrun & Hlen' & Hcells); try lia.
    + replace (S m * c) with (m * c + c) by lia. now apply is_key_add.
    + rewrite data_length_put3, Hlen. nia.
    + exists out. split; [exact Hrun|]. split; [exact Hlen'|].
      intros p j Hp Hj. rewrite (Hcells p j Hp Hj).
      destruct (Nat.leb_spec (S m) p) as [Hp1|Hp1];
        destruct (Nat.leb_spec m p) as [Hp2|Hp2]; try lia;
        destruct (Nat.ltb_spec j 3) as [Hj3|Hj3]; simpl.
      * unfold mean_at. rewrite !cell_put3_out by nia. reflexivity.
      * rewrite cell_put3_out by nia. reflexivity.
      * assert (p = m) by lia. subst p. apply cell_put3_in. lia.
      * assert (p = m) by lia. subst p. apply cell_put3_out. lia.
      * apply cell_put3_out. nia.
      * apply cell_put3_out. nia.
Qed.
(** With one or two values per pixel the writes at [i + 1] and [i + 2]
    keep the array longer than the loop index: the loop never ends. *)
Lemma simple_loop_diverges (c12 : c <= 2) fuel : forall m x d,
  is_key x (m * c) ->
  m * c < data_length d ->
  simple_loop fuel channels x d = None.
Proof.
  induction fuel as [|fuel IH]; intros m x d Hx Hlt; simpl;
    rewrite (lt_key _ _ _ Hx);
    destruct (Nat.ltb_spec (m * c) (data_length d)); try lia;
    [reflexivity|].
  rewrite (simple_body_key _ _ _ Hx). apply (IH (S m)).
  - replace (S m * c) with (m * c + c) by lia. now apply is_key_add.
  - rewrite data_length_put3. lia.
Qed.
End SimpleLoop.

(** C4, as the code has it.  With at least three values per pixel the
    simple threshold ends and writes 255 into the first three channels
    of a pixel when their mean is greater than 127, and 0 otherwise (so
    also for a mean of exactly 127); the pixel's other channels keep
    their values. *)
Theorem applySimpleThreshold_strict (data : jsarray) (W H c fuel p : nat)
    (r g b : Q)
    (Hshape : buffer_shape data W H c) (Hc : 3 <= c)
    (Hfuel : W * H <= fuel) (Hp : p < W * H)
    (Hr : cell data (p * c) = Num (Fin r))
    (Hg : cell data (p * c + 1) = Num (Fin g))
    (Hb : cell data (p * c + 2) = Num (Fin b)) :
  exists out,
    applySimpleThreshold fuel data (Z.of_nat W) (Z.of_nat H) = Some out
    /\ (forall j, j < 3 ->
          cell out (p * c + j)
          = Num (of_Z (if Qlt_le_dec 127 ((r + g + b) / 3) then 255 else 0)))
    /\ (forall j, 3 <= j < c -> cell out (p * c + j) = cell data (p * c + j)).
Proof.
  destruct (simple_loop_pixels c _ (channels_key _ _ _ _ Hshape) (W * H) Hc
              (W * H) 0 (of_Z 0) data fuel)
    as (out & Hrun & _ & Hcells); try lia.
  - apply (is_key_of_nat 0).
  - apply Hshape.
  - exists out. split; [exact Hrun|]. split.
    + intros j Hj. rewrite (Hcells p j) by lia.
      destruct (Nat.ltb_spec j 3); [|lia]. simpl. f_equal.
      unfold mean_at. rewrite Hr, Hg, Hb. simpl to_number.
      unfold threshold127, gt, three, of_Z. simpl.
      change (inject_Z 127) with 127%Q. change (inject_Z 3) with 3%Q.
      destruct (Qlt_le_dec 127 ((r + g + b) / 3)) as [Hlt|Hle].
      * apply Qlt_bool_iff in Hlt. now rewrite Hlt.
      * apply Qle_not_lt in Hle. rewrite <- Qlt_bool_iff in Hle.
        now apply not_true_is_false in Hle as ->.
    + intros j Hj. rewrite (Hcells p j) by lia.
      destruct (Nat.ltb_spec j 3); [lia|]. now rewrite andb_false_r.
Qed.

Lemma applySimpleThreshold_strict_witness :
  exists out,
    applySimpleThreshold 2
      (of_bytes [127; 127; 127; 255; 127; 128; 127; 9]%Z) 2 1 = Some out
    /\ (forall j, j < 3 ->
          cell out (1 * 4 + j)
          = Num (of_Z (if Qlt_le_dec 127 ((127 + 128 + 127) / 3)
                       then 255 else 0)))
    /\ (forall j, 3 <= j < 4 ->
          cell out (1 * 4 + j)
          = cell (of_bytes [127; 127; 127; 255; 127; 128; 127; 9]%Z) (1 * 4 + j)).
Proof.
  apply (applySimpleThreshold_strict
           (of_bytes [127; 127; 127; 255; 127; 128; 127; 9]%Z) 2 1 4 2 1
           127 128 127).
  - split; [lia | lia | reflexivity].
  - lia.
  - simpl; lia.
  - simpl; lia.
  - reflexivity.
  - reflexivity.
  - reflexivity.
Defined.

(** C4 fails as stated: a pixel whose mean is exactly 127 becomes 0. *)
Lemma applySimpleThreshold_mean_127 :
  let data := of_bytes [127; 127; 127; 255]%Z in
  buffer_shape data 1 1 4
  /\ equiv (mean_at data 0) (of_Z 127)
  /\ applySimpleThreshold 1 data 1 1 = Some (of_bytes [0; 0; 0; 255]%Z)
  /\ cell (of_bytes [0; 0; 0; 255]%Z) 0 <> Num (of_Z 255).
Proof.
  repeat split; try reflexivity; try (simpl; lia). discriminate.
Qed.

(** ** Loops over a range *)

Lemma foldl_seq_invariant {S : Type} (P : nat -> S -> Prop)
    (f : S -> nat -> S) (s0 : S) (N : nat) :
  P 0 s0 ->
  (forall n s, n < N -> P n s -> P (Datatypes.S n) (f s n)) ->
  P N (foldl f s0 (seq 0 N)).
Proof.
  intros H0 Hstep. induction N as [|N IH]; [exact H0|].
  rewrite seq_S, foldl_snoc. simpl. apply Hstep; [lia|].
  apply IH. intros n s Hn. apply Hstep. lia.
Qed.

Lemma pure_index_nat (j W i : nat) :
  (Z.of_nat j * Z.of_nat W + Z.of_nat i)%Z = Z.of_nat (j * W + i).
Proof. lia. Qed.

Lemma pixel_key channels c j W i :
  is_key channels c ->
  is_key (of_Z (Z.of_nat j * Z.of_nat W + Z.of_nat i) * channels)%js
    ((j * W + i) * c).
Proof.
  intros Hc. rewrite pure_index_nat. apply is_key_mul; [apply of_nat_key|exact Hc].
Qed.

Lemma pixel_index_inj W i j i' j' :
  i < W -> i' < W -> j * W + i = j' * W + i' -> i = i' /\ j = j'.
Proof. intros Hi Hi' E. assert (j = j') by nia. subst. lia. Qed.

(** ** applyAdaptiveThreshold: the second pass *)

Lemma binary_pass2_value px I w h i j : binary (Num (pass2_value px I w h i j)).
Proof. unfold pass2_value, binary. cbv zeta. destruct (_ < _)%js; tauto. Qed.

Lemma pass2_body_key channels c W height I i data j :
  is_key channels c ->
  pass2_body channels (Z.of_nat W) height I i data j
  = put3 data ((j * W + i) * c)
      (pass2_value (to_number (cell data ((j * W + i) * c))) I
         (Z.of_nat W) height i j).
Proof.
  intros Hc. unfold pass2_body. cbv zeta.
  pose proof (pixel_key channels c j W i Hc) as Hk.
  rewrite (data_get_key _ _ _ Hk), (set3_key _ _ _ _ Hk). reflexivity.
Qed.

Section Pass2Binary.
Variables (W H c : nat) (channels : number) (I : list (option number)).
Hypothesis channels_c : is_key channels c.

Local Abbreviation body := (pass2_body channels (Z.of_nat W) (Z.of_nat H) I).

Local Abbreviation upto := (binary_upto W H c).

Lemma pass2_column_binary i d :
  upto i 0 d -> upto i H (foldl (body i) d (seq 0 H)).
Proof.
  intros Hd. apply (foldl_seq_invariant (upto i)); [exact Hd|].
  intros n s Hn Hs i' j' k Hij Hk. rewrite (pass2_body_key _ c) by assumption.
  destruct (Nat.eq_dec i' i) as [->|Hi]; [destruct (Nat.eq_dec j' n) as [->|Hj]|].
  - rewrite cell_put3_in by lia. apply binary_pass2_value.
  - apply binary_put3; [apply binary_pass2_value|]. apply Hs; [lia|exact Hk].
  - apply binary_put3; [apply binary_pass2_value|]. apply Hs; [lia|exact Hk].
Qed.

(** Every pixel's first three channels hold 0 or 255 after the second
    pass, whatever the first pass left. *)
Lemma pass2_binary d i j k :
  i < W -> j < H -> k < 3 ->
  binary (cell (pass2 channels (Z.of_nat W) (Z.of_nat H) I d)
            ((j * W + i) * c + k)).
Proof.
  intros Hi Hj Hk. unfold pass2. rewrite !Nat2Z.id.
  enough (Hall : upto W 0
            (foldl (fun data i => foldl (body i) data (seq 0 H)) d (seq 0 W))).
  { apply Hall; [left; lia|exact Hk]. }
  apply (foldl_seq_invariant (fun i => upto i 0)).
  - intros i' j' k' [[Hlt _]|[_ Hlt]]; lia.
  - intros n s Hn Hs. pose proof (pass2_column_binary n s Hs) as Hcol.
    intros i' j' k' Hij Hk'. apply Hcol; [|exact Hk'].
    destruct Hij as [[Hlt Hj']|[_ Hlt]]; [|lia].
    destruct (Nat.eq_dec i' n); [right|left]; lia.
Qed.
End Pass2Binary.

(** ** Equality of numbers up to representation *)

Lemma equiv_refl a : equiv a a.
Proof. destruct a; simpl; [reflexivity| | |]; exact Logic.I. Qed.

Lemma equiv_sym a b : equiv a b -> equiv b a.
Proof. destruct a, b; simpl; try tauto. intros ->. reflexivity. Qed.

Lemma equiv_trans a b c : equiv a b -> equiv b c -> equiv a c.
Proof. destruct a, b, c; simpl; try tauto. intros -> ->. reflexivity. Qed.

Lemma add_equiv a a' b b' : equiv a a' -> equiv b b' -> equiv (a + b)%js (a' + b')%js.
Proof.
  destruct a, a', b, b'; simpl; try tauto. intros -> ->. reflexivity.
Qed.

Lemma add_zero_l a : equiv (of_Z 0 + a)%js a.
Proof. destruct a; simpl; try exact Logic.I. apply Qplus_0_l. Qed.

(** ** Doubles *)

Section Doubles.
Local Open Scope Q_scope.

(** *** Powers of two *)

Lemma pow2_pos e : 0 < pow2 e.
Proof. apply Qpower_0_lt. reflexivity. Qed.

Lemma pow2_plus a b : pow2 (a + b) == pow2 a * pow2 b.
Proof. apply Qpower_plus. discriminate. Qed.

Lemma pow2_succ e : pow2 (e + 1) == 2 * pow2 e.
Proof. rewrite pow2_plus. change (pow2 1) with 2. ring. Qed.

Lemma pow2_Z e : (0 <= e)%Z -> pow2 e == inject_Z (2 ^ e).
Proof. intros He. symmetry. apply (Zpower_Qpower 2 e He). Qed.

Lemma pow2_le a b : (a <= b)%Z -> pow2 a <= pow2 b.
Proof. intros H. apply Qpower_le_compat_l; [exact H|discriminate]. Qed.

Lemma pow2_lt a b : (a < b)%Z -> pow2 a < pow2 b.
Proof. intros H. apply Qpower_lt_compat_l; [exact H|reflexivity]. Qed.

Lemma pow2_lt_inv a b : pow2 a < pow2 b -> (a < b)%Z.
Proof. intros H. apply (Qpower_lt_compat_l_inv 2); [exact H|reflexivity]. Qed.

Lemma pow2_minus a b : pow2 (a - b) == pow2 a / pow2 b.
Proof. apply Qpower_minus. discriminate. Qed.

(** *** The integer logarithm *)

Lemma ilog2_spec q : 0 < q -> pow2 (ilog2 q) <= q /\ q < pow2 (ilog2 q + 1).
Proof.
  intros Hq. unfold ilog2.
  destruct q as [n d]. cbn [Qnum Qden].
  assert (Hn : (0 < n)%Z) by (unfold Qlt in Hq; simpl in Hq; lia).
  pose proof (Z.log2_spec n Hn) as [Hn1 Hn2].
  pose proof (Z.log2_spec (Zpos d) (Pos2Z.is_pos d)) as [Hd1 Hd2].
  pose proof (Z.log2_nonneg n) as Ha. pose proof (Z.log2_nonneg (Zpos d)) as Hb.
  set (a := Z.log2 n) in *. set (b := Z.log2 (Zpos d)) in *.
  rewrite <- Z.add_1_r in Hn2, Hd2.
  assert (Hlow : pow2 (a - b - 1) < n # d).
  { replace (a - b - 1)%Z with (a - (b + 1))%Z by lia.
    rewrite pow2_minus, (pow2_Z a), (pow2_Z (b + 1)) by lia.
    rewrite Qmake_Qdiv.
    rewrite Zle_Qle in Hn1. rewrite Zlt_Qlt in Hd2.
    assert (0 < inject_Z (Zpos d)) by reflexivity.
    assert (0 < inject_Z (2 ^ (b + 1))) by (eapply Qlt_trans; eassumption).
    apply Qlt_shift_div_l; [assumption|].
    unfold Qdiv. rewrite <- Qmult_assoc, (Qmult_comm (/ _)), Qmult_assoc.
    apply Qlt_shift_div_r; [assumption|].
    assert (0 < inject_Z (2 ^ a)).
    { change 0 with (inject_Z 0). rewrite <- Zlt_Qlt. lia. }
    apply Qle_lt_trans with (inject_Z n * inject_Z (Zpos d)).
    - apply Qmult_le_compat_r; [assumption|]. apply Qlt_le_weak. assumption.
    - rewrite !(Qmult_comm (inject_Z n)).
      apply Qmult_lt_compat_r; [|assumption].
      eapply Qlt_le_trans; eassumption. }
  assert (Hhigh : n # d < pow2 (a - b + 1)).
  { replace (a - b + 1)%Z with ((a + 1) - b)%Z by lia.
    rewrite pow2_minus, (pow2_Z (a + 1)), (pow2_Z b) by lia.
    rewrite Qmake_Qdiv.
    rewrite Zlt_Qlt in Hn2. rewrite Zle_Qle in Hd1.
    assert (0 < inject_Z (Zpos d)) by reflexivity.
    assert (0 < inject_Z (2 ^ b)).
    { change 0 with (inject_Z 0). rewrite <- Zlt_Qlt. lia. }
    apply Qlt_shift_div_r; [assumption|].
    unfold Qdiv. rewrite <- Qmult_assoc, (Qmult_comm (/ _)), Qmult_assoc.
    apply Qlt_shift_div_l; [assumption|].
    assert (0 < inject_Z n).
    { change 0 with (inject_Z 0). rewrite <- Zlt_Qlt. lia. }
    apply Qle_lt_trans with (inject_Z n * inject_Z (Zpos d)).
    - rewrite !(Qmult_comm (inject_Z n)).
      apply Qmult_le_compat_r; [assumption|]. apply Qlt_le_weak. assumption.
    - apply Qmult_lt_compat_r; assumption. }
  destruct (Qle_bool (pow2 (a - b)) (n # d)) eqn:E.
  - apply Qle_bool_iff in E. split; assumption.
  - assert (Hlt : n # d < pow2 (a - b)).
    { apply Qnot_le_lt. intros Hle. apply Qle_bool_iff in Hle. congruence. }
    split.
    + apply Qlt_le_weak. exact Hlow.
    + replace (a - b - 1 + 1)%Z with (a - b)%Z by lia. exact Hlt.
Qed.

Lemma ilog2_unique q k : pow2 k <= q -> q < pow2 (k + 1) -> ilog2 q = k.
Proof.
  intros H1 H2.
  assert (Hq : 0 < q) by (eapply Qlt_le_trans; [apply pow2_pos|exact H1]).
  destruct (ilog2_spec q Hq) as [H3 H4].
  assert (ilog2 q < k + 1)%Z.
  { apply pow2_lt_inv. eapply Qle_lt_trans; eassumption. }
  assert (k < ilog2 q + 1)%Z.
  { apply pow2_lt_inv. eapply Qle_lt_trans; eassumption. }
  lia.
Qed.

Lemma ilog2_comp q q' : 0 < q -> q == q' -> ilog2 q = ilog2 q'.
Proof.
  intros Hq E. symmetry. destruct (ilog2_spec q Hq) as [H1 H2].
  apply ilog2_unique; rewrite <- E; assumption.
Qed.

(** *** The nearest integer *)

Lemma nearest_even_cases q :
  nearest_even q = Qfloor q \/ nearest_even q = (Qfloor q + 1)%Z.
Proof.
  unfold nearest_even.
  destruct (Qcompare _ _); [destruct (Z.even _)| |]; auto.
Qed.

Lemma nearest_even_le q z : q <= inject_Z z -> (nearest_even q <= z)%Z.
Proof.
  intros H. unfold nearest_even.
  pose proof (Qfloor_le q) as Hf.
  assert (Hfz : (Qfloor q <= z)%Z).
  { rewrite Zle_Qle. eapply Qle_trans; eassumption. }
  assert (Hup : inject_Z (Qfloor q) < q -> (Qfloor q + 1 <= z)%Z).
  { intros Hlt. assert (Qfloor q < z)%Z; [|lia].
    rewrite Zlt_Qlt. eapply Qlt_le_trans; eassumption. }
  destruct (Qcompare_spec (q - inject_Z (Qfloor q)) (1 # 2)) as [E|E|E].
  - destruct (Z.even _); [exact Hfz|]. apply Hup. lra.
  - exact Hfz.
  - apply Hup. lra.
Qed.

Lemma nearest_even_ge q z : inject_Z z <= q -> (z <= nearest_even q)%Z.
Proof.
  intros H.
  assert (Hfz : (z <= Qfloor q)%Z).
  { rewrite <- (Qfloor_Z z). apply Qfloor_resp_le. exact H. }
  destruct (nearest_even_cases q) as [-> | ->]; lia.
Qed.

Lemma nearest_even_Z q z : q == inject_Z z -> nearest_even q = z.
Proof.
  intros E. apply Z.le_antisymm.
  - apply nearest_even_le. rewrite E. apply Qle_refl.
  - apply nearest_even_ge. rewrite E. apply Qle_refl.
Qed.

Lemma nearest_even_error q : Qabs (inject_Z (nearest_even q) - q) <= 1 # 2.
Proof.
  unfold nearest_even.
  pose proof (Qfloor_le q) as Hf. pose proof (Qlt_floor q) as Hc.
  rewrite inject_Z_plus in Hc. change (inject_Z 1) with 1 in Hc.
  apply Qabs_Qle_condition.
  destruct (Qcompare_spec (q - inject_Z (Qfloor q)) (1 # 2)) as [E|E|E].
  - destruct (Z.even _).
    + lra.
    + rewrite inject_Z_plus. change (inject_Z 1) with 1. lra.
  - lra.
  - rewrite inject_Z_plus. change (inject_Z 1) with 1. lra.
Qed.

Lemma nearest_even_comp q q' : q == q' -> nearest_even q = nearest_even q'.
Proof.
  intros E. unfold nearest_even. rewrite (Qfloor_comp _ _ E).
  assert (Hc : Qcompare (q - inject_Z (Qfloor q')) (1 # 2)
               = Qcompare (q' - inject_Z (Qfloor q')) (1 # 2)).
  { apply Qcompare_comp; [rewrite E|]; reflexivity. }
  rewrite Hc. reflexivity.
Qed.

Lemma Qfloor_unique x z :
  inject_Z z <= x -> x < inject_Z (z + 1) -> Qfloor x = z.
Proof.
  intros H1 H2. apply Z.le_antisymm.
  - assert (Qfloor x < z + 1)%Z; [|lia].
    rewrite Zlt_Qlt. eapply Qle_lt_trans; [apply Qfloor_le|exact H2].
  - rewrite <- (Qfloor_Z z). apply Qfloor_resp_le. exact H1.
Qed.

Lemma nearest_even_opp q : nearest_even (- q) = (- nearest_even q)%Z.
Proof.
  pose proof (Qfloor_le q) as Hf. pose proof (Qlt_floor q) as Hc.
  destruct (Qeq_dec q (inject_Z (Qfloor q))) as [E|E].
  - rewrite (nearest_even_Z q _ E).
    apply nearest_even_Z. rewrite inject_Z_opp, <- E. reflexivity.
  - assert (Hlt : inject_Z (Qfloor q) < q).
    { apply Qle_lteq in Hf as [Hf|Hf]; [exact Hf|]. elim E. symmetry. exact Hf. }
    rewrite inject_Z_plus in Hc. change (inject_Z 1) with 1 in Hc.
    assert (Hfo : Qfloor (- q) = (- Qfloor q - 1)%Z).
    { apply Qfloor_unique.
      - unfold Z.sub. rewrite inject_Z_plus, !inject_Z_opp.
        change (inject_Z 1) with 1. lra.
      - replace (- Qfloor q - 1 + 1)%Z with (- Qfloor q)%Z by lia.
        rewrite inject_Z_opp. lra. }
    unfold nearest_even. rewrite Hfo.
    assert (Hi : inject_Z (- Qfloor q - 1) == - inject_Z (Qfloor q) - 1).
    { unfold Z.sub. rewrite inject_Z_plus, !inject_Z_opp.
      change (inject_Z 1) with 1. ring. }
    assert (Hev : Z.even (- Qfloor q - 1) = negb (Z.even (Qfloor q))).
    { rewrite Z.even_sub, Z.even_opp. simpl. now destruct (Z.even (Qfloor q)). }
    destruct (Qcompare_spec (- q - inject_Z (- Qfloor q - 1)) (1 # 2))
      as [A|A|A]; rewrite Hi in A;
    destruct (Qcompare_spec (q - inject_Z (Qfloor q)) (1 # 2)) as [B|B|B];
      try (exfalso; lra).
    + rewrite Hev. destruct (Z.even (Qfloor q)); simpl; lia.
    + lia.
    + lia.
Qed.

(** *** Rounding *)

Lemma is_zero_iff q : is_zero q = true <-> q == 0.
Proof.
  unfold is_zero, Qeq. simpl. rewrite Z.eqb_eq. lia.
Qed.

Lemma is_zero_false q : is_zero q = false <-> ~ q == 0.
Proof.
  rewrite <- is_zero_iff. destruct (is_zero q); split; congruence.
Qed.

Lemma last_place_comp q q' : ~ q == 0 -> q == q' -> last_place q = last_place q'.
Proof.
  intros Hq E. unfold last_place. f_equal. f_equal.
  apply ilog2_comp; [|now rewrite E].
  apply Qabs_case; intros H; [|lra].
  apply Qle_lteq in H as [H|H]; [exact H|]. elim Hq. symmetry. exact H.
Qed.

Lemma round_fin_comp q q' : q == q' -> round_fin q == round_fin q'.
Proof.
  intros E. unfold round_fin.
  destruct (is_zero q) eqn:Z1, (is_zero q') eqn:Z2.
  - reflexivity.
  - apply is_zero_iff in Z1. apply is_zero_false in Z2. elim Z2. now rewrite <- E.
  - apply is_zero_iff in Z2. apply is_zero_false in Z1. elim Z1. now rewrite E.
  - apply is_zero_false in Z1.
    rewrite <- (last_place_comp q q' Z1 E).
    rewrite (nearest_even_comp (q / _) (q' / pow2 (last_place q))); [reflexivity|].
    unfold Qdiv. apply Qmult_comp; [exact E|reflexivity].
Qed.

Lemma last_place_opp q : ~ q == 0 -> last_place (- q) = last_place q.
Proof.
  intros Hq. unfold last_place. f_equal. f_equal.
  apply ilog2_comp; [|apply Qabs_opp].
  apply Qabs_case; intros H; [|lra].
  apply Qle_lteq in H as [H|H]; [exact H|]. elim Hq. lra.
Qed.

Lemma round_fin_opp q : round_fin (- q) == - round_fin q.
Proof.
  unfold round_fin.
  destruct (is_zero q) eqn:Z1.
  - apply is_zero_iff in Z1.
    replace (is_zero (- q)) with true; [reflexivity|].
    symmetry. apply is_zero_iff. lra.
  - apply is_zero_false in Z1.
    replace (is_zero (- q)) with false
      by (symmetry; apply is_zero_false; lra).
    rewrite (last_place_opp q Z1).
    rewrite (nearest_even_comp (- q / _) (- (q / pow2 (last_place q)))).
    + rewrite nearest_even_opp, inject_Z_opp. ring.
    + field. pose proof (pow2_pos (last_place q)). lra.
Qed.

Lemma representable_opp r : representable r -> representable (- r).
Proof.
  intros (m & e & E & Hm & He). exists (- m)%Z, e. split; [|split].
  - rewrite inject_Z_opp, E. ring.
  - lia.
  - exact He.
Qed.

Lemma representable_comp r r' : r == r' -> representable r -> representable r'.
Proof. intros E (m & e & H). exists m, e. now rewrite <- E. Qed.

Lemma representable_Z z : (Z.abs z <= 2 ^ 53)%Z -> representable (inject_Z z).
Proof.
  intros H. exists z, 0%Z. split; [|split]; [|exact H|lia].
  change (pow2 0) with 1. ring.
Qed.

Lemma representable_pow2 k : (-1074 <= k)%Z -> representable (pow2 k).
Proof.
  intros H. exists 1%Z, k. split; [|split]; [|simpl; lia|exact H].
  change (inject_Z 1) with 1. ring.
Qed.

Section Positive.
Variable q : Q.
Hypothesis q_pos : 0 < q.

Let L := ilog2 q.
Let e := last_place q.

Lemma last_place_pos : e = Z.max (L - 52) (-1074).
Proof.
  unfold e, last_place, L. f_equal. f_equal.
  apply ilog2_comp; [|apply Qabs_pos; lra].
  apply Qabs_case; intros; lra.
Qed.

Lemma round_fin_pos :
  round_fin q = inject_Z (nearest_even (q / pow2 e)) * pow2 e.
Proof.
  unfold round_fin. replace (is_zero q) with false; [reflexivity|].
  symmetry. apply is_zero_false. lra.
Qed.

(** A representable number is on the grid of [q], or not above the
    power of two below [q]. *)
Lemma on_grid z :
  representable z ->
  (exists k, z == inject_Z k * pow2 e)
  \/ (Qabs z <= pow2 L /\ e = (L - 52)%Z).
Proof.
  intros (m & ez & E & Hm & Hez).
  destruct (Z.le_gt_cases e ez) as [Hle|Hgt].
  - left. exists (m * 2 ^ (ez - e))%Z.
    rewrite E, inject_Z_mult, <- pow2_Z by lia.
    replace ez with ((ez - e) + e)%Z at 1 by lia. rewrite pow2_plus. ring.
  - right. pose proof last_place_pos as He.
    assert (He' : e = (L - 52)%Z) by lia. split; [|exact He'].
    rewrite E, Qabs_Qmult, (Qabs_pos (pow2 ez)) by (apply Qlt_le_weak, pow2_pos).
    apply Qle_trans with (inject_Z (2 ^ 53) * pow2 ez).
    + apply Qmult_le_compat_r; [|apply Qlt_le_weak, pow2_pos].
      rewrite <- (Zabs_Qabs m 1). change (Z.abs m # 1) with (inject_Z (Z.abs m)).
      rewrite <- Zle_Qle. exact Hm.
    + rewrite <- pow2_Z, <- pow2_plus by lia. apply pow2_le. lia.
Qed.

Lemma scaled_bounds :
  e = (L - 52)%Z -> inject_Z (2 ^ 52) <= q / pow2 e.
Proof.
  intros He. destruct (ilog2_spec q q_pos) as [H1 _]. fold L in H1.
  apply Qle_shift_div_l; [apply pow2_pos|].
  rewrite <- pow2_Z, <- pow2_plus by lia.
  replace (52 + e)%Z with L by lia. exact H1.
Qed.

Lemma round_fin_pos_le z : representable z -> q <= z -> round_fin q <= z.
Proof.
  intros Hz Hqz. rewrite round_fin_pos.
  pose proof (pow2_pos e) as Hp.
  destruct (on_grid z Hz) as [(k & Hk)|[Hsmall He]].
  - rewrite Hk. apply Qmult_le_compat_r; [|lra].
    rewrite <- Zle_Qle. apply nearest_even_le.
    apply Qle_shift_div_r; [exact Hp|]. now rewrite <- Hk.
  - destruct (ilog2_spec q q_pos) as [H1 _]. fold L in H1.
    assert (Hzq : z == pow2 L).
    { apply Qle_antisym; [|lra].
      eapply Qle_trans; [apply Qle_Qabs|exact Hsmall]. }
    assert (Hq : q == pow2 L) by lra.
    assert (Hs : q / pow2 e == inject_Z (2 ^ 52)).
    { rewrite Hq, <- pow2_Z, <- pow2_minus by lia. apply Qpower_comp; [reflexivity|lia]. }
    rewrite (nearest_even_Z _ _ Hs), <- pow2_Z, <- pow2_plus by lia.
    rewrite Hzq. apply pow2_le. lia.
Qed.

Lemma round_fin_pos_ge z : representable z -> z <= q -> z <= round_fin q.
Proof.
  intros Hz Hzq. rewrite round_fin_pos.
  pose proof (pow2_pos e) as Hp.
  destruct (on_grid z Hz) as [(k & Hk)|[Hsmall He]].
  - rewrite Hk. apply Qmult_le_compat_r; [|lra].
    rewrite <- Zle_Qle. apply nearest_even_ge.
    apply Qle_shift_div_l; [exact Hp|]. now rewrite <- Hk.
  - apply Qle_trans with (pow2 L).
    + eapply Qle_trans; [apply Qle_Qabs|exact Hsmall].
    + replace L with (52 + e)%Z by lia. rewrite pow2_plus, pow2_Z by lia.
      apply Qmult_le_compat_r; [|lra].
      rewrite <- Zle_Qle. apply nearest_even_ge. now apply scaled_bounds.
Qed.

Lemma round_fin_pos_representable : representable (round_fin q).
Proof.
  rewrite round_fin_pos. exists (nearest_even (q / pow2 e)), e.
  split; [reflexivity|]. pose proof last_place_pos as He.
  split; [|lia].
  destruct (ilog2_spec q q_pos) as [H1 H2]. fold L in H1, H2.
  pose proof (pow2_pos e) as Hp.
  assert (Hlo : (0 <= nearest_even (q / pow2 e))%Z).
  { apply nearest_even_ge. apply Qle_shift_div_l; [exact Hp|].
    change (inject_Z 0) with 0. lra. }
  assert (Hhi : (nearest_even (q / pow2 e) <= 2 ^ 53)%Z).
  { apply nearest_even_le. apply Qle_shift_div_r; [exact Hp|].
    rewrite <- pow2_Z, <- pow2_plus by lia.
    apply Qlt_le_weak. eapply Qlt_le_trans; [exact H2|]. apply pow2_le. lia. }
  lia.
Qed.

Lemma round_fin_pos_error :
  Qabs (round_fin q - q) <= pow2 e * (1 # 2).
Proof.
  rewrite round_fin_pos. pose proof (pow2_pos e) as Hp.
  pose proof (nearest_even_error (q / pow2 e)) as Herr.
  set (m := inject_Z (nearest_even (q / pow2 e))) in *.
  assert (E : m * pow2 e - q == (m - q / pow2 e) * pow2 e) by (field; lra).
  rewrite E, Qabs_Qmult, (Qabs_pos (pow2 e)) by lra.
  rewrite (Qmult_comm (pow2 e)). apply Qmult_le_compat_r; [exact Herr|lra].
Qed.
End Positive.

Lemma round_fin_zero q : q == 0 -> round_fin q = 0.
Proof.
  intros E. unfold round_fin. apply is_zero_iff in E. now rewrite E.
Qed.

Lemma round_fin_neg q : q < 0 -> round_fin q == - round_fin (- q).
Proof.
  intros Hq. rewrite <- round_fin_opp. apply round_fin_comp. ring.
Qed.

Lemma round_fin_le q z : representable z -> q <= z -> round_fin q <= z.
Proof.
  intros Hz Hqz.
  destruct (Q_dec q 0) as [[Hq|Hq]|Hq].
  - rewrite (round_fin_neg q Hq).
    assert (- z <= round_fin (- q)); [|lra].
    apply round_fin_pos_ge; [lra|now apply representable_opp|lra].
  - apply round_fin_pos_le; assumption.
  - rewrite (round_fin_zero q Hq). lra.
Qed.

Lemma round_fin_ge q z : representable z -> z <= q -> z <= round_fin q.
Proof.
  intros Hz Hzq.
  destruct (Q_dec q 0) as [[Hq|Hq]|Hq].
  - rewrite (round_fin_neg q Hq).
    assert (round_fin (- q) <= - z); [|lra].
    apply round_fin_pos_le; [lra|now apply representable_opp|lra].
  - apply round_fin_pos_ge; assumption.
  - rewrite (round_fin_zero q Hq). lra.
Qed.

Lemma round_fin_representable q : representable (round_fin q).
Proof.
  destruct (Q_dec q 0) as [[Hq|Hq]|Hq].
  - apply (representable_comp (- round_fin (- q))).
    + symmetry. now apply round_fin_neg.
    + apply representable_opp, round_fin_pos_representable. lra.
  - now apply round_fin_pos_representable.
  - rewrite (round_fin_zero q Hq). apply (representable_Z 0). simpl. lia.
Qed.

Lemma round_fin_exact z : representable z -> round_fin z == z.
Proof.
  intros Hz. apply Qle_antisym.
  - apply round_fin_le; [exact Hz|apply Qle_refl].
  - apply round_fin_ge; [exact Hz|apply Qle_refl].
Qed.

Lemma round_fin_idempotent q : round_fin (round_fin q) == round_fin q.
Proof. apply round_fin_exact, round_fin_representable. Qed.

(** The rounding error: half a unit in the last place, which is at
    most [2^-53] of a bound on the number that is not below the least
    normal double. *)
Lemma round_fin_error q B :
  Qabs q <= B -> pow2 (-1022) <= B ->
  Qabs (round_fin q - q) <= pow2 (-53) * B.
Proof.
  intros HB Hmin.
  assert (Hpos : forall p, 0 < p -> p <= B ->
            Qabs (round_fin p - p) <= pow2 (-53) * B).
  { intros p Hp HpB.
    eapply Qle_trans; [apply round_fin_pos_error; exact Hp|].
    rewrite (last_place_pos p Hp).
    destruct (ilog2_spec p Hp) as [H1 _].
    destruct (Z.max_spec (ilog2 p - 52) (-1074)) as [[_ ->]|[_ ->]].
    - change (pow2 (-1074) * (1 # 2)) with (pow2 (-53) * pow2 (-1022)).
      apply Qmult_le_l; [apply pow2_pos|exact Hmin].
    - replace (ilog2 p - 52)%Z with ((-52) + ilog2 p)%Z by lia.
      rewrite pow2_plus.
      assert (E52 : pow2 (-52) == 2 * pow2 (-53)) by reflexivity.
      rewrite E52.
      pose proof (pow2_pos (-53)). pose proof (pow2_pos (ilog2 p)).
      assert (pow2 (-53) * pow2 (ilog2 p) <= pow2 (-53) * B); [|lra].
      apply Qmult_le_l; [assumption|lra]. }
  destruct (Q_dec q 0) as [[Hq|Hq]|Hq].
  - rewrite (round_fin_neg q Hq).
    assert (E : - round_fin (- q) - q == - (round_fin (- q) - - q)) by ring.
    rewrite E, Qabs_opp. apply Hpos; [lra|].
    rewrite <- (Qabs_neg q) by lra. exact HB.
  - apply Hpos; [exact Hq|]. rewrite <- (Qabs_pos q) by lra. exact HB.
  - rewrite (round_fin_zero q Hq).
    assert (E : 0 - q == 0) by lra. rewrite E. change (Qabs 0) with 0.
    pose proof (pow2_pos (-53)). pose proof (pow2_pos (-1022)).
    apply Qmult_le_0_compat; lra.
Qed.

(** *** Rounded numbers *)

Lemma Qred_inject_Z z : Qred (inject_Z z) = inject_Z z.
Proof.
  unfold Qred, inject_Z.
  pose proof (Z.ggcd_gcd z 1) as Hg.
  pose proof (Z.ggcd_correct_divisors z 1) as Hd.
  destruct (Z.ggcd z 1) as [g [a b]]. cbn [fst snd] in *.
  rewrite Z.gcd_1_r in Hg. subst g. destruct Hd as [Ha Hb].
  assert (Ea : a = z) by lia. assert (Eb : b = 1%Z) by lia.
  rewrite Ea, Eb. reflexivity.
Qed.

Lemma is_neg_iff q : is_neg q = true <-> q < 0.
Proof. unfold is_neg, Qlt. simpl. rewrite Z.ltb_lt. lia. Qed.

Lemma is_neg_comp q q' : q == q' -> is_neg q = is_neg q'.
Proof.
  intros E. destruct (is_neg q) eqn:A, (is_neg q') eqn:B; try reflexivity.
  - apply is_neg_iff in A. rewrite E in A. apply is_neg_iff in A. congruence.
  - apply is_neg_iff in B. rewrite <- E in B. apply is_neg_iff in B. congruence.
Qed.

Lemma round64_comp q q' : q == q' -> round64 q = round64 q'.
Proof.
  intros E. unfold round64.
  rewrite (Qred_complete _ _ (round_fin_comp q q' E)), (is_neg_comp q q' E).
  reflexivity.
Qed.

Lemma round64_finite q :
  Qabs (round_fin q) < pow2 1024 -> round64 q = Fin (Qred (round_fin q)).
Proof.
  intros H. unfold round64.
  destruct (Qle_bool (pow2 1024) (Qabs (Qred (round_fin q)))) eqn:E;
    [|reflexivity].
  apply Qle_bool_iff in E. rewrite Qred_correct in E. lra.
Qed.

Lemma round64_zero q : q == 0 -> round64 q = of_Z 0.
Proof.
  intros E. rewrite (round64_comp q 0 E). reflexivity.
Qed.

(** A number between two representable ones that are less than
    [2^1024] apart from zero is rounded to a number between them. *)
Lemma round64_between q lo hi :
  representable lo -> representable hi ->
  - pow2 1024 < lo -> hi < pow2 1024 ->
  lo <= q <= hi ->
  exists r, round64 q = Fin r /\ r == round_fin q /\ lo <= r <= hi.
Proof.
  intros Hlo Hhi Hl Hh [H1 H2].
  pose proof (round_fin_ge q lo Hlo H1). pose proof (round_fin_le q hi Hhi H2).
  exists (Qred (round_fin q)). split; [|split].
  - apply round64_finite. apply Qabs_Qlt_condition. lra.
  - apply Qred_correct.
  - rewrite Qred_correct. lra.
Qed.

Lemma pow2_53_1024 : inject_Z (2 ^ 53) < pow2 1024.
Proof. rewrite <- pow2_Z by lia. apply pow2_lt. lia. Qed.

(** Integers up to [2^53] are doubles. *)
Lemma round64_Z q z :
  q == inject_Z z -> (Z.abs z <= 2 ^ 53)%Z -> round64 q = of_Z z.
Proof.
  intros E Hz. rewrite (round64_comp q _ E).
  pose proof (round_fin_exact _ (representable_Z z Hz)) as Hr.
  rewrite round64_finite.
  - unfold of_Z. f_equal. rewrite (Qred_complete _ _ Hr). apply Qred_inject_Z.
  - rewrite Hr. pose proof pow2_53_1024 as Hbig.
    apply Qabs_Qlt_condition. split.
    + apply Qlt_le_trans with (- inject_Z (2 ^ 53)); [lra|].
      rewrite <- inject_Z_opp, <- Zle_Qle. lia.
    + apply Qle_lt_trans with (inject_Z (2 ^ 53)); [|lra].
      rewrite <- Zle_Qle. lia.
Qed.

Lemma round64_opp q : round64 (- q) = neg (round64 q).
Proof.
  unfold round64.
  rewrite (Qred_complete _ _ (round_fin_opp q)), Qred_opp.
  assert (Habs : Qabs (- Qred (round_fin q)) == Qabs (Qred (round_fin q)))
    by apply Qabs_opp.
  rewrite (Qleb_comp _ _ (Qeq_refl (pow2 1024)) _ _ Habs).
  destruct (Qle_bool (pow2 1024) (Qabs (Qred (round_fin q)))) eqn:E;
    [|reflexivity].
  apply Qle_bool_iff in E. rewrite Qred_correct in E.
  destruct (Q_dec q 0) as [[Hq|Hq]|Hq].
  - replace (is_neg q) with true by (symmetry; apply is_neg_iff; exact Hq).
    replace (is_neg (- q)) with false; [reflexivity|].
    symmetry. apply not_true_is_false. rewrite is_neg_iff. lra.
  - replace (is_neg (- q)) with true by (symmetry; apply is_neg_iff; lra).
    replace (is_neg q) with false; [reflexivity|].
    symmetry. apply not_true_is_false. rewrite is_neg_iff. lra.
  - exfalso. rewrite (round_fin_zero q Hq) in E.
    pose proof (pow2_pos 1024). change (Qabs 0) with 0 in E. lra.
Qed.

Lemma round64_idempotent q : rounded (round64 q) = round64 q.
Proof.
  unfold round64 at 1.
  destruct (Qle_bool (pow2 1024) (Qabs (Qred (round_fin q)))) eqn:E.
  - unfold round64. rewrite E. now destruct (is_neg q).
  - unfold rounded.
    rewrite (round64_comp (Qred (round_fin q)) (round_fin q) (Qred_correct _)).
    unfold round64.
    rewrite (Qred_complete _ _ (round_fin_idempotent q)), E.
    reflexivity.
Qed.

Lemma rounded_idempotent a : rounded (rounded a) = rounded a.
Proof. destruct a; try reflexivity. apply round64_idempotent. Qed.

Lemma is_double_rounded a : is_double (rounded a).
Proof. apply rounded_idempotent. Qed.

Lemma is_double_Z z : (Z.abs z <= 2 ^ 53)%Z -> is_double (of_Z z).
Proof. intros Hz. apply (round64_Z _ z (Qeq_refl _) Hz). Qed.

Lemma is_double_neg a : is_double a -> is_double (neg a).
Proof.
  destruct a as [q| | |]; try reflexivity.
  unfold is_double. simpl. intros Hq. now rewrite round64_opp, Hq.
Qed.

Lemma fadd_Z a b :
  (Z.abs (a + b) <= 2 ^ 53)%Z -> fadd (of_Z a) (of_Z b) = of_Z (a + b).
Proof.
  intros H. apply round64_Z; [|exact H]. now rewrite inject_Z_plus.
Qed.

Lemma fsub_Z a b :
  (Z.abs (a - b) <= 2 ^ 53)%Z -> fsub (of_Z a) (of_Z b) = of_Z (a - b).
Proof.
  intros H. apply round64_Z; [|exact H].
  unfold Z.sub. now rewrite inject_Z_plus, inject_Z_opp.
Qed.

Lemma fmul_Z a b :
  (Z.abs (a * b) <= 2 ^ 53)%Z -> fmul (of_Z a) (of_Z b) = of_Z (a * b).
Proof.
  intros H. apply round64_Z; [|exact H]. now rewrite inject_Z_mult.
Qed.

Lemma fdiv_Z a b :
  (0 < b)%Z -> (Z.abs a <= 2 ^ 53)%Z -> fdiv (of_Z (a * b)) (of_Z b) = of_Z a.
Proof.
  intros Hb Ha. unfold fdiv, of_Z, div.
  replace (is_zero (inject_Z b)) with false
    by (symmetry; apply Z.eqb_neq; simpl; lia).
  apply round64_Z; [|exact Ha].
  rewrite inject_Z_mult. field.
  change 0 with (inject_Z 0). rewrite inject_Z_injective. lia.
Qed.

Lemma fsub_self a : fsub a a = of_Z 0 \/ fsub a a = NaN.
Proof.
  destruct a as [q| | |]; [left|right|right|right]; try reflexivity.
  apply round64_zero. ring.
Qed.

Lemma fsub_zero_l b : is_double b -> fsub (of_Z 0) b = neg b.
Proof.
  destruct b as [q| | |]; try reflexivity.
  unfold is_double. simpl. intros Hq. unfold fsub, sub, of_Z. simpl.
  rewrite (round64_comp _ (- q)) by ring.
  now rewrite round64_opp, Hq.
Qed.

Lemma fadd_neg_l b : fadd (neg b) b = of_Z 0 \/ fadd (neg b) b = NaN.
Proof.
  destruct b as [q| | |]; [left|right|right|right]; try reflexivity.
  apply round64_zero. ring.
Qed.

Lemma fmul_zero_r a : fmul a (of_Z 0) = of_Z 0 \/ fmul a (of_Z 0) = NaN.
Proof.
  destruct a as [q| | |]; [left|right|right|right]; try reflexivity.
  apply round64_zero. change (inject_Z 0) with 0. ring.
Qed.

Lemma fmul_zero_l q : fmul (of_Z 0) (Fin q) = of_Z 0.
Proof. apply round64_zero. change (inject_Z 0) with 0. ring. Qed.

Lemma fadd_nan_l a : fadd NaN a = NaN.
Proof. now destruct a. Qed.

Lemma fadd_nan_r a : fadd a NaN = NaN.
Proof. now destruct a. Qed.

Lemma fsub_nan_l a : fsub NaN a = NaN.
Proof. now destruct a. Qed.

Lemma fsub_nan_r a : fsub a NaN = NaN.
Proof. now destruct a. Qed.

Lemma fmul_nan_l a : fmul NaN a = NaN.
Proof. now destruct a. Qed.

Lemma lt_nan_r a : lt a NaN = false.
Proof. now destruct a. Qed.
(** Rounding a number of magnitude up to [2^k]: the result and its
    error. *)
Lemma round64_error q k :
  (-1022 <= k <= 1023)%Z -> Qabs q <= pow2 k ->
  exists r, round64 q = Fin r /\ r == round_fin q
            /\ Qabs (r - q) <= pow2 (k - 53).
Proof.
  intros Hk Hq. apply Qabs_Qle_condition in Hq.
  destruct (round64_between q (- pow2 k) (pow2 k)) as (r & Hr & Er & _).
  - apply representable_opp, representable_pow2. lia.
  - apply representable_pow2. lia.
  - assert (pow2 k < pow2 1024) by (apply pow2_lt; lia). lra.
  - apply pow2_lt. lia.
  - exact Hq.
  - exists r. split; [exact Hr|]. split; [exact Er|]. rewrite Er.
    replace (k - 53)%Z with (-53 + k)%Z by lia. rewrite pow2_plus.
    apply round_fin_error.
    + now apply Qabs_Qle_condition.
    + apply pow2_le. lia.
Qed.
End Doubles.

(** ** applyAdaptiveThreshold: the first pass *)

Lemma grey3_key d x k : is_key x k -> grey3 d x = grey_at d k.
Proof.
  intros H. unfold grey3, grey_at.
  rewrite (data_get_key _ (x + two)%js (k + 2))
    by (apply is_key_add; [exact H|apply is_key_two]).
  rewrite (data_get_key _ (x + one)%js (k + 1))
    by (apply is_key_add; [exact H|apply is_key_one]).
  rewrite (data_get_key _ x k) by exact H.
  reflexivity.
Qed.

Lemma column_sum_S d c W i n :
  column_sum d c W i (S n) = (column_sum d c W i n + grey d c W i n)%js.
Proof.
  unfold column_sum, sum_numbers. now rewrite seq_S, map_app, foldl_app.
Qed.

Lemma column_sum64_S d c W i n :
  column_sum64 d c W i (S n)
  = fadd (column_sum64 d c W i n) (grey64 d c W i n).
Proof.
  unfold column_sum64. now rewrite seq_S, map_app, foldl_app.
Qed.

Lemma processed_here i n : processed i n i n = false.
Proof.
  unfold processed. rewrite Nat.ltb_irrefl, Nat.eqb_refl, Nat.ltb_irrefl.
  reflexivity.
Qed.

Lemma processed_S i n i' j' :
  processed i (S n) i' j'
  = (processed i n i' j' || ((i' =? i) && (j' =? n)))%bool.
Proof.
  unfold processed.
  destruct (Nat.ltb_spec i' i), (Nat.eqb_spec i' i), (Nat.ltb_spec j' (S n)),
    (Nat.ltb_spec j' n), (Nat.eqb_spec j' n); simpl; try reflexivity; lia.
Qed.

Section Pass1.
Variables (data : jsarray) (W H c : nat) (channels : number).
Hypothesis channels_c : is_key channels c.
Hypothesis three_channels : 3 <= c.

Local Abbreviation inv := (pass1_inv data W H c).

Lemma grey_at_unread i n st :
  inv i n st -> i < W -> n < H ->
  grey_at (p1_data st) ((n * W + i) * c) = grey64 data c W i n.
Proof.
  intros Hinv Hi Hn. unfold grey64, grey_at.
  pose proof (inv_data Hinv i n 0 Hi Hn) as H0.
  pose proof (inv_data Hinv i n 1 Hi Hn) as H1.
  pose proof (inv_data Hinv i n 2 Hi Hn) as H2.
  rewrite processed_here, Nat.add_0_r in H0. rewrite processed_here in H1, H2.
  simpl in H0, H1, H2. rewrite H0, H1, H2 by lia. reflexivity.
Qed.

Lemma pass1_body_inv i n st :
  i < W -> n < H ->
  inv i n st ->
  inv i (S n) (pass1_body channels (Z.of_nat W) i st n).
Proof.
  intros Hi Hn Hinv. unfold pass1_body. cbv zeta.
  pose proof (pixel_key channels c n W i channels_c) as Hk.
  rewrite (grey3_key _ _ _ Hk), (set3_key _ _ _ _ Hk).
  rewrite (grey_at_unread i n st Hinv Hi Hn), (inv_sum Hinv).
  rewrite <- column_sum64_S, pure_index_nat, Nat2Z.id.
  assert (Hcell :
    (if (Z.of_nat i =? 0)%Z then column_sum64 data c W i (S n)
     else fadd (int_get (p1_integral st) (Z.of_nat (n * W + i) - 1))
            (column_sum64 data c W i (S n)))
    = integral64 data c W i n).
  { destruct i as [|i0]; [reflexivity|].
    destruct (Z.eqb_spec (Z.of_nat (S i0)) 0) as [E|_]; [lia|].
    cbn [integral64]. f_equal. unfold int_get.
    destruct (Z.ltb_spec (Z.of_nat (n * W + S i0) - 1) 0) as [E|_]; [lia|].
    replace (Z.to_nat (Z.of_nat (n * W + S i0) - 1)) with (n * W + i0) by lia.
    rewrite (inv_integral Hinv i0 n); [reflexivity|lia|exact Hn|].
    unfold processed. destruct (Nat.ltb_spec i0 (S i0)); [reflexivity|lia]. }
  rewrite Hcell.
  assert (Hrange : n * W + i < W * H) by nia.
  split; cbn [p1_sum p1_integral p1_data].
  - reflexivity.
  - rewrite arr_set_length_lt; rewrite (inv_length Hinv); lia.
  - intros i' j' Hi' Hj' Hp. rewrite processed_S in Hp.
    destruct (Nat.eq_dec (n * W + i) (j' * W + i')) as [E|E].
    + rewrite <- E, arr_get_set_eq.
      apply pixel_index_inj in E as [-> ->]; [reflexivity|lia|lia].
    + rewrite arr_get_set_ne by exact E.
      apply (inv_integral Hinv); [exact Hi'|exact Hj'|].
      destruct (processed i n i' j'); [reflexivity|]. simpl in Hp.
      apply andb_true_iff in Hp as [->%Nat.eqb_eq ->%Nat.eqb_eq]. congruence.
  - intros i' j' k Hi' Hj' Hk'. rewrite processed_S.
    destruct (Nat.eq_dec (n * W + i) (j' * W + i')) as [E|E].
    + apply pixel_index_inj in E as [-> ->]; [|lia|lia].
      rewrite !Nat.eqb_refl, orb_true_r. simpl.
      destruct (Nat.ltb_spec k 3).
      * apply cell_put3_in. lia.
      * rewrite cell_put3_out by lia.
        rewrite (inv_data Hinv) by assumption.
        destruct (Nat.ltb_spec k 3); [lia|]. now rewrite andb_false_r.
    + rewrite cell_put3_out by nia.
      rewrite (inv_data Hinv) by assumption.
      replace ((i' =? i) && (j' =? n))%bool with false; [now rewrite orb_false_r|].
      symmetry. apply andb_false_iff.
      destruct (Nat.eqb_spec i' i), (Nat.eqb_spec j' n); subst; tauto.
Qed.

Lemma pass1_column_inv i st :
  i < W ->
  inv i 0 (restart st) ->
  inv (S i) 0 (restart (pass1_column channels (Z.of_nat W) H st i)).
Proof.
  intros Hi Hinv.
  assert (Hend : inv i H (pass1_column channels (Z.of_nat W) H st i)).
  { unfold pass1_column. apply (foldl_seq_invariant (inv i)).
    - exact Hinv.
    - intros n s Hn Hs. now apply pass1_body_inv. }
  assert (Hsame : forall i' j', j' < H ->
            processed (S i) 0 i' j' = processed i H i' j').
  { intros i' j' Hj'. unfold processed.
    destruct (Nat.ltb_spec i' (S i)), (Nat.ltb_spec i' i), (Nat.eqb_spec i' (S i)),
      (Nat.eqb_spec i' i), (Nat.ltb_spec j' H); simpl; try reflexivity; lia. }
  destruct Hend as [Hs Hl HI Hd]. split; cbn [restart p1_sum p1_integral p1_data].
  - reflexivity.
  - exact Hl.
  - intros i' j' Hi' Hj' Hp. apply HI; try assumption. now rewrite <- Hsame.
  - intros i' j' k Hi' Hj' Hk. rewrite Hsame by assumption. now apply Hd.
Qed.

(** After the first pass: the integral image holds the sums as they
    were accumulated and every pixel's first three channels hold its
    greyscale value. *)
Lemma pass1_spec :
  let st :=
    pass1 channels (Z.of_nat W) (Z.of_nat H) data
      (replicate (W * H) (Some (of_Z 0))) in
  length (p1_integral st) = W * H
  /\ (forall i j, i < W -> j < H ->
        arr_get (p1_integral st) (j * W + i)
        = Some (integral64 data c W i j))
  /\ (forall i j k, i < W -> j < H -> k < c ->
        cell (p1_data st) ((j * W + i) * c + k)
        = if k <? 3 then Num (grey64 data c W i j)
          else cell data ((j * W + i) * c + k)).
Proof.
  intros st.
  assert (Hinv : inv W 0 (restart st)).
  { subst st. unfold pass1. rewrite !Nat2Z.id.
    apply (foldl_seq_invariant (fun i s => inv i 0 (restart s))).
    - split; cbn [restart p1_sum p1_integral p1_data].
      + reflexivity.
      + apply length_replicate.
      + intros i' j' _ _ Hp. unfold processed in Hp.
        destruct (Nat.ltb_spec i' 0); [lia|].
        rewrite andb_false_r in Hp. discriminate.
      + intros i' j' k _ _ _. unfold processed.
        destruct (Nat.ltb_spec i' 0); [lia|]. now rewrite andb_false_r.
    - intros n s Hn Hs. now apply pass1_column_inv. }
  destruct Hinv as [_ Hl HI Hd]. cbn [restart p1_integral p1_data] in *.
  assert (Hall : forall i j, i < W -> processed W 0 i j = true).
  { intros i j Hi. unfold processed.
    destruct (Nat.ltb_spec i W); [reflexivity|lia]. }
  split; [exact Hl|]. split.
  - intros i j Hi Hj. apply HI; auto.
  - intros i j k Hi Hj Hk. rewrite Hd, Hall by assumption. reflexivity.
Qed.
End Pass1.


(** ** Pixels with integer greyscale values *)

Lemma byte_value_Z z : byte_value (Num (of_Z z)) = z.
Proof. apply Qfloor_Z. Qed.

Lemma pixel_bytes d c W H i j :
  byte_pixels d c W H -> i < W -> j < H ->
  exists r g b,
    cell d ((j * W + i) * c) = Num (of_Z r)
    /\ cell d ((j * W + i) * c + 1) = Num (of_Z g)
    /\ cell d ((j * W + i) * c + 2) = Num (of_Z b)
    /\ (0 <= r <= 255)%Z /\ (0 <= g <= 255)%Z /\ (0 <= b <= 255)%Z
    /\ channel_sum d c W i j = (r + g + b)%Z.
Proof.
  intros Hb Hi Hj.
  destruct (Hb i j 0 Hi Hj ltac:(lia)) as (r & Hr & Hr').
  destruct (Hb i j 1 Hi Hj ltac:(lia)) as (g & Hg & Hg').
  destruct (Hb i j 2 Hi Hj ltac:(lia)) as (b & Hb2 & Hb').
  rewrite Nat.add_0_r in Hr. exists r, g, b.
  unfold channel_sum. rewrite Hr, Hg, Hb2, !byte_value_Z. tauto.
Qed.

Lemma pow_53_bound : (2 ^ 53 = 9007199254740992)%Z.
Proof. reflexivity. Qed.

Lemma grey_Z_byte d c W H i j :
  byte_pixels d c W H -> i < W -> j < H ->
  (0 <= grey_Z d c W i j <= 255)%Z.
Proof.
  intros Hb Hi Hj.
  destruct (pixel_bytes d c W H i j Hb Hi Hj)
    as (r & g & b & _ & _ & _ & Hr & Hg & Hb' & Hs).
  unfold grey_Z. rewrite Hs.
  split; [apply Z.div_pos; lia|].
  apply Z.div_le_upper_bound; lia.
Qed.

(** The mean of three bytes whose sum is a multiple of 3 is computed
    without rounding. *)
Lemma grey64_whole d c W H i j :
  byte_pixels d c W H -> whole_greys d c W H -> i < W -> j < H ->
  grey64 d c W i j = of_Z (grey_Z d c W i j).
Proof.
  intros Hb Hw Hi Hj.
  destruct (pixel_bytes d c W H i j Hb Hi Hj)
    as (r & g & b & Er & Eg & Eb & Hr & Hg & Hb' & Hs).
  pose proof (Hw i j Hi Hj) as Hmod.
  unfold grey64, grey_at, grey_Z. rewrite Er, Eg, Eb. simpl to_number.
  rewrite Hs in *.
  rewrite fadd_Z by (rewrite pow_53_bound; lia).
  rewrite fadd_Z by (rewrite pow_53_bound; lia).
  assert (E : (r + g + b = (r + g + b) / 3 * 3)%Z).
  { rewrite Z.mul_comm. apply Z_div_exact_full_2; [lia|exact Hmod]. }
  rewrite E at 1. apply fdiv_Z; [lia|].
  assert (0 <= (r + g + b) / 3 <= 255)%Z.
  { split; [apply Z.div_pos; lia|apply Z.div_le_upper_bound; lia]. }
  rewrite pow_53_bound. lia.
Qed.

Lemma grey_whole d c W H i j :
  byte_pixels d c W H -> whole_greys d c W H -> i < W -> j < H ->
  equiv (grey d c W i j) (of_Z (grey_Z d c W i j)).
Proof.
  intros Hb Hw Hi Hj.
  destruct (pixel_bytes d c W H i j Hb Hi Hj)
    as (r & g & b & Er & Eg & Eb & Hr & Hg & Hb' & Hs).
  pose proof (Hw i j Hi Hj) as Hmod.
  unfold grey, mean_at, grey_Z. rewrite Er, Eg, Eb, Hs in *. simpl.
  assert (E : (r + g + b = 3 * ((r + g + b) / 3))%Z)
    by (apply Z_div_exact_full_2; [lia|exact Hmod]).
  rewrite <- !inject_Z_plus. rewrite E at 1. rewrite inject_Z_mult.
  change (inject_Z 3) with 3%Q. field.
Qed.

Section WholeGreys.
Variables (d : jsarray) (W H c : nat).
Hypothesis bytes : byte_pixels d c W H.
Hypothesis whole : whole_greys d c W H.
Hypothesis small : fits W H.

Lemma column_Z_bounds i n :
  i < W -> n <= H -> (0 <= column_Z d c W i n <= 255 * Z.of_nat n)%Z.
Proof.
  intros Hi. induction n as [|n IH]; intros Hn; cbn [column_Z]; [lia|].
  pose proof (grey_Z_byte d c W H i n bytes Hi ltac:(lia)).
  specialize (IH ltac:(lia)). lia.
Qed.

Lemma rect_Z_bounds x y :
  x < W -> y < H ->
  (0 <= rect_Z d c W x y <= 255 * (Z.of_nat (S x) * Z.of_nat (S y)))%Z.
Proof.
  intros Hx Hy. induction x as [|x IH]; cbn [rect_Z].
  - pose proof (column_Z_bounds 0 (S y) Hx ltac:(lia)). lia.
  - pose proof (column_Z_bounds (S x) (S y) Hx ltac:(lia)).
    specialize (IH ltac:(lia)). lia.
Qed.

Lemma rect_Z_small x y :
  x < W -> y < H -> (0 <= rect_Z d c W x y < 2 ^ 40)%Z.
Proof.
  intros Hx Hy. pose proof (rect_Z_bounds x y Hx Hy) as Hb.
  unfold fits in small.
  assert (Z.of_nat (S x) * Z.of_nat (S y) <= Z.of_nat W * Z.of_nat H)%Z by nia.
  change (2 ^ 32)%Z with 4294967296%Z in small.
  change (2 ^ 40)%Z with 1099511627776%Z. lia.
Qed.

Lemma column_Z_small i n :
  i < W -> n <= H -> (0 <= column_Z d c W i n < 2 ^ 40)%Z.
Proof.
  intros Hi Hn. pose proof (column_Z_bounds i n Hi Hn) as Hb.
  unfold fits in small.
  assert (Z.of_nat n <= Z.of_nat W * Z.of_nat H)%Z by nia.
  change (2 ^ 32)%Z with 4294967296%Z in small.
  change (2 ^ 40)%Z with 1099511627776%Z. lia.
Qed.

Lemma column_sum64_whole i n :
  i < W -> n <= H -> column_sum64 d c W i n = of_Z (column_Z d c W i n).
Proof.
  intros Hi. induction n as [|n IH]; intros Hn; [reflexivity|].
  rewrite column_sum64_S, IH by lia. cbn [column_Z].
  rewrite (grey64_whole d c W H) by (assumption || lia).
  apply fadd_Z.
  pose proof (column_Z_small i (S n) Hi Hn) as Hs. cbn [column_Z] in Hs.
  rewrite pow_53_bound. change (2 ^ 40)%Z with 1099511627776%Z in Hs. lia.
Qed.

Lemma integral64_whole x y :
  x < W -> y < H -> integral64 d c W x y = of_Z (rect_Z d c W x y).
Proof.
  intros Hx Hy. induction x as [|x IH]; cbn [integral64 rect_Z].
  - apply column_sum64_whole; lia.
  - rewrite IH, column_sum64_whole by lia.
    apply fadd_Z.
    pose proof (rect_Z_small (S x) y Hx Hy) as Hs. cbn [rect_Z] in Hs.
    rewrite pow_53_bound. change (2 ^ 40)%Z with 1099511627776%Z in Hs. lia.
Qed.

Lemma column_sum_whole i n :
  i < W -> n <= H ->
  equiv (column_sum d c W i n) (of_Z (column_Z d c W i n)).
Proof.
  intros Hi. induction n as [|n IH]; intros Hn; [apply equiv_refl|].
  rewrite column_sum_S. cbn [column_Z].
  eapply equiv_trans;
    [apply add_equiv; [apply IH; lia|apply (grey_whole d c W H); assumption || lia]|].
  simpl. rewrite inject_Z_plus. reflexivity.
Qed.

Lemma rect_sum_whole x y :
  x < W -> y < H -> equiv (rect_sum d c W x y) (of_Z (rect_Z d c W x y)).
Proof.
  intros Hx Hy. unfold rect_sum, sum_numbers. induction x as [|x IH].
  - simpl. eapply equiv_trans; [apply add_zero_l|].
    apply column_sum_whole; lia.
  - rewrite seq_S, map_app, foldl_app. cbn [map foldl rect_Z].
    eapply equiv_trans;
      [apply add_equiv; [apply IH; lia|apply column_sum_whole; lia]|].
    unfold of_Z, add, equiv. rewrite inject_Z_plus. reflexivity.
Qed.
End WholeGreys.

(** C3, as the code has it.  After the first pass, for a buffer with at
    least three values per pixel, [integralImage[y * width + x]] is the
    sum of the greyscale values over the rectangle [[0,x] x [0,y]] as
    accumulated in doubles, means and additions rounded.  It is the sum
    itself when the greyscale values are integers: when the first three
    channels of every pixel are bytes that add up to a multiple of
    3. *)
Theorem integral_image_rect_sum (data : jsarray) (W H c x y : nat)
    (Hshape : buffer_shape data W H c) (Hc : 3 <= c)
    (Hfits : fits W H) (Hx : x < W) (Hy : y < H) :
  int_get (p1_integral (first_pass data (Z.of_nat W) (Z.of_nat H)))
    (Z.of_nat y * Z.of_nat W + Z.of_nat x)
  = integral64 data c W x y
  /\ (byte_pixels data c W H -> whole_greys data c W H ->
      equiv
        (int_get (p1_integral (first_pass data (Z.of_nat W) (Z.of_nat H)))
           (Z.of_nat y * Z.of_nat W + Z.of_nat x))
        (rect_sum data c W x y)).
Proof.
  assert (Hget :
    int_get (p1_integral (first_pass data (Z.of_nat W) (Z.of_nat H)))
      (Z.of_nat y * Z.of_nat W + Z.of_nat x)
    = integral64 data c W x y).
  { unfold first_pass. rewrite <- Nat2Z.inj_mul, Nat2Z.id.
    destruct (pass1_spec data W H c _ (channels_key _ _ _ _ Hshape) Hc)
      as (_ & HI & _).
    rewrite pure_index_nat. unfold int_get.
    destruct (Z.ltb_spec (Z.of_nat (y * W + x)) 0); [lia|].
    rewrite Nat2Z.id, (HI x y Hx Hy). reflexivity. }
  split; [exact Hget|].
  intros Hbytes Hwhole. rewrite Hget.
  rewrite (integral64_whole data W H c Hbytes Hwhole Hfits x y Hx Hy).
  apply equiv_sym. now apply (rect_sum_whole data W H c).
Qed.

Lemma integral_image_rect_sum_witness :
  let data := of_bytes [10; 20; 30; 1; 2; 3; 40; 50; 60; 7; 8; 9]%Z in
  int_get (p1_integral (first_pass data (Z.of_nat 2) (Z.of_nat 2)))
    (Z.of_nat 1 * Z.of_nat 2 + Z.of_nat 1)
  = integral64 data 3 2 1 1
  /\ equiv
       (int_get (p1_integral (first_pass data (Z.of_nat 2) (Z.of_nat 2)))
          (Z.of_nat 1 * Z.of_nat 2 + Z.of_nat 1))
       (rect_sum data 3 2 1 1).
Proof.
  intros data.
  destruct (integral_image_rect_sum data 2 2 3 1 1) as [Hget Hsum].
  - split; [lia | lia | reflexivity].
  - lia.
  - reflexivity.
  - lia.
  - lia.
  - split; [exact Hget|]. apply Hsum.
    + intros [|[|i]] [|[|j]] [|[|[|k]]] Hi Hj Hk; try lia;
        eexists; (split; [reflexivity|lia]).
    + intros [|[|i]] [|[|j]] Hi Hj; try lia; reflexivity.
Defined.

(** C3 fails as stated: for the one row of five pixels (1, 0, 0), a
    valid buffer of bytes, the greyscale values add up to 5/3, while
    the last entry of the integral image is
    3752999689475413 / 2^51 = 1.6666666666666665, the result of five
    rounded additions of the double nearest to 1/3. *)
Lemma integral_image_rounded :
  let data := of_bytes [1; 0; 0; 1; 0; 0; 1; 0; 0; 1; 0; 0; 1; 0; 0]%Z in
  buffer_shape data 5 1 3
  /\ int_get (p1_integral (first_pass data 5 1)) (0 * 5 + 4)
     = Fin (3752999689475413 # 2251799813685248)
  /\ equiv (rect_sum data 3 5 4 0) (Fin (5 # 3))
  /\ ~ equiv (int_get (p1_integral (first_pass data 5 1)) (0 * 5 + 4))
         (rect_sum data 3 5 4 0).
Proof.
  intros data. split; [split; [lia | lia | reflexivity]|].
  split; [vm_compute; reflexivity|].
  split; [vm_compute; reflexivity|].
  vm_compute. discriminate.
Qed.

(** With fewer than three values per pixel the greyscale writes run
    into the next pixels, which are then read back changed: for the one
    row [3; 6; 9; 12] of four one-value pixels the second entry of the
    integral image is 6 + 8, while the greyscale values of the first
    two pixels of the buffer add up to 6 + 9. *)
Lemma first_pass_overlapping_pixels :
  let data := of_bytes [3; 6; 9; 12]%Z in
  int_get (p1_integral (first_pass data 4 1)) 1 = of_Z 14
  /\ equiv (rect_sum data 1 4 1 0) (of_Z 15).
Proof. split; vm_compute; reflexivity. Qed.

(** ** applyAdaptiveThreshold: the second pass, pixel by pixel *)

Section Pass2Pixels.
Variables (data1 : jsarray) (W H c : nat) (channels : number).
Variable I : list (option number).
Hypothesis channels_c : is_key channels c.
Hypothesis three_channels : 3 <= c.

Local Abbreviation pixel := (pass2_pixel data1 W H c I).
Local Abbreviation inv2 := (pass2_inv data1 W H c I).

Lemma pass2_body_inv i n d :
  i < W -> n < H ->
  inv2 i n d ->
  inv2 i (S n) (pass2_body channels (Z.of_nat W) (Z.of_nat H) I i d n).
Proof.
  intros Hi Hn Hinv. rewrite (pass2_body_key _ c) by assumption.
  assert (Hpx : cell d ((n * W + i) * c) = cell data1 ((n * W + i) * c)).
  { pose proof (Hinv i n 0 Hi Hn) as H0.
    rewrite !Nat.add_0_r, processed_here in H0. apply H0. lia. }
  rewrite Hpx. fold (pass2_pixel data1 W H c I i n).
  intros i' j' k Hi' Hj' Hk. rewrite processed_S.
  destruct (Nat.eq_dec (n * W + i) (j' * W + i')) as [E|E].
  - apply pixel_index_inj in E as [-> ->]; [|lia|lia].
    rewrite !Nat.eqb_refl, orb_true_r. simpl.
    destruct (Nat.ltb_spec k 3).
    + apply cell_put3_in. lia.
    + rewrite cell_put3_out by lia. rewrite Hinv by assumption.
      destruct (Nat.ltb_spec k 3); [lia|]. now rewrite andb_false_r.
  - rewrite cell_put3_out by nia. rewrite Hinv by assumption.
    replace ((i' =? i) && (j' =? n))%bool with false; [now rewrite orb_false_r|].
    symmetry. apply andb_false_iff.
    destruct (Nat.eqb_spec i' i), (Nat.eqb_spec j' n); subst; tauto.
Qed.

Lemma pass2_pixels i j k :
  i < W -> j < H -> k < 3 ->
  cell (pass2 channels (Z.of_nat W) (Z.of_nat H) I data1)
    ((j * W + i) * c + k)
  = Num (pixel i j).
Proof.
  intros Hi Hj Hk. unfold pass2. rewrite !Nat2Z.id.
  enough (Hall : inv2 W 0
    (foldl (fun data i =>
              foldl (pass2_body channels (Z.of_nat W) (Z.of_nat H) I i) data
                (seq 0 H)) data1 (seq 0 W))).
  { rewrite Hall by lia. unfold processed.
    destruct (Nat.ltb_spec i W); [|lia]. destruct (Nat.ltb_spec k 3); [|lia].
    reflexivity. }
  apply (foldl_seq_invariant (fun i => inv2 i 0)).
  - intros i' j' k' _ _ _. unfold processed.
    destruct (Nat.ltb_spec i' 0); [lia|]. now rewrite andb_false_r.
  - intros n s Hn Hs.
    assert (Hend : inv2 n H
      (foldl (pass2_body channels (Z.of_nat W) (Z.of_nat H) I n) s (seq 0 H))).
    { apply (foldl_seq_invariant (inv2 n)); [exact Hs|].
      intros m s' Hm Hs'. now apply pass2_body_inv. }
    intros i' j' k' Hi' Hj' Hk'. rewrite Hend by assumption.
    replace (processed (S n) 0 i' j') with (processed n H i' j'); [reflexivity|].
    unfold processed.
    destruct (Nat.ltb_spec i' (S n)), (Nat.ltb_spec i' n), (Nat.eqb_spec i' (S n)),
      (Nat.eqb_spec i' n), (Nat.ltb_spec j' H); simpl; try reflexivity; lia.
Qed.
End Pass2Pixels.

(** ** A buffer of one intensity *)

Lemma one_minus_t_value :
  one_minus_t = Fin (7656119366529843 # 9007199254740992).
Proof. vm_compute. reflexivity. Qed.

Lemma nan_or_same x p q : nan_or x p -> p = q -> nan_or x q.
Proof. now intros Hx <-. Qed.

Lemma nan_or_fadd x y p q :
  nan_or x p -> nan_or y q -> (Z.abs (p + q) <= 2 ^ 53)%Z ->
  nan_or (fadd x y) (p + q).
Proof.
  intros [->| ->] [->| ->] Hb; try (left; reflexivity).
  right. now apply fadd_Z.
Qed.

Lemma nan_or_fsub x y p q :
  nan_or x p -> nan_or y q -> (Z.abs (p - q) <= 2 ^ 53)%Z ->
  nan_or (fsub x y) (p - q).
Proof.
  intros [->| ->] [->| ->] Hb; try (left; reflexivity).
  right. now apply fsub_Z.
Qed.

(** The mean of three values that are the byte [g] or nothing is [g]
    or nothing. *)
Lemma nan_or_grey a b c g :
  (0 <= g <= 255)%Z ->
  nan_or a g -> nan_or b g -> nan_or c g ->
  nan_or (fdiv (fadd (fadd a b) c) three) g.
Proof.
  intros Hg Ha Hb Hc.
  assert (Hs : nan_or (fadd (fadd a b) c) (g + g + g)).
  { apply nan_or_fadd; [apply nan_or_fadd| |]; try assumption;
      rewrite pow_53_bound; lia. }
  destruct Hs as [->| ->]; [now left|right].
  replace (g + g + g)%Z with (g * 3)%Z by lia.
  apply fdiv_Z; [lia|rewrite pow_53_bound; lia].
Qed.

Lemma half_bracket_nonneg (width : Z) : (0 <= width)%Z -> (0 <= half_bracket width)%Z.
Proof.
  intros Hw. unfold half_bracket, bracket.
  apply Z.div_pos; [|lia]. pose proof (Z.div_pos width 4 Hw). lia.
Qed.

Lemma clamp_window (bound s2 z : Z) :
  (0 <= s2)%Z -> (0 <= z < bound)%Z ->
  (0 <= clamp_low (z - s2) <= z)%Z /\ (z <= clamp_high bound (z + s2) < bound)%Z.
Proof.
  intros Hs Hz. unfold clamp_low, clamp_high.
  destruct (Z.ltb_spec (z - s2) 0), (Z.geb_spec (z + s2) bound); lia.
Qed.

(** A product with [1 - t] is not above the number itself. *)
Lemma fmul_one_minus_t s :
  (0 <= s <= 2 ^ 53)%Z ->
  exists r, fmul (of_Z s) one_minus_t = Fin r /\ (r <= inject_Z s)%Q.
Proof.
  intros Hs. rewrite one_minus_t_value. unfold fmul, of_Z, mul, rounded.
  assert (H0 : (0 <= inject_Z s)%Q)
    by (change 0%Q with (inject_Z 0); rewrite <- Zle_Qle; lia).
  destruct (round64_between
              (inject_Z s * (7656119366529843 # 9007199254740992))
              (inject_Z 0) (inject_Z s)) as (r & Hr & _ & _ & Hle).
  - apply representable_Z. simpl. lia.
  - apply representable_Z. lia.
  - reflexivity.
  - eapply Qle_lt_trans; [|apply pow2_53_1024]. rewrite <- Zle_Qle. lia.
  - change (inject_Z 0) with 0%Q.
    assert (0 <= 7656119366529843 # 9007199254740992 <= 1)%Q
      by (split; discriminate).
    split; nra.
  - now exists r.
Qed.

Lemma area_small W H g :
  fits W H -> (0 <= g <= 255)%Z ->
  forall x y : Z,
    (0 <= x < Z.of_nat W)%Z -> (0 <= y < Z.of_nat H)%Z ->
    (0 <= area g x y < 2 ^ 40)%Z.
Proof.
  intros small g_byte x y Hx Hy. unfold area. unfold fits in small.
  change (2 ^ 32)%Z with 4294967296%Z in small.
  change (2 ^ 40)%Z with 1099511627776%Z.
  assert (0 <= (x + 1) * (y + 1) <= Z.of_nat W * Z.of_nat H)%Z by nia.
  nia.
Qed.

Section UniformWindow.
Variables (W H : nat) (g : Z).
Variable I : list (option number).
Hypothesis small : fits W H.
Hypothesis g_byte : (0 <= g <= 255)%Z.
Hypothesis I_area : forall i j, i < W -> j < H ->
  exists x, arr_get I (j * W + i) = Some x
            /\ nan_or x (area g (Z.of_nat i) (Z.of_nat j)).

Lemma int_get_area (x y : Z) :
  (0 <= x < Z.of_nat W)%Z -> (0 <= y < Z.of_nat H)%Z ->
  nan_or (int_get I (y * Z.of_nat W + x)) (area g x y).
Proof.
  intros Hx Hy. unfold int_get.
  destruct (Z.ltb_spec (y * Z.of_nat W + x) 0) as [E|_]; [nia|].
  replace (Z.to_nat (y * Z.of_nat W + x)) with (Z.to_nat y * W + Z.to_nat x)
    by nia.
  destruct (I_area (Z.to_nat x) (Z.to_nat y)) as (v & -> & Hv); try lia.
  rewrite !Z2Nat.id in Hv by lia. exact Hv.
Qed.

Lemma window_sum_uniform (x1 x2 y1 y2 : Z) :
  (0 <= x1 < Z.of_nat W)%Z -> (0 <= x2 < Z.of_nat W)%Z ->
  (0 <= y1 < Z.of_nat H)%Z -> (0 <= y2 < Z.of_nat H)%Z ->
  nan_or (window_sum I (Z.of_nat W) x1 x2 y1 y2)
    ((x2 - x1) * (y2 - y1) * g).
Proof.
  intros Hx1 Hx2 Hy1 Hy2. unfold window_sum.
  pose proof (area_small W H g small g_byte x2 y2 Hx2 Hy2).
  pose proof (area_small W H g small g_byte x2 y1 Hx2 Hy1).
  pose proof (area_small W H g small g_byte x1 y2 Hx1 Hy2).
  pose proof (area_small W H g small g_byte x1 y1 Hx1 Hy1).
  change (2 ^ 40)%Z with 1099511627776%Z in *.
  eapply nan_or_same.
  { apply nan_or_fadd; [apply nan_or_fsub; [apply nan_or_fsub| |]| |];
      try (apply int_get_area; assumption); rewrite pow_53_bound; lia. }
  unfold area. ring.
Qed.

(** A pixel that holds [g], nothing, or an already written 255 does not
    fall below the mean of a window of [g]s. *)
Lemma pass2_value_uniform (px : number) (i j : nat) :
  i < W -> j < H ->
  nan_or px g \/ px = of_Z 255 ->
  pass2_value px I (Z.of_nat W) (Z.of_nat H) i j = of_Z 255.
Proof.
  intros Hi Hj Hpx. unfold pass2_value. cbv zeta.
  pose proof (half_bracket_nonneg (Z.of_nat W) ltac:(lia)) as Hs2.
  destruct (clamp_window (Z.of_nat W) (half_bracket (Z.of_nat W)) (Z.of_nat i))
    as [Hx1 Hx2]; [exact Hs2|lia|].
  destruct (clamp_window (Z.of_nat H) (half_bracket (Z.of_nat W)) (Z.of_nat j))
    as [Hy1 Hy2]; [exact Hs2|lia|].
  set (s2 := half_bracket (Z.of_nat W)) in *.
  set (x1 := clamp_low (Z.of_nat i - s2)) in *.
  set (x2 := clamp_high (Z.of_nat W) (Z.of_nat i + s2)) in *.
  set (y1 := clamp_low (Z.of_nat j - s2)) in *.
  set (y2 := clamp_high (Z.of_nat H) (Z.of_nat j + s2)) in *.
  set (n := ((x2 - x1) * (y2 - y1))%Z).
  assert (Hn : (0 <= n)%Z) by (subst n; nia).
  assert (Hnsmall : (n <= Z.of_nat W * Z.of_nat H)%Z) by (subst n; nia).
  unfold fits in small. change (2 ^ 32)%Z with 4294967296%Z in small.
  enough (Htest :
    lt (fmul px (of_Z n))
       (fmul (window_sum I (Z.of_nat W) x1 x2 y1 y2) one_minus_t) = false)
    by now rewrite Htest.
  destruct (window_sum_uniform x1 x2 y1 y2 ltac:(lia) ltac:(lia)
              ltac:(lia) ltac:(lia)) as [->| ->].
  { rewrite fmul_nan_l. apply lt_nan_r. }
  fold n.
  destruct (fmul_one_minus_t (n * g)) as (r & -> & Hr);
    [rewrite pow_53_bound; nia|].
  assert (Hfin : forall p, (n * g <= p)%Z -> (Z.abs p <= 2 ^ 53)%Z ->
            lt (of_Z p) (Fin r) = false).
  { intros p Hp _. apply not_true_is_false. unfold of_Z, lt.
    rewrite Qlt_bool_iff. intros Hlt.
    assert (inject_Z (n * g) <= inject_Z p)%Q by (rewrite <- Zle_Qle; exact Hp).
    lra. }
  destruct Hpx as [[->| ->]| ->].
  - reflexivity.
  - rewrite fmul_Z by (rewrite pow_53_bound; nia).
    apply Hfin; [lia|rewrite pow_53_bound; nia].
  - rewrite fmul_Z by (rewrite pow_53_bound; nia).
    apply Hfin; [nia|rewrite pow_53_bound; nia].
Qed.
End UniformWindow.

(** *** One value throughout, any number of values per pixel *)

Lemma cell_put3_cases d k v x :
  cell (put3 d k v) x = Num v \/ cell (put3 d k v) x = cell d x.
Proof.
  destruct (Nat.lt_ge_cases x k) as [H1|H1].
  - right. apply cell_put3_out. lia.
  - destruct (Nat.lt_ge_cases x (k + 3)) as [H2|H2].
    + left. apply cell_put3_in. lia.
    + right. apply cell_put3_out. lia.
Qed.

Section FlatPass1.
Variables (W H c : nat) (channels : number) (g : Z).
Hypothesis channels_c : is_key channels c.
Hypothesis small : fits W H.
Hypothesis g_byte : (0 <= g <= 255)%Z.

Lemma flat_mean d k :
  (forall x, flat g (cell d x)) -> nan_or (grey_at d k) g.
Proof. intros Hd. unfold grey_at. apply nan_or_grey; [exact g_byte|..]; apply Hd. Qed.

Lemma flat_pass1_body i n st :
  i < W -> n < H ->
  flat_inv1 W H g i n st ->
  flat_inv1 W H g i (S n) (pass1_body channels (Z.of_nat W) i st n).
Proof.
  intros Hi Hn Hinv. unfold pass1_body. cbv zeta.
  pose proof (pixel_key channels c n W i channels_c) as Hk.
  rewrite (grey3_key _ _ _ Hk), (set3_key _ _ _ _ Hk).
  pose proof (flat_mean _ ((n * W + i) * c) (flat_data Hinv)) as Hv.
  set (v := grey_at (p1_data st) ((n * W + i) * c)) in *.
  rewrite pure_index_nat, Nat2Z.id.
  pose proof (area_small W H g small g_byte (Z.of_nat i) (Z.of_nat n)
                ltac:(lia) ltac:(lia)) as Hbig.
  pose proof (area_small W H g small g_byte 0 (Z.of_nat n)
                ltac:(lia) ltac:(lia)) as Hcol.
  unfold area in Hbig, Hcol. change (2 ^ 40)%Z with 1099511627776%Z in *.
  assert (Hsum : nan_or (fadd (p1_sum st) v) (Z.of_nat (S n) * g)).
  { eapply nan_or_same;
      [apply nan_or_fadd; [apply (flat_sum Hinv)|exact Hv|]|];
      [rewrite pow_53_bound|]; lia. }
  assert (Hcell : nan_or
    (if (Z.of_nat i =? 0)%Z then fadd (p1_sum st) v
     else fadd (int_get (p1_integral st) (Z.of_nat (n * W + i) - 1))
            (fadd (p1_sum st) v))
    (area g (Z.of_nat i) (Z.of_nat n))).
  { destruct i as [|i0].
    - simpl Z.eqb. eapply nan_or_same; [exact Hsum|]. unfold area. lia.
    - destruct (Z.eqb_spec (Z.of_nat (S i0)) 0) as [E|_]; [lia|].
      unfold int_get.
      destruct (Z.ltb_spec (Z.of_nat (n * W + S i0) - 1) 0) as [E|_]; [lia|].
      replace (Z.to_nat (Z.of_nat (n * W + S i0) - 1)) with (n * W + i0) by lia.
      destruct (flat_integral Hinv i0 n) as (x & -> & Hx); [lia|exact Hn| |].
      { unfold processed. destruct (Nat.ltb_spec i0 (S i0)); [reflexivity|lia]. }
      simpl to_number.
      eapply nan_or_same;
        [apply nan_or_fadd; [exact Hx|exact Hsum|]|];
        unfold area; [rewrite pow_53_bound|]; lia. }
  assert (Hrange : n * W + i < W * H) by nia.
  split; cbn [p1_sum p1_integral p1_data].
  - exact Hsum.
  - rewrite arr_set_length_lt; rewrite (flat_length Hinv); lia.
  - intros i' j' Hi' Hj' Hp. rewrite processed_S in Hp.
    destruct (Nat.eq_dec (n * W + i) (j' * W + i')) as [E|E].
    + rewrite <- E, arr_get_set_eq.
      apply pixel_index_inj in E as [-> ->]; [|lia|lia].
      eexists. split; [reflexivity|exact Hcell].
    + rewrite arr_get_set_ne by exact E.
      apply (flat_integral Hinv); [exact Hi'|exact Hj'|].
      destruct (processed i n i' j'); [reflexivity|]. simpl in Hp.
      apply andb_true_iff in Hp as [->%Nat.eqb_eq ->%Nat.eqb_eq]. congruence.
  - intros k. destruct (cell_put3_cases (p1_data st) ((n * W + i) * c) v k)
      as [->| ->]; [exact Hv|apply (flat_data Hinv)].
Qed.

Lemma flat_pass1_column i st :
  i < W ->
  flat_inv1 W H g i 0 (restart st) ->
  flat_inv1 W H g (S i) 0 (restart (pass1_column channels (Z.of_nat W) H st i)).
Proof.
  intros Hi Hinv.
  assert (Hend : flat_inv1 W H g i H
            (pass1_column channels (Z.of_nat W) H st i)).
  { unfold pass1_column. apply (foldl_seq_invariant (flat_inv1 W H g i)).
    - exact Hinv.
    - intros n s Hn Hs. now apply flat_pass1_body. }
  destruct Hend as [Hs Hl HI Hd]. split; cbn [restart p1_sum p1_integral p1_data].
  - right. reflexivity.
  - exact Hl.
  - intros i' j' Hi' Hj' Hp. apply HI; try assumption.
    rewrite <- Hp. unfold processed.
    destruct (Nat.ltb_spec i' (S i)), (Nat.ltb_spec i' i), (Nat.eqb_spec i' (S i)),
      (Nat.eqb_spec i' i), (Nat.ltb_spec j' H); simpl; try reflexivity; lia.
  - exact Hd.
Qed.

Lemma flat_pass1 data :
  (forall k, flat g (cell data k)) ->
  let st :=
    pass1 channels (Z.of_nat W) (Z.of_nat H) data
      (replicate (W * H) (Some (of_Z 0))) in
  (forall i j, i < W -> j < H ->
     exists x, arr_get (p1_integral st) (j * W + i) = Some x
               /\ nan_or x (area g (Z.of_nat i) (Z.of_nat j)))
  /\ (forall k, flat g (cell (p1_data st) k)).
Proof.
  intros Hdata st.
  assert (Hinv : flat_inv1 W H g W 0 (restart st)).
  { subst st. unfold pass1. rewrite !Nat2Z.id.
    apply (foldl_seq_invariant (fun i s => flat_inv1 W H g i 0 (restart s))).
    - split; cbn [restart p1_sum p1_integral p1_data].
      + right. reflexivity.
      + apply length_replicate.
      + intros i' j' _ _ Hp. unfold processed in Hp.
        destruct (Nat.ltb_spec i' 0); [lia|].
        rewrite andb_false_r in Hp. discriminate.
      + exact Hdata.
    - intros n s Hn Hs. now apply flat_pass1_column. }
  destruct Hinv as [_ _ HI Hd]. cbn [restart p1_integral p1_data] in *.
  split; [|exact Hd].
  intros i j Hi Hj. apply HI; try assumption. unfold processed.
  destruct (Nat.ltb_spec i W); [reflexivity|lia].
Qed.
End FlatPass1.

Section FlatPass2.
Variables (W H c : nat) (channels : number) (g : Z).
Variable I : list (option number).
Hypothesis channels_c : is_key channels c.
Hypothesis small : fits W H.
Hypothesis g_byte : (0 <= g <= 255)%Z.
Hypothesis I_area : forall i j, i < W -> j < H ->
  exists x, arr_get I (j * W + i) = Some x
            /\ nan_or x (area g (Z.of_nat i) (Z.of_nat j)).

Lemma flat_pass2_body i n d :
  i < W -> n < H ->
  flat_inv2 W H c g i n d ->
  flat_inv2 W H c g i (S n)
    (pass2_body channels (Z.of_nat W) (Z.of_nat H) I i d n).
Proof.
  intros Hi Hn Hinv. rewrite (pass2_body_key _ c) by assumption.
  assert (Hpx : nan_or (to_number (cell d ((n * W + i) * c))) g
                \/ to_number (cell d ((n * W + i) * c)) = of_Z 255).
  { destruct (flat_cells Hinv ((n * W + i) * c)) as [Hf| ->];
      [left; exact Hf|right; reflexivity]. }
  rewrite (pass2_value_uniform W H g I small g_byte I_area _ i n Hi Hn Hpx).
  split.
  - intros k. destruct (cell_put3_cases d ((n * W + i) * c) (of_Z 255) k)
      as [->| ->]; [now right|apply (flat_cells Hinv)].
  - intros i' j' k Hi' Hj' Hk Hp. rewrite processed_S in Hp.
    destruct (cell_put3_cases d ((n * W + i) * c) (of_Z 255)
                ((j' * W + i') * c + k)) as [->|E]; [reflexivity|].
    rewrite E. destruct (processed i n i' j') eqn:Hold.
    + now apply (flat_written Hinv).
    + simpl in Hp. apply andb_true_iff in Hp as [->%Nat.eqb_eq ->%Nat.eqb_eq].
      rewrite <- E. apply cell_put3_in. lia.
Qed.

Lemma flat_pass2 d i j k :
  (forall x, flat g (cell d x)) ->
  i < W -> j < H -> k < 3 ->
  cell (pass2 channels (Z.of_nat W) (Z.of_nat H) I d) ((j * W + i) * c + k)
  = Num (of_Z 255).
Proof.
  intros Hd Hi Hj Hk. unfold pass2. rewrite !Nat2Z.id.
  enough (Hall : flat_inv2 W H c g W 0
    (foldl (fun data i =>
              foldl (pass2_body channels (Z.of_nat W) (Z.of_nat H) I i) data
                (seq 0 H)) d (seq 0 W))).
  { apply (flat_written Hall); try assumption. unfold processed.
    destruct (Nat.ltb_spec i W); [reflexivity|lia]. }
  apply (foldl_seq_invariant (fun i => flat_inv2 W H c g i 0)).
  - split; [intros x; left; apply Hd|].
    intros i' j' k' _ _ _ Hp. unfold processed in Hp.
    destruct (Nat.ltb_spec i' 0); [lia|].
    rewrite andb_false_r in Hp. discriminate.
  - intros n s Hn Hs.
    assert (Hend : flat_inv2 W H c g n H
      (foldl (pass2_body channels (Z.of_nat W) (Z.of_nat H) I n) s (seq 0 H))).
    { apply (foldl_seq_invariant (flat_inv2 W H c g n)); [exact Hs|].
      intros m s' Hm Hs'. now apply flat_pass2_body. }
    destruct Hend as [Hc Hw]. split; [exact Hc|].
    intros i' j' k' Hi' Hj' Hk' Hp. apply Hw; try assumption.
    rewrite <- Hp. unfold processed.
    destruct (Nat.ltb_spec i' (S n)), (Nat.ltb_spec i' n), (Nat.eqb_spec i' (S n)),
      (Nat.eqb_spec i' n), (Nat.ltb_spec j' H); simpl; try reflexivity; lia.
Qed.
End FlatPass2.

(** ** applyAdaptiveThreshold as a whole *)

Lemma array_length_fits W H :
  array_length (Z.of_nat W * Z.of_nat H) = true <-> fits W H.
Proof.
  unfold array_length, fits. rewrite andb_true_iff, Z.leb_le, Z.ltb_lt. nia.
Qed.

Lemma applyAdaptiveThreshold_returns data W H :
  fits W H ->
  applyAdaptiveThreshold data (Z.of_nat W) (Z.of_nat H)
  = Returned
      (pass2 (js_channels data (Z.of_nat W) (Z.of_nat H))
         (Z.of_nat W) (Z.of_nat H)
         (p1_integral (first_pass data (Z.of_nat W) (Z.of_nat H)))
         (p1_data (first_pass data (Z.of_nat W) (Z.of_nat H)))).
Proof.
  intros Hfits. apply array_length_fits in Hfits.
  unfold applyAdaptiveThreshold. now rewrite Hfits.
Qed.

Lemma applyAdaptiveThreshold_throws data W H :
  ~ fits W H ->
  applyAdaptiveThreshold data (Z.of_nat W) (Z.of_nat H) = Thrown RangeError.
Proof.
  intros Hfits. unfold applyAdaptiveThreshold.
  destruct (array_length _) eqn:E; [|reflexivity].
  apply array_length_fits in E. contradiction.
Qed.

Lemma column_Z_uniform d c W i g n :
  (forall j, j < n -> grey_Z d c W i j = g) ->
  column_Z d c W i n = (Z.of_nat n * g)%Z.
Proof.
  intros Hg. induction n as [|n IH]; cbn [column_Z]; [lia|].
  rewrite IH by (intros; apply Hg; lia). rewrite Hg by lia. lia.
Qed.

Lemma rect_Z_uniform d c W H g x y :
  (forall i j, i < W -> j < H -> grey_Z d c W i j = g) ->
  x < W -> y < H ->
  rect_Z d c W x y = area g (Z.of_nat x) (Z.of_nat y).
Proof.
  intros Hg Hx Hy. unfold area.
  induction x as [|x IH]; cbn [rect_Z].
  - rewrite (column_Z_uniform d c W 0 g) by (intros; apply Hg; lia). lia.
  - rewrite IH by lia.
    rewrite (column_Z_uniform d c W (S x) g) by (intros; apply Hg; lia). lia.
Qed.



(** With one or two values per pixel the simple threshold does not
    return on a buffer that is not empty. *)
Lemma applySimpleThreshold_diverges (data : jsarray) (W H c fuel : nat) :
  buffer_shape data W H c -> 1 <= c <= 2 ->
  applySimpleThreshold fuel data (Z.of_nat W) (Z.of_nat H) = None.
Proof.
  intros Hshape Hc. unfold applySimpleThreshold.
  apply (simple_loop_diverges c _ (channels_key _ _ _ _ Hshape) ltac:(lia) fuel 0).
  - apply (is_key_of_nat 0).
  - destruct Hshape as [HW HH ->]. nia.
Qed.

(** C5.  For a buffer of [W] by [H] pixels with [c] values per pixel:
    the adaptive threshold returns with 0 or 255 in the first three
    channels of every pixel (with [2^32] pixels or more, which no
    array holds, its allocation fails instead); whenever the simple
    threshold returns it has left 0 or 255 in the first three channels
    of every pixel, and with at least three values per pixel it does
    return. *)
Theorem binarizers_write_0_or_255 (data : jsarray) (W H c : nat)
    (Hshape : buffer_shape data W H c) :
  (fits W H ->
   exists out,
     applyAdaptiveThreshold data (Z.of_nat W) (Z.of_nat H) = Returned out
     /\ forall i j k, i < W -> j < H -> k < 3 ->
          binary (cell out ((j * W + i) * c + k)))
  /\ (~ fits W H ->
      applyAdaptiveThreshold data (Z.of_nat W) (Z.of_nat H)
      = Thrown RangeError)
  /\ (forall fuel out,
        applySimpleThreshold fuel data (Z.of_nat W) (Z.of_nat H) = Some out ->
        forall i j k, i < W -> j < H -> k < 3 -> 0 < c ->
          binary (cell out ((j * W + i) * c + k)))
  /\ (3 <= c ->
      exists out,
        applySimpleThreshold (W * H) data (Z.of_nat W) (Z.of_nat H) = Some out).
Proof.
  pose proof (channels_key _ _ _ _ Hshape) as Hch.
  split; [|split; [|split]].
  - intros Hfits. rewrite applyAdaptiveThreshold_returns by exact Hfits.
    eexists. split; [reflexivity|].
    intros i j k Hi Hj Hk. now apply pass2_binary.
  - apply applyAdaptiveThreshold_throws.
  - intros fuel out Hrun i j k Hi Hj Hk Hc.
    apply (simple_loop_binary c _ Hch fuel 0) in Hrun.
    + destruct Hrun as (Hlen & m & Hm & Hbin). apply Hbin; [|exact Hk].
      rewrite (shape_length _ _ _ _ Hshape) in Hlen.
      assert (j * W + i < W * H) by nia.
      assert (W * H <= m) by nia. lia.
    + apply (is_key_of_nat 0).
    + intros p' j' Hp'. lia.
  - intros Hc.
    destruct (simple_loop_pixels c _ Hch (W * H) Hc (W * H) 0 (of_Z 0) data (W * H))
      as (out & Hrun & _); try lia.
    + apply (is_key_of_nat 0).
    + apply Hshape.
    + now exists out.
Qed.

Lemma binarizers_write_0_or_255_witness :
  let data := of_bytes [127; 127; 127; 255; 127; 128; 127; 9]%Z in
  (exists out,
     applyAdaptiveThreshold data (Z.of_nat 2) (Z.of_nat 1) = Returned out
     /\ forall i j k, i < 2 -> j < 1 -> k < 3 ->
          binary (cell out ((j * 2 + i) * 4 + k)))
  /\ (forall fuel out,
        applySimpleThreshold fuel data (Z.of_nat 2) (Z.of_nat 1) = Some out ->
        forall i j k, i < 2 -> j < 1 -> k < 3 -> 0 < 4 ->
          binary (cell out ((j * 2 + i) * 4 + k)))
  /\ (3 <= 4 ->
      exists out,
        applySimpleThreshold (2 * 1) data (Z.of_nat 2) (Z.of_nat 1) = Some out).
Proof.
  intros data.
  destruct (binarizers_write_0_or_255 data 2 1 4) as (Ha & _ & Hs & Hr).
  - split; [lia | lia | reflexivity].
  - split; [apply Ha; reflexivity|]. split; [exact Hs|exact Hr].
Defined.

(** ** Dimensions that are not those of the buffer *)

Lemma scan_no_rows data channels (width : Z) (W : nat) :
  foldl (scan_step data channels width 0)
    {| padding_left := true; padding_right := true; bmp := [] |} (seq 0 W)
  = {| padding_left := true; padding_right := true;
       bmp := replicate W false |}.
Proof.
  induction W as [|W IH]; [reflexivity|].
  rewrite seq_S, foldl_app, IH, replicate_S_end. reflexivity.
Qed.

Lemma getLines_no_columns data width height :
  (width <= 0)%Z -> getLines data width height = Returned [].
Proof.
  intros Hw. unfold getLines, scan, runLengths.
  replace (Z.to_nat width) with 0 by lia. reflexivity.
Qed.

Lemma getLines_no_rows data width height :
  (0 < width)%Z -> (height <= 0)%Z -> getLines data width height = Returned [].
Proof.
  intros Hw Hh. unfold getLines, scan.
  replace (Z.to_nat height) with 0 by lia. rewrite scan_no_rows.
  cbn [bmp trim padding_left padding_right].
  destruct (Z.to_nat width) as [|n] eqn:E; [lia|].
  replace width with (Z.of_nat (S n)) by lia.
  rewrite runLengths_uniform. reflexivity.
Qed.

(** C6, as the code has it.  Nothing checks the dimensions.  Called
    with [width <= 0], [height <= 0] or a length that is no multiple of
    [width * height], [getLines] returns a sequence (the empty one when
    [width <= 0] or [height <= 0]); [applyAdaptiveThreshold] raises the
    [RangeError] of its array allocation exactly when [width * height]
    is no array length, negative or [2^32] and more, and with
    [width <= 0] it otherwise returns the buffer as it was;
    [applySimpleThreshold] returns an empty buffer as it was. *)
Theorem no_dimension_check (data : jsarray) (width height : Z)
    (Hdims : invalid_dimensions data width height) :
  (exists l, getLines data width height = Returned l)
  /\ ((width <= 0)%Z \/ (height <= 0)%Z ->
      getLines data width height = Returned [])
  /\ (applyAdaptiveThreshold data width height = Thrown RangeError
      <-> (width * height < 0)%Z \/ (2 ^ 32 <= width * height)%Z)
  /\ ((width <= 0)%Z -> (0 <= width * height < 2 ^ 32)%Z ->
      applyAdaptiveThreshold data width height = Returned data)
  /\ (data_length data = 0 ->
      forall fuel, applySimpleThreshold fuel data width height = Some data).
Proof.
  split; [|split; [|split; [|split]]].
  - eexists. reflexivity.
  - intros Hbad. destruct (Z.le_gt_cases width 0) as [Hw|Hw].
    + now apply getLines_no_columns.
    + apply getLines_no_rows; lia.
  - unfold applyAdaptiveThreshold, array_length.
    destruct (Z.leb_spec 0 (width * height)),
      (Z.ltb_spec (width * height) (2 ^ 32)); simpl;
      split; try reflexivity; try discriminate; lia.
  - intros Hw Hwh. unfold applyAdaptiveThreshold, array_length, first_pass,
      pass1, pass2.
    destruct (Z.leb_spec 0 (width * height)); [|lia].
    destruct (Z.ltb_spec (width * height) (2 ^ 32)); [|lia]. simpl.
    replace (Z.to_nat width) with 0 by lia. reflexivity.
  - intros Hlen fuel. unfold applySimpleThreshold.
    destruct fuel; simpl; rewrite Hlen; reflexivity.
Qed.

Lemma no_dimension_check_witness :
  let data := of_bytes [10; 20; 30; 40]%Z in
  getLines data 1 (-1) = Returned []
  /\ applyAdaptiveThreshold data 1 (-1) = Thrown RangeError
  /\ applyAdaptiveThreshold data 65536 65536 = Thrown RangeError
  /\ applyAdaptiveThreshold (of_bytes []) 0 3 = Returned (of_bytes [])
  /\ applySimpleThreshold 5 (of_bytes []) 0 3 = Some (of_bytes []).
Proof.
  intros data.
  assert (H1 : invalid_dimensions data 1 (-1)) by (right; left; lia).
  assert (H2 : invalid_dimensions data 65536 65536).
  { right. right. intros [z Hz].
    change (Z.of_nat (data_length data)) with 4%Z in Hz. lia. }
  assert (H3 : invalid_dimensions (of_bytes []) 0 3) by (left; lia).
  destruct (no_dimension_check data 1 (-1) H1) as (_ & Hlines & Hthrow & _).
  destruct (no_dimension_check data 65536 65536 H2) as (_ & _ & Hbig & _).
  destruct (no_dimension_check (of_bytes []) 0 3 H3)
    as (_ & _ & _ & Hsame & Hsimple).
  split; [apply Hlines; right; lia|].
  split; [apply Hthrow; left; lia|].
  split; [apply Hbig; right; lia|].
  split; [apply Hsame; lia|].
  apply Hsimple. reflexivity.
Defined.

(** C6 fails as stated: called with width 0 and height 0, or with three
    values for two pixels, the operations return a result. *)
Lemma invalid_dimensions_not_rejected :
  let data := of_bytes [10; 20; 30; 40]%Z in
  getLines data 0 0 = Returned []
  /\ applyAdaptiveThreshold data 0 0 = Returned data
  /\ applySimpleThreshold 1 data 0 0 = Some (of_bytes [0; 0; 0; 40]%Z)
  /\ getLines (of_bytes [0; 0; 0]%Z) 2 1 = Returned []
  /\ exists out,
       applyAdaptiveThreshold (of_bytes [0; 0; 0]%Z) 2 1 = Returned out.
Proof. repeat split; try reflexivity. eexists. reflexivity. Qed.

(** * Further properties *)

(** ** combineAllPossible: the merged string, position by position *)

(** The merged string of a collection is the merged string of its
    longest candidates. *)
Lemma combine_longest (results : list string) :
  fst (combineAllPossible results)
  = fst (combineAllPossible
           (List.filter (has_length (max_length results)) results)).
Proof.
  unfold combineAllPossible. cbn [fst]. fold merge_init.
  rewrite merge_sort_longest.
  rewrite (js_sort_sorted_id (List.filter _ _))
    by (eapply same_length_sorted, filter_has_length).
  reflexivity.
Qed.

Lemma first_definite_unknown n i rs :
  Forall (fun s => String.length s = n) rs -> i < n ->
  first_definite i rs = question
  <-> Forall (fun r => String.get i r = Some question) rs.
Proof.
  intros Hall Hi. induction Hall as [|r rs Hr Hrs IH]; simpl.
  - split; [constructor|reflexivity].
  - destruct (String.get i r) as [c|] eqn:Hc.
    + destruct (Ascii.eqb_spec c question) as [->|Hq].
      * rewrite IH. split; [now constructor|].
        intros Hf. now inversion Hf.
      * split; [contradiction|]. intros Hf. inversion Hf; congruence.
    + rewrite get_chars in Hc. apply nth_error_None in Hc.
      rewrite <- string_length_chars in Hc. lia.
Qed.

Lemma merged_position (results : list string) (i : nat) :
  i < max_length results ->
  String.get i (fst (combineAllPossible results))
  = Some (first_definite i
            (List.filter (has_length (max_length results)) results)).
Proof.
  intros Hi. rewrite combine_longest.
  pose proof (filter_has_length (max_length results) results) as Hall.
  assert (Hne : results <> []).
  { intros ->. unfold max_length in Hi. simpl in Hi. lia. }
  pose proof (longest_nonempty results Hne) as Hlong.
  destruct (List.filter _ results) as [|r rs]; [now destruct Hlong|].
  inversion Hall as [|? ? Hr Hrs]; subst.
  rewrite combine_same_length by (now rewrite Hr).
  rewrite get_chars, chars_string_of_list.
  destruct (String.get i r) as [c|] eqn:Hc.
  - rewrite (merge_chars_fold_nth i rs (chars r) c).
    + simpl. now rewrite Hc.
    + now rewrite <- string_length_chars, Hr.
    + now rewrite <- get_chars.
  - rewrite get_chars in Hc. apply nth_error_None in Hc.
    rewrite <- string_length_chars in Hc. lia.
Qed.

(** X1.  Every position of the merged string holds the first character
    other than "?" that the longest candidates have there, taken in
    the order in which they were passed, or "?" when they all have
    "?". *)
Theorem combineAllPossible_positions (results : list string) (i : nat)
    (Hi : i < max_length results) :
  String.get i (fst (combineAllPossible results))
  = Some (first_definite i
            (List.filter (has_length (max_length results)) results)).
Proof. now apply merged_position. Qed.

Lemma combineAllPossible_positions_witness :
  String.get 1 (fst (combineAllPossible ["1?3"; "12"; "?2?"]%string))
  = Some (first_definite 1
            (List.filter
               (has_length (max_length ["1?3"; "12"; "?2?"]%string))
               ["1?3"; "12"; "?2?"]%string)).
Proof.
  apply (combineAllPossible_positions ["1?3"; "12"; "?2?"]%string 1).
  unfold max_length. simpl. lia.
Defined.

(** X2.  A position of the merged string is "?" exactly when every
    longest candidate has "?" at that position. *)
Theorem combineAllPossible_unknown_iff (results : list string) (i : nat)
    (Hi : i < max_length results) :
  String.get i (fst (combineAllPossible results)) = Some question
  <-> forall r, In r results -> String.length r = max_length results ->
        String.get i r = Some question.
Proof.
  pose proof (filter_has_length (max_length results) results) as Hall.
  rewrite (merged_position results i Hi). split.
  - intros [= Hq]. apply (first_definite_unknown _ _ _ Hall Hi) in Hq.
    intros r Hr Hlen. rewrite List.Forall_forall in Hq. apply Hq.
    apply filter_In. split; [exact Hr|]. now apply Nat.eqb_eq.
  - intros Hq. f_equal. apply (first_definite_unknown _ _ _ Hall Hi).
    apply List.Forall_forall. intros r Hr. apply filter_In in Hr as [Hr Hlen].
    apply Hq; [exact Hr|]. now apply Nat.eqb_eq in Hlen.
Qed.

Lemma combineAllPossible_unknown_iff_witness :
  String.get 1 (fst (combineAllPossible ["1?3"; "12"; "4?6"]%string))
  = Some question
  <-> forall r, In r ["1?3"; "12"; "4?6"]%string ->
        String.length r = max_length ["1?3"; "12"; "4?6"]%string ->
        String.get 1 r = Some question.
Proof.
  apply (combineAllPossible_unknown_iff ["1?3"; "12"; "4?6"]%string 1).
  unfold max_length. simpl. lia.
Defined.

Lemma max_length_app l1 l2 :
  max_length (l1 ++ l2) = Nat.max (max_length l1) (max_length l2).
Proof.
  unfold max_length. induction l1 as [|s l1 IH]; simpl; [reflexivity|].
  rewrite IH. lia.
Qed.

Lemma max_length_shorter n l :
  Forall (fun s => String.length s < n) l -> max_length l <= n.
Proof.
  unfold max_length. induction 1 as [|s l Hs Hl IH]; simpl; lia.
Qed.

Lemma filter_shorter n l :
  Forall (fun s => String.length s < n) l -> List.filter (has_length n) l = [].
Proof.
  induction 1 as [|s l Hs Hl IH]; simpl; [reflexivity|].
  unfold has_length at 1. destruct (Nat.eqb_spec (String.length s) n); [lia|].
  exact IH.
Qed.

(** X3.  A candidate that is strictly longer than all the others is
    returned as it is, its "?" included, wherever it stands in the
    collection. *)
Theorem combineAllPossible_single_longest (before after : list string)
    (r : string)
    (Hbefore : Forall (fun s => String.length s < String.length r) before)
    (Hafter : Forall (fun s => String.length s < String.length r) after) :
  fst (combineAllPossible (before ++ r :: after)) = r.
Proof.
  rewrite combine_longest.
  assert (Hmax : max_length (before ++ r :: after) = String.length r).
  { rewrite max_length_app.
    change (max_length (r :: after))
      with (Nat.max (String.length r) (max_length after)).
    pose proof (max_length_shorter _ _ Hbefore).
    pose proof (max_length_shorter _ _ Hafter). lia. }
  rewrite Hmax, List.filter_app. cbn [List.filter]. unfold has_length at 2.
  rewrite Nat.eqb_refl, !filter_shorter by assumption. simpl app.
  rewrite combine_same_length by constructor.
  simpl. apply string_of_list_ascii_of_string.
Qed.

Lemma combineAllPossible_single_longest_witness :
  fst (combineAllPossible
         (["12"%string; "?"%string] ++ "4?6?"%string :: ["789"%string]))
  = "4?6?"%string.
Proof.
  apply (combineAllPossible_single_longest ["12"; "?"]%string ["789"%string]
           "4?6?"%string).
  - repeat constructor.
  - repeat constructor.
Defined.

(** X4.  Calling [combineAllPossible] again on the collection it left
    returns the same string and leaves the collection as it is. *)
Theorem combineAllPossible_again (results : list string) :
  combineAllPossible (snd (combineAllPossible results))
  = combineAllPossible results.
Proof.
  unfold combineAllPossible. cbn [snd].
  now rewrite (js_sort_sorted_id _ (js_sort_sorted results)).
Qed.

(** ** getLines in closed form *)

Lemma scan_column_closed data channels c W H col :
  is_key channels c ->
  scan_column data channels (Z.of_nat W) H col
  = (column_matches data c W H col, column_last data c W H col).
Proof.
  intros Hc. unfold scan_column, column_matches.
  induction H as [|h IH]; [reflexivity|].
  rewrite seq_S, foldl_app, IH, List.filter_app, length_app.
  change (0 + h) with h. cbn [foldl].
  rewrite (data_get_key _ _ _ (pixel_key channels c h W col Hc)).
  cbn [List.filter column_last].
  destruct (strict_eq_num _ _); simpl; f_equal; lia.
Qed.

Section ScanClosed.
Variables (data : jsarray) (channels : number) (c W H : nat).
Hypothesis channels_c : is_key channels c.

Local Abbreviation step := (scan_step data channels (Z.of_nat (S W)) H).

Lemma scan_prefix k :
  k <= S W ->
  foldl step {| padding_left := true; padding_right := true; bmp := [] |}
    (seq 0 k)
  = {| padding_left := negb ((0 <? k) && dark_foot data c (S W) H 0);
       padding_right := negb ((W <? k) && dark_foot data c (S W) H W);
       bmp := map (fun col => 1 <? column_matches data c (S W) H col)
                (seq 0 k) |}.
Proof.
  induction k as [|k IH]; intros Hk; [reflexivity|].
  rewrite seq_S, foldl_app, IH by lia. change (0 + k) with k.
  cbn [foldl]. unfold scan_step.
  rewrite (scan_column_closed _ _ c) by assumption.
  cbn [padding_left padding_right bmp]. unfold dark_foot.
  rewrite map_app. cbn [map plus]. f_equal.
  - destruct (Z.eqb_spec (Z.of_nat k) 0) as [E|E].
    + assert (k = 0) by lia. subst k. simpl.
      now destruct (strict_eq_num (column_last data c (S W) H 0) (of_Z 0)).
    + destruct k as [|k]; [lia|]. rewrite andb_false_r. reflexivity.
  - destruct (Nat.eq_dec k W) as [->|E].
    + replace (Z.of_nat W =? Z.of_nat (S W) - 1)%Z with true
        by (symmetry; apply Z.eqb_eq; lia).
      destruct (Nat.ltb_spec W W); [lia|].
      destruct (Nat.ltb_spec W (S W)); [|lia]. simpl.
      now destruct (strict_eq_num (column_last data c (S W) H W) (of_Z 0)).
    + replace (Z.of_nat k =? Z.of_nat (S W) - 1)%Z with false
        by (symmetry; apply Z.eqb_neq; lia).
      rewrite andb_false_r.
      destruct (Nat.ltb_spec W k), (Nat.ltb_spec W (S k)); try lia; reflexivity.
Qed.
End ScanClosed.

(** The first loop of [getLines] on a buffer of [W] by [H] pixels. *)
Lemma scan_closed data W H c :
  buffer_shape data W H c ->
  scan data (js_channels data (Z.of_nat W) (Z.of_nat H))
    (Z.of_nat W) (Z.of_nat H)
  = {| padding_left := negb (dark_foot data c W H 0);
       padding_right := negb (dark_foot data c W H (W - 1));
       bmp := white_columns data c W H |}.
Proof.
  intros Hshape. pose proof (channels_key _ _ _ _ Hshape) as Hc.
  destruct Hshape as [HW _ _]. destruct W as [|W]; [lia|].
  unfold scan. rewrite !Nat2Z.id.
  rewrite (scan_prefix data _ c W H Hc (S W)) by lia.
  replace (S W - 1) with W by lia.
  destruct (Nat.ltb_spec W (S W)); [|lia]. reflexivity.
Qed.

(** ** The run-length loop as a run-length encoding *)

Lemma emitted_cons b n x y l :
  emitted b n (x :: y :: l)
  = if Bool.eqb x b then emitted b (S n) (y :: l)
    else n :: emitted x 1 (y :: l).
Proof. reflexivity. Qed.

Lemma emitted_loop (bmp : list bool) (l : list bool) :
  forall pre b n ls,
    bmp = pre ++ l ->
    lines
      (foldl (rle_step bmp (Z.of_nat (length bmp)))
         {| curr := Some b; count := n; lines := ls |}
         (seq (length pre) (length l)))
    = ls ++ emitted b n l.
Proof.
  induction l as [|x l IH]; intros pre b n ls Hbmp.
  - simpl. now rewrite app_nil_r.
  - cbn [length seq foldl]. unfold rle_step at 2. cbn [curr count lines].
    assert (Hx : bmp !! length pre = Some x).
    { rewrite Hbmp, lookup_app_r by lia. now rewrite Nat.sub_diag. }
    rewrite Hx. cbn [eq_opt_bool].
    assert (Hnext : bmp = (pre ++ [x]) ++ l) by (now rewrite <- app_assoc).
    specialize (IH (pre ++ [x])). rewrite length_app, Nat.add_1_r in IH.
    assert (Hlen : length bmp = length pre + S (length l)).
    { rewrite Hbmp, length_app. reflexivity. }
    destruct l as [|y l].
    + cbn [length seq foldl emitted].
      destruct (Z.eqb_spec (Z.of_nat (length pre)) (Z.of_nat (length bmp) - 1));
        [|simpl in Hlen; lia].
      now destruct (Bool.eqb x b).
    + destruct (Z.eqb_spec (Z.of_nat (length pre)) (Z.of_nat (length bmp) - 1));
        [simpl in Hlen; lia|].
      destruct (Bool.eqb x b) eqn:E.
      * rewrite (IH b (S n) ls Hnext), emitted_cons. now rewrite E.
      * rewrite (IH x 1 (ls ++ [n]) Hnext), emitted_cons, E.
        now rewrite <- app_assoc.
Qed.

Lemma rle_from_S b n l : rle_from b (S n) l = lengthen_first (rle_from b n l).
Proof.
  revert n. induction l as [|x l IH]; intros n; simpl; [reflexivity|].
  destruct (Bool.eqb x b); [apply IH|reflexivity].
Qed.

Lemma last_cons_default (l : list bool) : forall x d,
  List.last (x :: l) d = List.last l x.
Proof.
  induction l as [|z r IH]; intros x d; [reflexivity|].
  change (List.last (x :: z :: r) d) with (List.last (z :: r) d).
  now rewrite !IH.
Qed.

(** The loop emits the run-length encoding of the columns, except that
    a last column that differs from the one before it is left out. *)
Lemma emitted_rle l : forall prev b n,
  l <> [] ->
  emitted b n l
  = rle_from b n
      (if Bool.eqb (List.last l prev) (List.last (removelast l) b) then l
       else removelast l).
Proof.
  induction l as [|x l IH]; intros prev b n Hne; [congruence|].
  destruct l as [|y l].
  - simpl. destruct (Bool.eqb x b) eqn:E; simpl; [now rewrite E|reflexivity].
  - rewrite emitted_cons.
    change (List.last (x :: y :: l) prev) with (List.last (y :: l) prev).
    change (removelast (x :: y :: l)) with (x :: removelast (y :: l)).
    assert (Hlast : forall d, List.last (x :: removelast (y :: l)) d
                              = List.last (removelast (y :: l)) x)
      by (intros d; apply last_cons_default).
    rewrite Hlast.
    destruct (Bool.eqb x b) eqn:E.
    + rewrite (IH prev b (S n)) by congruence.
      apply Bool.eqb_prop in E. subst x.
      destruct (Bool.eqb (List.last (y :: l) prev) (List.last (removelast (y :: l)) b));
        cbn [rle_from]; now rewrite Bool.eqb_reflx.
    + rewrite (IH prev x 1) by congruence.
      destruct (Bool.eqb (List.last (y :: l) prev) (List.last (removelast (y :: l)) x));
        cbn [rle_from]; now rewrite E.
Qed.

Lemma last_lookup (l : list bool) (d : bool) :
  l <> [] -> l !! (length l - 1) = Some (List.last l d).
Proof.
  induction l as [|x l IH]; intros Hne; [congruence|].
  destruct l as [|y l]; [reflexivity|].
  cbn [length List.last]. replace (S (S (length l)) - 1) with (S (length (y :: l) - 1))
    by (simpl; lia).
  cbn [lookup list_lookup]. apply IH. congruence.
Qed.

Lemma removelast_lookup (l : list bool) (k : nat) :
  k < length l - 1 -> removelast l !! k = l !! k.
Proof.
  revert k. induction l as [|x l IH]; intros k Hk; [simpl in Hk; lia|].
  destruct l as [|y l]; [simpl in Hk; lia|].
  change (removelast (x :: y :: l)) with (x :: removelast (y :: l)).
  destruct k as [|k]; [reflexivity|]. cbn [lookup list_lookup].
  apply IH. simpl in *. lia.
Qed.

Lemma removelast_length_bool (l : list bool) :
  length (removelast l) = length l - 1.
Proof.
  induction l as [|x l IH]; [reflexivity|].
  destruct l as [|y l]; [reflexivity|].
  change (removelast (x :: y :: l)) with (x :: removelast (y :: l)).
  cbn [length]. rewrite IH. simpl. lia.
Qed.

(** Reading the first column again makes the first run one longer. *)
Lemma rle_counted_twice b l :
  rle_from b 1 (b :: l) = lengthen_first (rle (b :: l)).
Proof.
  change (rle (b :: l)) with (rle_from b 1 l). rewrite <- rle_from_S.
  cbn [rle_from]. now rewrite Bool.eqb_reflx.
Qed.

(** The run-length loop in closed form. *)
Lemma runLengths_closed (bmp : list bool) :
  runLengths bmp (Z.of_nat (length bmp)) = lengthen_first (rle (settled bmp)).
Proof.
  unfold runLengths. rewrite Nat2Z.id.
  destruct bmp as [|b l]; [reflexivity|].
  change ((b :: l) !! 0) with (Some b).
  change (seq 0 (length (b :: l)))
    with (seq (length (@nil bool)) (length (b :: l))).
  rewrite (emitted_loop (b :: l) (b :: l) [] b 1 [] eq_refl). cbn [app].
  unfold settled, last_column_turns.
  destruct l as [|y l].
  - now destruct b.
  - rewrite (emitted_rle (b :: y :: l) b b 1) by congruence.
    rewrite (last_lookup (b :: y :: l) b) by congruence.
    assert (Hprev : (b :: y :: l) !! (length (b :: y :: l) - 2)
                    = Some (List.last (removelast (b :: y :: l)) b)).
    { rewrite <- (removelast_lookup (b :: y :: l)) by (simpl; lia).
      replace (length (b :: y :: l) - 2)
        with (length (removelast (b :: y :: l)) - 1)
        by (rewrite removelast_length_bool; simpl; lia).
      apply last_lookup.
      change (removelast (b :: y :: l)) with (b :: removelast (y :: l)).
      congruence. }
    rewrite Hprev. cbn [eq_opt_bool].
    destruct (Bool.eqb (List.last (b :: y :: l) b)
                (List.last (removelast (b :: y :: l)) b)); cbn [negb].
    + apply rle_counted_twice.
    + change (removelast (b :: y :: l)) with (b :: removelast (y :: l)).
      apply rle_counted_twice.
Qed.

Lemma white_columns_length data c W H : length (white_columns data c W H) = W.
Proof. unfold white_columns. now rewrite length_map, length_seq. Qed.

Lemma getLines_shape data W H c :
  buffer_shape data W H c ->
  getLines data (Z.of_nat W) (Z.of_nat H)
  = Returned
      (drop_edges (dark_foot data c W H 0) (dark_foot data c W H (W - 1))
         (runLengths (white_columns data c W H) (Z.of_nat W))).
Proof.
  intros Hshape. unfold getLines. rewrite (scan_closed _ _ _ c Hshape).
  unfold trim, drop_edges. cbn [padding_left padding_right bmp].
  now destruct (dark_foot data c W H 0), (dark_foot data c W H (W - 1)).
Qed.

(** X5.  On a buffer of [W] by [H] pixels, [getLines] returns the
    run-length encoding of the column colours (a column is white when
    more than one of its pixels has 255 in its first channel), with the
    first run one too long and without a last column that differs from
    the one before it; the first run is then dropped unless the first
    channel of the bottom-left pixel is 0, and the last one unless that
    of the bottom-right pixel is 0. *)
Theorem getLines_closed_form (data : jsarray) (W H c : nat)
    (Hshape : buffer_shape data W H c) :
  getLines data (Z.of_nat W) (Z.of_nat H)
  = Returned
      (drop_edges (dark_foot data c W H 0) (dark_foot data c W H (W - 1))
         (lengthen_first (rle (settled (white_columns data c W H))))).
Proof.
  rewrite (getLines_shape _ _ _ c Hshape).
  pose proof (runLengths_closed (white_columns data c W H)) as Hruns.
  rewrite white_columns_length in Hruns. now rewrite Hruns.
Qed.

Lemma getLines_closed_form_witness :
  let data :=
    of_bytes [0; 255; 255; 0; 0; 255; 0; 0; 0; 255; 255; 0]%Z in
  getLines data (Z.of_nat 4) (Z.of_nat 3)
  = Returned
      (drop_edges (dark_foot data 1 4 3 0) (dark_foot data 1 4 3 (4 - 1))
         (lengthen_first (rle (settled (white_columns data 1 4 3))))).
Proof.
  apply (getLines_closed_form
           (of_bytes [0; 255; 255; 0; 0; 255; 0; 0; 0; 255; 255; 0]%Z) 4 3 1).
  split; [lia | lia | reflexivity].
Defined.

(** ** getLines: what the runs look like *)

Lemma rle_step_positive bmp width st col :
  1 <= count st -> Forall (fun n => 1 <= n) (lines st) ->
  1 <= count (rle_step bmp width st col)
  /\ Forall (fun n => 1 <= n) (lines (rle_step bmp width st col)).
Proof.
  intros Hc Hl. unfold rle_step.
  destruct (eq_opt_bool (bmp !! col) (curr st)); cbn [count lines].
  - split; [lia|]. destruct (Z.of_nat col =? width - 1)%Z; [|exact Hl].
    apply Forall_app. split; [exact Hl|]. repeat constructor. lia.
  - split; [lia|]. apply Forall_app. split; [exact Hl|]. now repeat constructor.
Qed.

Lemma runLengths_positive bmp width :
  Forall (fun n => 1 <= n) (runLengths bmp width).
Proof.
  unfold runLengths.
  enough (Hinv : forall l st,
    1 <= count st -> Forall (fun n => 1 <= n) (lines st) ->
    Forall (fun n => 1 <= n) (lines (foldl (rle_step bmp width) st l))).
  { apply Hinv; cbn [count lines]; [lia|constructor]. }
  induction l as [|col l IH]; intros st Hc Hl; [exact Hl|].
  cbn [foldl]. destruct (rle_step_positive bmp width st col Hc Hl).
  now apply IH.
Qed.

(** X6.  Whatever it is called with, [getLines] returns a sequence of
    counts that are all at least 1. *)
Theorem getLines_runs_positive (data : jsarray) (width height : Z) :
  exists runs,
    getLines data width height = Returned runs
    /\ Forall (fun n => 1 <= n) runs.
Proof.
  eexists. split; [reflexivity|].
  set (st := scan data (js_channels data width height) width height).
  pose proof (runLengths_positive (bmp st) width) as Hruns.
  unfold trim, shift, pop.
  assert (Htail : forall l : list nat,
            Forall (fun n => 1 <= n) l -> Forall (fun n => 1 <= n) (tail l)).
  { intros l Hl. destruct Hl; [constructor|assumption]. }
  assert (Hpop : forall l : list nat,
            Forall (fun n => 1 <= n) l -> Forall (fun n => 1 <= n) (removelast l)).
  { intros l Hl. induction Hl as [|x l Hx Hl IH]; [constructor|].
    destruct l as [|y l]; [constructor|].
    change (removelast (x :: y :: l)) with (x :: removelast (y :: l)).
    now constructor. }
  destruct (padding_left st), (padding_right st); auto.
Qed.

(** X7.  When the first channel of both bottom corner pixels is 0
    nothing is dropped, and the returned runs add up to [W + 1], or to
    [W] when the last column differs from the one before it. *)
Theorem getLines_untrimmed_sum (data : jsarray) (W H c : nat)
    (Hshape : buffer_shape data W H c)
    (Hleft : dark_foot data c W H 0 = true)
    (Hright : dark_foot data c W H (W - 1) = true) :
  exists runs,
    getLines data (Z.of_nat W) (Z.of_nat H) = Returned runs
    /\ sum_list runs
       = if last_column_turns (white_columns data c W H) then W else S W.
Proof.
  rewrite (getLines_shape _ _ _ c Hshape), Hleft, Hright.
  eexists. split; [reflexivity|]. cbn [drop_edges].
  destruct W as [|n]; [destruct Hshape; lia|].
  apply runLengths_sum. apply white_columns_length.
Qed.

Lemma getLines_untrimmed_sum_witness :
  let data :=
    of_bytes [0; 255; 255; 0; 0; 255; 0; 0; 0; 255; 255; 0]%Z in
  exists runs,
    getLines data (Z.of_nat 4) (Z.of_nat 3) = Returned runs
    /\ sum_list runs
       = if last_column_turns (white_columns data 1 4 3) then 4 else S 4.
Proof.
  apply (getLines_untrimmed_sum
           (of_bytes [0; 255; 255; 0; 0; 255; 0; 0; 0; 255; 255; 0]%Z) 4 3 1).
  - split; [lia | lia | reflexivity].
  - reflexivity.
  - reflexivity.
Defined.

Lemma drop_edges_single left_dark right_dark n :
  drop_edges left_dark right_dark [n]
  = if (left_dark && right_dark)%bool then [n] else [].
Proof. now destruct left_dark, right_dark. Qed.

Lemma white_columns_uniform data c W H b :
  (forall col, col < W -> (1 <? column_matches data c W H col) = b) ->
  white_columns data c W H = replicate W b.
Proof.
  intros Hb. unfold white_columns.
  apply list_eq. intros k. rewrite list_lookup_fmap.
  destruct (Nat.lt_ge_cases k W) as [Hk|Hk].
  - rewrite lookup_seq_lt, lookup_replicate_2 by lia. simpl.
    now rewrite Hb.
  - rewrite lookup_seq_ge by lia. symmetry. now apply lookup_replicate_None.
Qed.

Lemma getLines_one_colour data W H c b :
  buffer_shape data W H c ->
  (forall col, col < W -> (1 <? column_matches data c W H col) = b) ->
  getLines data (Z.of_nat W) (Z.of_nat H)
  = Returned
      (if (dark_foot data c W H 0 && dark_foot data c W H (W - 1))%bool
       then [S W] else []).
Proof.
  intros Hshape Hb. rewrite (getLines_shape _ _ _ c Hshape).
  rewrite (white_columns_uniform _ _ _ _ b Hb).
  destruct W as [|n]; [destruct Hshape; lia|].
  rewrite runLengths_uniform. apply f_equal, drop_edges_single.
Qed.

(** X8.  An image of a single row has no white column (a column needs
    two pixels of 255): [getLines] returns the single run [W + 1] when
    the first channels of its first and last pixel are both 0, and
    nothing otherwise. *)
Theorem getLines_single_row (data : jsarray) (W c : nat)
    (Hshape : buffer_shape data W 1 c) :
  getLines data (Z.of_nat W) 1
  = Returned
      (if (strict_eq_num (cell data 0) (of_Z 0)
           && strict_eq_num (cell data ((W - 1) * c)) (of_Z 0))%bool
       then [S W] else []).
Proof.
  change 1%Z with (Z.of_nat 1).
  rewrite (getLines_one_colour data W 1 c false Hshape).
  - reflexivity.
  - intros col _. unfold column_matches. cbn [seq List.filter].
    now destruct (strict_eq_num _ _).
Qed.

Lemma getLines_single_row_witness :
  getLines (of_bytes [0; 255; 255; 9; 0; 7]%Z) (Z.of_nat 3) 1
  = Returned
      (if (strict_eq_num (cell (of_bytes [0; 255; 255; 9; 0; 7]%Z) 0) (of_Z 0)
           && strict_eq_num
                (cell (of_bytes [0; 255; 255; 9; 0; 7]%Z) ((3 - 1) * 2))
                (of_Z 0))%bool
       then [S 3] else []).
Proof.
  apply (getLines_single_row (of_bytes [0; 255; 255; 9; 0; 7]%Z) 3 2).
  split; [lia | lia | reflexivity].
Defined.

Lemma column_matches_all data c W H col v :
  (forall row, row < H -> cell data ((row * W + col) * c) = Num (of_Z v)) ->
  column_matches data c W H col = if (v =? 255)%Z then H else 0.
Proof.
  intros Hv. unfold column_matches.
  assert (Hf : forall n, n <= H ->
    length (List.filter
      (fun row => strict_eq_num (cell data ((row * W + col) * c)) (of_Z 255))
      (seq 0 n)) = if (v =? 255)%Z then n else 0).
  { induction n as [|n IH]; intros Hn; [now destruct (v =? 255)%Z|].
    rewrite seq_S, List.filter_app, length_app, IH by lia.
    change (0 + n) with n. cbn [List.filter]. rewrite Hv by lia.
    unfold strict_eq_num, eqb, of_Z, Qeq_bool. simpl.
    rewrite !Z.mul_1_r.
    destruct (Z.eqb_spec v 255); simpl; lia. }
  now apply Hf.
Qed.

Lemma getLines_blank_cells (data : jsarray) (W H c : nat) (white : bool) :
  buffer_shape data W H c ->
  (forall row col, row < H -> col < W ->
     cell data ((row * W + col) * c)
     = Num (of_Z (if white then 255 else 0))) ->
  getLines data (Z.of_nat W) (Z.of_nat H)
  = Returned (if white then [] else [S W]).
Proof.
  intros Hshape Hcell.
  pose proof (shape_height _ _ _ _ Hshape) as HH.
  pose proof (shape_width _ _ _ _ Hshape) as HW.
  rewrite (getLines_one_colour data W H c (white && (1 <? H)) Hshape).
  - unfold dark_foot, column_last. destruct H as [|h]; [lia|].
    rewrite !Hcell by lia. now destruct white.
  - intros col Hcol.
    rewrite (column_matches_all data c W H col (if white then 255 else 0))
      by (intros row Hr; now apply Hcell).
    destruct white; simpl; [reflexivity|].
    now destruct (Nat.ltb_spec 1 0).
Qed.

(** X9.  A buffer whose pixels all have 255 in their first channel
    (a blank page) gives no run at all; one whose pixels all have 0
    there gives the single run [W + 1]. *)
Theorem getLines_blank (data : jsarray) (W H c : nat) (white : bool)
    (Hshape : buffer_shape data W H c)
    (Hblank : forall p, p < W * H ->
       cell data (p * c) = Num (of_Z (if white then 255 else 0))) :
  getLines data (Z.of_nat W) (Z.of_nat H)
  = Returned (if white then [] else [S W]).
Proof.
  apply (getLines_blank_cells data W H c white Hshape).
  intros row col Hr Hc. apply Hblank. nia.
Qed.

Lemma getLines_blank_witness :
  getLines (of_bytes (repeat 255%Z 12)) (Z.of_nat 2) (Z.of_nat 2)
  = Returned (if true then [] else [S 2]).
Proof.
  apply (getLines_blank (of_bytes (repeat 255%Z 12)) 2 2 3 true).
  - split; [lia | lia | reflexivity].
  - intros p Hp.
    destruct p as [|[|[|[|p]]]]; try reflexivity. simpl in Hp. lia.
Defined.

(** X10.  [getLines] reads only the first channel of each pixel: two
    buffers of one shape that agree there give the same runs. *)
Theorem getLines_first_channel_only (data data' : jsarray) (W H c : nat)
    (Hshape : buffer_shape data W H c)
    (Hshape' : buffer_shape data' W H c)
    (Hsame : forall p, p < W * H -> cell data (p * c) = cell data' (p * c)) :
  getLines data (Z.of_nat W) (Z.of_nat H)
  = getLines data' (Z.of_nat W) (Z.of_nat H).
Proof.
  assert (Hcell : forall row col, row < H -> col < W ->
            cell data ((row * W + col) * c) = cell data' ((row * W + col) * c)).
  { intros row col Hr Hc. apply Hsame. nia. }
  rewrite (getLines_shape _ _ _ c Hshape), (getLines_shape _ _ _ c Hshape').
  assert (Hfoot : forall col, col < W ->
            dark_foot data c W H col = dark_foot data' c W H col).
  { intros col Hcol. unfold dark_foot, column_last.
    destruct H as [|h]; [reflexivity|]. now rewrite Hcell by lia. }
  assert (Hcols : white_columns data c W H = white_columns data' c W H).
  { unfold white_columns. apply map_ext_in. intros col Hcol.
    apply in_seq in Hcol. f_equal. unfold column_matches. f_equal.
    apply List.filter_ext_in. intros row Hrow. apply in_seq in Hrow.
    now rewrite Hcell by lia. }
  destruct Hshape as [HW _ _].
  now rewrite Hcols, !Hfoot by lia.
Qed.

Lemma getLines_first_channel_only_witness :
  getLines (of_bytes [0; 1; 2; 255; 3; 4]%Z) (Z.of_nat 2) (Z.of_nat 1)
  = getLines (of_bytes [0; 9; 9; 255; 8; 8]%Z) (Z.of_nat 2) (Z.of_nat 1).
Proof.
  apply (getLines_first_channel_only
           (of_bytes [0; 1; 2; 255; 3; 4]%Z)
           (of_bytes [0; 9; 9; 255; 8; 8]%Z) 2 1 3).
  - split; [lia | lia | reflexivity].
  - split; [lia | lia | reflexivity].
  - intros p Hp. destruct p as [|[|p]]; reflexivity.
Defined.

(** ** applySimpleThreshold: further behaviour *)



Lemma threshold127_fixed v :
  v = of_Z 0 \/ v = of_Z 255 ->
  threshold127 ((v + v + v) / three)%js = v.
Proof. intros [-> | ->]; reflexivity. Qed.

Lemma threshold127_cases v :
  threshold127 v = of_Z 0 \/ threshold127 v = of_Z 255.
Proof. unfold threshold127. destruct (v > of_Z 127)%js; tauto. Qed.

Lemma simple_threshold_pixels data W H c :
  buffer_shape data W H c -> 3 <= c ->
  exists out,
    applySimpleThreshold (W * H) data (Z.of_nat W) (Z.of_nat H) = Some out
    /\ buffer_shape out W H c
    /\ forall p j, p < W * H -> j < c ->
         cell out (p * c + j)
         = if j <? 3 then Num (threshold127 (mean_at data (p * c)))
           else cell data (p * c + j).
Proof.
  intros Hshape Hc.
  destruct (simple_loop_pixels c _ (channels_key _ _ _ _ Hshape) (W * H) Hc
              (W * H) 0 (of_Z 0) data (W * H))
    as (out & Hrun & Hlen & Hcells); try lia.
  - apply (is_key_of_nat 0).
  - apply Hshape.
  - exists out. split; [exact Hrun|]. split.
    + destruct Hshape as [HW HH _]. now split.
    + intros p j Hp Hj. now rewrite (Hcells p j Hp Hj).
Qed.

(** X12.  With at least three values per pixel, thresholding a buffer
    that has been thresholded changes nothing: the second run returns
    an array of the same length with the same values. *)
Theorem applySimpleThreshold_idempotent (data : jsarray) (W H c : nat)
    (Hshape : buffer_shape data W H c) (Hc : 3 <= c) :
  exists out out',
    applySimpleThreshold (W * H) data (Z.of_nat W) (Z.of_nat H) = Some out
    /\ applySimpleThreshold (W * H) out (Z.of_nat W) (Z.of_nat H) = Some out'
    /\ data_length out' = data_length out
    /\ forall p j, p < W * H -> j < c ->
         cell out' (p * c + j) = cell out (p * c + j).
Proof.
  destruct (simple_threshold_pixels data W H c Hshape Hc)
    as (out & Hrun & Hshape1 & Hcells).
  destruct (simple_threshold_pixels out W H c Hshape1 Hc)
    as (out' & Hrun' & Hshape2 & Hcells').
  exists out, out'. split; [exact Hrun|]. split; [exact Hrun'|]. split.
  - now rewrite (shape_length _ _ _ _ Hshape1), (shape_length _ _ _ _ Hshape2).
  - intros p j Hp Hj. rewrite (Hcells' p j Hp Hj).
    destruct (Nat.ltb_spec j 3) as [Hj3|Hj3]; [|reflexivity].
    rewrite (Hcells p j Hp Hj).
    destruct (Nat.ltb_spec j 3); [|lia]. f_equal.
    unfold mean_at.
    pose proof (Hcells p 0 Hp ltac:(lia)) as Hc0.
    pose proof (Hcells p 1 Hp ltac:(lia)) as Hc1.
    pose proof (Hcells p 2 Hp ltac:(lia)) as Hc2.
    rewrite Nat.add_0_r in Hc0. simpl in Hc0, Hc1, Hc2.
    rewrite Hc0, Hc1, Hc2. simpl to_number.
    apply threshold127_fixed, threshold127_cases.
Qed.

Lemma applySimpleThreshold_idempotent_witness :
  exists out out',
    applySimpleThreshold (2 * 1)
      (of_bytes [127; 127; 127; 255; 127; 128; 127; 9]%Z)
      (Z.of_nat 2) (Z.of_nat 1) = Some out
    /\ applySimpleThreshold (2 * 1) out (Z.of_nat 2) (Z.of_nat 1) = Some out'
    /\ data_length out' = data_length out
    /\ forall p j, p < 2 * 1 -> j < 4 ->
         cell out' (p * 4 + j) = cell out (p * 4 + j).
Proof.
  apply (applySimpleThreshold_idempotent
           (of_bytes [127; 127; 127; 255; 127; 128; 127; 9]%Z) 2 1 4).
  - split; [lia | lia | reflexivity].
  - lia.
Defined.

Lemma column_matches_thresholded data out W H c col :
  3 <= c -> col < W ->
  (forall p j, p < W * H -> j < c ->
     cell out (p * c + j)
     = if j <? 3 then Num (threshold127 (mean_at data (p * c)))
       else cell data (p * c + j)) ->
  column_matches out c W H col = bright_count data c W H col
  /\ dark_foot out c W H col
     = match H with
       | 0 => false
       | S h => negb (bright data c W h col)
       end.
Proof.
  intros Hc Hcol Hcells.
  assert (Hpix : forall row, row < H ->
            cell out ((row * W + col) * c)
            = Num (threshold127 (mean_at data ((row * W + col) * c)))).
  { intros row Hrow.
    pose proof (Hcells (row * W + col) 0 ltac:(nia) ltac:(lia)) as Hc0.
    now rewrite Nat.add_0_r in Hc0. }
  split.
  - unfold column_matches, bright_count. f_equal.
    apply List.filter_ext_in. intros row Hrow. apply in_seq in Hrow.
    rewrite Hpix by lia. unfold bright, threshold127.
    now destruct (_ > _)%js.
  - unfold dark_foot, column_last. destruct H as [|h]; [reflexivity|].
    rewrite Hpix by lia. unfold bright, threshold127.
    now destruct (_ > _)%js.
Qed.

(** X13.  The simple threshold followed by [getLines], on a buffer with
    at least three values per pixel: a column is white when more than
    one of its pixels has a mean above 127, and an edge run is kept
    when the bottom pixel of that edge has a mean of at most 127. *)
Theorem getLines_after_simple_threshold (data : jsarray) (W H c : nat)
    (Hshape : buffer_shape data W H c) (Hc : 3 <= c) :
  exists out,
    applySimpleThreshold (W * H) data (Z.of_nat W) (Z.of_nat H) = Some out
    /\ getLines out (Z.of_nat W) (Z.of_nat H)
       = Returned
           (drop_edges (negb (bright data c W (H - 1) 0))
              (negb (bright data c W (H - 1) (W - 1)))
              (lengthen_first
                 (rle (settled
                    (map (fun col => 1 <? bright_count data c W H col)
                       (seq 0 W)))))).
Proof.
  destruct (simple_threshold_pixels data W H c Hshape Hc)
    as (out & Hrun & Hshape1 & Hcells).
  exists out. split; [exact Hrun|].
  pose proof (shape_width _ _ _ _ Hshape) as HW.
  pose proof (shape_height _ _ _ _ Hshape) as HH.
  rewrite (getLines_shape _ _ _ c Hshape1).
  destruct (column_matches_thresholded data out W H c 0 Hc ltac:(lia) Hcells)
    as [_ ->].
  destruct (column_matches_thresholded data out W H c (W - 1) Hc ltac:(lia) Hcells)
    as [_ ->].
  assert (Hcols : white_columns out c W H
                  = map (fun col => 1 <? bright_count data c W H col) (seq 0 W)).
  { unfold white_columns. apply map_ext_in. intros col Hcol.
    apply in_seq in Hcol.
    destruct (column_matches_thresholded data out W H c col Hc ltac:(lia) Hcells)
      as [-> _]. reflexivity. }
  pose proof (runLengths_closed (white_columns out c W H)) as Hruns.
  rewrite white_columns_length in Hruns. rewrite Hruns, Hcols.
  destruct H as [|h]; [lia|]. now replace (S h - 1) with h by lia.
Qed.

Lemma getLines_after_simple_threshold_witness :
  let data := of_bytes [200; 210; 220; 10; 20; 30; 250; 250; 250;
                        190; 200; 210; 0; 40; 50; 130; 140; 150]%Z in
  exists out,
    applySimpleThreshold (3 * 2) data (Z.of_nat 3) (Z.of_nat 2) = Some out
    /\ getLines out (Z.of_nat 3) (Z.of_nat 2)
       = Returned
           (drop_edges (negb (bright data 3 3 (2 - 1) 0))
              (negb (bright data 3 3 (2 - 1) (3 - 1)))
              (lengthen_first
                 (rle (settled
                    (map (fun col => 1 <? bright_count data 3 3 2 col)
                       (seq 0 3)))))).
Proof.
  apply (getLines_after_simple_threshold
           (of_bytes [200; 210; 220; 10; 20; 30; 250; 250; 250;
                      190; 200; 210; 0; 40; 50; 130; 140; 150]%Z) 3 2 3).
  - split; [lia | lia | reflexivity].
  - lia.
Defined.

(** X14.  With [width * height] equal to zero, neither being negative,
    the stride is infinite: on a buffer that is not empty the simple
    threshold rewrites the first three values with the threshold of
    their mean, leaves the rest and returns. *)
Theorem applySimpleThreshold_zero_area (data : jsarray) (width height : Z)
    (fuel : nat)
    (Hw : (0 <= width)%Z) (Hh : (0 <= height)%Z)
    (Hzero : (width * height = 0)%Z)
    (Hdata : 0 < data_length data) :
  exists out,
    applySimpleThreshold (S fuel) data width height = Some out
    /\ forall k,
         cell out k
         = if k <? 3 then Num (threshold127 (mean_at data 0)) else cell data k.
Proof.
  unfold applySimpleThreshold, js_channels. rewrite Hzero. cbn [Z.eqb].
  destruct (Nat.eqb_spec (data_length data) 0); [lia|].
  destruct (Z.ltb_spec width 0); [lia|]. destruct (Z.ltb_spec height 0); [lia|].
  cbn [orb simple_loop].
  rewrite (lt_key _ 0 _ (is_key_of_nat 0)).
  destruct (Nat.ltb_spec 0 (data_length data)); [|lia].
  rewrite (simple_body_key _ _ 0 (is_key_of_nat 0)).
  exists (put3 data 0 (threshold127 (mean_at data 0))). split.
  - now destruct fuel.
  - intros k. destruct (Nat.ltb_spec k 3).
    + apply cell_put3_in. lia.
    + apply cell_put3_out. lia.
Qed.

Lemma applySimpleThreshold_zero_area_witness :
  exists out,
    applySimpleThreshold (S 0) (of_bytes [200; 10; 90; 40]%Z) 0 5 = Some out
    /\ forall k,
         cell out k
         = if k <? 3
           then Num (threshold127 (mean_at (of_bytes [200; 10; 90; 40]%Z) 0))
           else cell (of_bytes [200; 10; 90; 40]%Z) k.
Proof.
  apply (applySimpleThreshold_zero_area (of_bytes [200; 10; 90; 40]%Z) 0 5 0).
  - lia.
  - lia.
  - reflexivity.
  - unfold data_length. simpl. lia.
Defined.

(** ** applyAdaptiveThreshold: windows without area *)

Lemma all_doubles_set a i x :
  all_doubles a -> is_double x -> all_doubles (arr_set a i x).
Proof.
  intros Ha Hx k y. destruct (Nat.eq_dec i k) as [<-|Hne].
  - rewrite arr_get_set_eq. now intros [= <-].
  - rewrite arr_get_set_ne by exact Hne. apply Ha.
Qed.

Lemma all_doubles_zeros n : all_doubles (replicate n (Some (of_Z 0))).
Proof.
  intros k x. unfold arr_get.
  destruct (replicate n (Some (of_Z 0)) !! k) as [o|] eqn:E; [|discriminate].
  apply lookup_replicate in E as [-> _]. intros [= <-]. reflexivity.
Qed.

Lemma int_get_double I z : all_doubles I -> is_double (int_get I z).
Proof.
  intros HI. unfold int_get. destruct (z <? 0)%Z; [reflexivity|].
  destruct (arr_get I (Z.to_nat z)) as [x|] eqn:E; [|reflexivity].
  simpl. now apply (HI (Z.to_nat z)).
Qed.

(** Every entry of the integral image is a double, whatever the buffer
    holds. *)
Lemma pass1_doubles channels width height data I :
  all_doubles I ->
  all_doubles (p1_integral (pass1 channels width height data I)).
Proof.
  intros HI. unfold pass1.
  apply (foldl_seq_invariant (fun _ st => all_doubles (p1_integral st)));
    [exact HI|].
  intros i st _ Hst. unfold pass1_column.
  apply (foldl_seq_invariant (fun _ st => all_doubles (p1_integral st)));
    [exact Hst|].
  intros j st' _ Hst'. unfold pass1_body. cbv zeta. cbn [p1_integral].
  apply all_doubles_set; [exact Hst'|].
  destruct (Z.of_nat i =? 0)%Z; apply is_double_rounded.
Qed.

(** With both rows of the window equal the four corners cancel, and
    nothing is below nothing. *)
Lemma flat_window_test (px a b : number) :
  is_double b ->
  lt (fmul px (of_Z 0)) (fmul (fadd (fsub (fsub a a) b) b) one_minus_t)
  = false.
Proof.
  intros Hb. rewrite one_minus_t_value.
  destruct (fsub_self a) as [->| ->].
  - rewrite (fsub_zero_l b Hb).
    destruct (fadd_neg_l b) as [->| ->].
    + rewrite fmul_zero_l. now destruct (fmul_zero_r px) as [->| ->].
    + rewrite fmul_nan_l. apply lt_nan_r.
  - rewrite fsub_nan_l, fadd_nan_l, fmul_nan_l. apply lt_nan_r.
Qed.

Lemma pass2_value_flat_window px I W H i j :
  all_doubles I ->
  i < W -> j < H -> W < 4 \/ H = 1 ->
  pass2_value px I (Z.of_nat W) (Z.of_nat H) i j = of_Z 255.
Proof.
  intros HI Hi Hj Hflat. unfold pass2_value. cbv zeta.
  pose proof (half_bracket_nonneg (Z.of_nat W) ltac:(lia)) as Hs2.
  assert (Hy : clamp_high (Z.of_nat H) (Z.of_nat j + half_bracket (Z.of_nat W))
               = clamp_low (Z.of_nat j - half_bracket (Z.of_nat W))).
  { destruct Hflat as [HW|HH].
    - assert (Hs : half_bracket (Z.of_nat W) = 0%Z).
      { unfold half_bracket, bracket.
        rewrite (Z.div_small (Z.of_nat W) 4) by lia. reflexivity. }
      rewrite Hs. unfold clamp_high, clamp_low.
      destruct (Z.geb_spec (Z.of_nat j + 0) (Z.of_nat H)),
        (Z.ltb_spec (Z.of_nat j - 0) 0); lia.
    - subst H. assert (j = 0) by lia. subst j. unfold clamp_high, clamp_low.
      destruct (Z.geb_spec (Z.of_nat 0 + half_bracket (Z.of_nat W)) (Z.of_nat 1)),
        (Z.ltb_spec (Z.of_nat 0 - half_bracket (Z.of_nat W)) 0); lia. }
  rewrite Hy, Z.sub_diag, Z.mul_0_r. unfold window_sum.
  rewrite flat_window_test; [reflexivity|]. now apply int_get_double.
Qed.

Section Pass2Written.
Variables (W H c : nat) (channels : number) (I : list (option number)).
Variable v : number.
Hypothesis channels_c : is_key channels c.
Hypothesis writes_v : forall px i j, i < W -> j < H ->
  pass2_value px I (Z.of_nat W) (Z.of_nat H) i j = v.

Lemma pass2_column_written i d :
  i < W ->
  written_upto v W H c i 0 d ->
  written_upto v W H c i H
    (foldl (pass2_body channels (Z.of_nat W) (Z.of_nat H) I i) d (seq 0 H)).
Proof.
  intros Hi Hd. apply (foldl_seq_invariant (written_upto v W H c i)); [exact Hd|].
  intros n s Hn Hs i' j' k Hij Hk. rewrite (pass2_body_key _ c) by assumption.
  rewrite writes_v by assumption.
  destruct (cell_put3_cases s ((n * W + i) * c) v ((j' * W + i') * c + k))
    as [E|E]; [exact E|].
  rewrite E. destruct (Nat.eq_dec i' i) as [->|Hne];
    [destruct (Nat.eq_dec j' n) as [->|Hj]|].
  - rewrite <- E. apply cell_put3_in. lia.
  - apply Hs; [lia|exact Hk].
  - apply Hs; [lia|exact Hk].
Qed.

(** When the second pass writes the same value for every pixel, that
    value is in the first three channels of every pixel at the end. *)
Lemma pass2_written d i j k :
  i < W -> j < H -> k < 3 ->
  cell (pass2 channels (Z.of_nat W) (Z.of_nat H) I d) ((j * W + i) * c + k)
  = Num v.
Proof.
  intros Hi Hj Hk. unfold pass2. rewrite !Nat2Z.id.
  enough (Hall : written_upto v W H c W 0
    (foldl (fun data i =>
              foldl (pass2_body channels (Z.of_nat W) (Z.of_nat H) I i) data
                (seq 0 H)) d (seq 0 W))).
  { apply Hall; [left; lia|exact Hk]. }
  apply (foldl_seq_invariant (fun i => written_upto v W H c i 0)).
  - intros i' j' k' [[Hlt _]|[_ Hlt]]; lia.
  - intros n s Hn Hs. pose proof (pass2_column_written n s Hn Hs) as Hcol.
    intros i' j' k' Hij Hk'. apply Hcol; [|exact Hk'].
    destruct Hij as [[Hlt Hj']|[_ Hlt]]; [|lia].
    destruct (Nat.eq_dec i' n); [right|left]; lia.
Qed.
End Pass2Written.

Lemma adaptive_flat_window data W H c :
  buffer_shape data W H c -> W < 4 \/ H = 1 ->
  forall i j k, i < W -> j < H -> k < 3 ->
    cell (pass2 (js_channels data (Z.of_nat W) (Z.of_nat H))
            (Z.of_nat W) (Z.of_nat H)
            (p1_integral (first_pass data (Z.of_nat W) (Z.of_nat H)))
            (p1_data (first_pass data (Z.of_nat W) (Z.of_nat H))))
      ((j * W + i) * c + k)
    = Num (of_Z 255).
Proof.
  intros Hshape Hflat i j k Hi Hj Hk.
  apply (pass2_written W H c _ _ (of_Z 255) (channels_key _ _ _ _ Hshape));
    try assumption.
  intros px i' j' Hi' Hj'. apply pass2_value_flat_window; try assumption.
  apply pass1_doubles, all_doubles_zeros.
Qed.

(** X15.  On an image less than 4 pixels wide, or of a single row, the
    window of the adaptive threshold has no area, every comparison
    fails and every pixel comes out as 255, whatever the image holds
    (with [2^32] pixels or more, which no array holds, the allocation
    fails instead). *)
Theorem applyAdaptiveThreshold_flat_window (data : jsarray) (W H c : nat)
    (Hshape : buffer_shape data W H c) (Hflat : W < 4 \/ H = 1) :
  (fits W H ->
   exists out,
     applyAdaptiveThreshold data (Z.of_nat W) (Z.of_nat H) = Returned out
     /\ forall i j k, i < W -> j < H -> k < 3 ->
          cell out ((j * W + i) * c + k) = Num (of_Z 255))
  /\ (~ fits W H ->
      applyAdaptiveThreshold data (Z.of_nat W) (Z.of_nat H)
      = Thrown RangeError).
Proof.
  split; [|apply applyAdaptiveThreshold_throws].
  intros Hfits. rewrite applyAdaptiveThreshold_returns by exact Hfits.
  eexists. split; [reflexivity|].
  now apply adaptive_flat_window.
Qed.

Lemma applyAdaptiveThreshold_flat_window_witness :
  exists out,
    applyAdaptiveThreshold
      (of_bytes [0; 0; 0; 255; 255; 255; 0; 0; 0; 9; 9; 9]%Z)
      (Z.of_nat 2) (Z.of_nat 2) = Returned out
    /\ forall i j k, i < 2 -> j < 2 -> k < 3 ->
         cell out ((j * 2 + i) * 3 + k) = Num (of_Z 255).
Proof.
  apply (applyAdaptiveThreshold_flat_window
           (of_bytes [0; 0; 0; 255; 255; 255; 0; 0; 0; 9; 9; 9]%Z) 2 2 3).
  - split; [lia | lia | reflexivity].
  - left. lia.
  - reflexivity.
Defined.

(** ** applyAdaptiveThreshold: every pixel against its window *)

Lemma neg_equiv a a' : equiv a a' -> equiv (neg a) (neg a').
Proof. destruct a, a'; simpl; try tauto. intros ->. reflexivity. Qed.

Lemma sub_equiv a a' b b' : equiv a a' -> equiv b b' -> equiv (a - b)%js (a' - b')%js.
Proof. intros Ha Hb. apply add_equiv; [exact Ha|now apply neg_equiv]. Qed.

Lemma is_zero_equiv q q' : (q == q')%Q -> is_zero q = is_zero q'.
Proof.
  unfold is_zero, Qeq. intros Hq.
  destruct (Z.eqb_spec (Qnum q) 0) as [E|E], (Z.eqb_spec (Qnum q') 0) as [E'|E'];
    try reflexivity; exfalso.
  - rewrite E in Hq. apply E'. nia.
  - rewrite E' in Hq. apply E. nia.
Qed.

Lemma is_neg_equiv q q' : (q == q')%Q -> is_neg q = is_neg q'.
Proof.
  unfold is_neg, Qeq. intros Hq.
  destruct (Z.ltb_spec (Qnum q) 0), (Z.ltb_spec (Qnum q') 0);
    try reflexivity; exfalso; nia.
Qed.

Lemma scale_inf_equiv s q q' :
  (q == q')%Q -> scale_inf s q = scale_inf s q'.
Proof.
  intros Hq. unfold scale_inf.
  now rewrite (is_zero_equiv _ _ Hq), (is_neg_equiv _ _ Hq).
Qed.

Lemma mul_equiv a a' b b' :
  equiv a a' -> equiv b b' -> equiv (a * b)%js (a' * b')%js.
Proof.
  destruct a, a', b, b'; simpl; try tauto;
    try (intros Hq _; rewrite (scale_inf_equiv _ _ _ Hq); apply equiv_refl);
    try (intros _ Hq; rewrite (scale_inf_equiv _ _ _ Hq); apply equiv_refl).
  intros -> ->. reflexivity.
Qed.

Lemma lt_equiv a a' b b' :
  equiv a a' -> equiv b b' -> (a < b)%js = (a' < b')%js.
Proof.
  destruct a, a', b, b'; simpl; try tauto. intros Ha Hb.
  destruct (Qlt_bool q0 q2) eqn:E.
  - apply Qlt_bool_iff. apply Qlt_bool_iff in E. now rewrite Ha, Hb.
  - apply not_true_is_false. rewrite Qlt_bool_iff, Ha, Hb, <- Qlt_bool_iff.
    now rewrite E.
Qed.

Lemma put3_length_inside d k v :
  k + 3 <= data_length d -> data_length (put3 d k v) = data_length d.
Proof. intros Hk. rewrite data_length_put3. lia. Qed.

Section AdaptiveLength.
Variables (W H c : nat) (channels : number) (L : nat).
Hypothesis channels_c : is_key channels c.
Hypothesis three_channels : 3 <= c.
Hypothesis L_shape : L = c * (W * H).

Lemma pixel_inside i j : i < W -> j < H -> (j * W + i) * c + 3 <= L.
Proof.
  intros Hi Hj. subst L.
  assert (j * W + i + 1 <= W * H) by nia.
  assert ((j * W + i + 1) * c <= W * H * c) by (apply Nat.mul_le_mono_r; lia).
  lia.
Qed.

Lemma pass1_keeps_length data I :
  data_length data = L ->
  data_length (p1_data (pass1 channels (Z.of_nat W) (Z.of_nat H) data I)) = L.
Proof.
  intros Hlen. unfold pass1. rewrite !Nat2Z.id.
  apply (foldl_seq_invariant (fun _ st => data_length (p1_data st) = L));
    [exact Hlen|].
  intros i st Hi Hst. unfold pass1_column.
  apply (foldl_seq_invariant (fun _ st => data_length (p1_data st) = L));
    [exact Hst|].
  intros j st' Hj Hst'. unfold pass1_body. cbv zeta. cbn [p1_data].
  rewrite (set3_key _ _ _ _ (pixel_key channels c j W i channels_c)).
  rewrite put3_length_inside; [exact Hst'|].
  rewrite Hst'. now apply pixel_inside.
Qed.

Lemma pass2_keeps_length data I :
  data_length data = L ->
  data_length (pass2 channels (Z.of_nat W) (Z.of_nat H) I data) = L.
Proof.
  intros Hlen. unfold pass2. rewrite !Nat2Z.id.
  apply (foldl_seq_invariant (fun _ d => data_length d = L)); [exact Hlen|].
  intros i d Hi Hd.
  apply (foldl_seq_invariant (fun _ d => data_length d = L)); [exact Hd|].
  intros j d' Hj Hd'. rewrite (pass2_body_key _ c) by assumption.
  rewrite put3_length_inside; [exact Hd'|].
  rewrite Hd'. now apply pixel_inside.
Qed.
End AdaptiveLength.

(** The second pass on a buffer with at least three values per pixel,
    channel by channel. *)
Lemma pass2_channels data1 W H c channels I :
  is_key channels c -> 3 <= c ->
  forall i j k, i < W -> j < H -> k < c ->
    cell (pass2 channels (Z.of_nat W) (Z.of_nat H) I data1)
      ((j * W + i) * c + k)
    = if k <? 3 then Num (pass2_pixel data1 W H c I i j)
      else cell data1 ((j * W + i) * c + k).
Proof.
  intros Hch Hc i j k Hi Hj Hk. unfold pass2. rewrite !Nat2Z.id.
  enough (Hall : pass2_inv data1 W H c I W 0
    (foldl (fun data i =>
              foldl (pass2_body channels (Z.of_nat W) (Z.of_nat H) I i) data
                (seq 0 H)) data1 (seq 0 W))).
  { rewrite Hall by assumption. unfold processed.
    destruct (Nat.ltb_spec i W); [|lia]. reflexivity. }
  apply (foldl_seq_invariant (fun i => pass2_inv data1 W H c I i 0)).
  - intros i' j' k' _ _ _. unfold processed.
    destruct (Nat.ltb_spec i' 0); [lia|]. now rewrite andb_false_r.
  - intros n s Hn Hs.
    assert (Hend : pass2_inv data1 W H c I n H
      (foldl (pass2_body channels (Z.of_nat W) (Z.of_nat H) I n) s (seq 0 H))).
    { apply (foldl_seq_invariant (pass2_inv data1 W H c I n)); [exact Hs|].
      intros m s' Hm Hs'. now apply (pass2_body_inv data1 W H c channels I). }
    intros i' j' k' Hi' Hj' Hk'. rewrite Hend by assumption.
    replace (processed (S n) 0 i' j') with (processed n H i' j'); [reflexivity|].
    unfold processed.
    destruct (Nat.ltb_spec i' (S n)), (Nat.ltb_spec i' n), (Nat.eqb_spec i' (S n)),
      (Nat.eqb_spec i' n), (Nat.ltb_spec j' H); simpl; try reflexivity; lia.
Qed.

(** The length of the buffer stays as it is. *)
Lemma adaptive_length data W H c :
  buffer_shape data W H c -> 3 <= c ->
  data_length
    (pass2 (js_channels data (Z.of_nat W) (Z.of_nat H))
       (Z.of_nat W) (Z.of_nat H)
       (p1_integral (first_pass data (Z.of_nat W) (Z.of_nat H)))
       (p1_data (first_pass data (Z.of_nat W) (Z.of_nat H))))
  = data_length data.
Proof.
  intros Hshape Hc.
  pose proof (channels_key _ _ _ _ Hshape) as Hch.
  pose proof (shape_length _ _ _ _ Hshape) as Hlen.
  unfold first_pass. rewrite <- Nat2Z.inj_mul, Nat2Z.id.
  rewrite (pass2_keeps_length W H c _ (c * (W * H)) Hch Hc eq_refl);
    [now rewrite Hlen|].
  now apply (pass1_keeps_length W H c _ (c * (W * H)) Hch Hc eq_refl).
Qed.

(** *** Integer greyscale values: the test in doubles is the exact one *)

Lemma darker_test (A S : Z) :
  (0 <= A <= 2 ^ 42)%Z -> (Z.abs S <= 2 ^ 42)%Z ->
  lt (of_Z A) (fmul (of_Z S) one_minus_t)
  = Qlt_bool (inject_Z A) (inject_Z S * (17 # 20)).
Proof.
  intros HA HS. rewrite one_minus_t_value.
  unfold fmul, of_Z, mul, rounded.
  set (c := (7656119366529843 # 9007199254740992)%Q).
  assert (Hc : (0 <= c)%Q /\ (c <= 17 # 20)%Q
               /\ ((17 # 20) - c <= 1 # 36028797018963968)%Q)
    by (repeat split; discriminate).
  change (2 ^ 42)%Z with 4398046511104%Z in *.
  assert (HS1 : (inject_Z S <= inject_Z 4398046511104)%Q)
    by (rewrite <- Zle_Qle; lia).
  assert (HS2 : (inject_Z (- 4398046511104) <= inject_Z S)%Q)
    by (rewrite <- Zle_Qle; lia).
  assert (HA0 : (inject_Z 0 <= inject_Z A)%Q) by (rewrite <- Zle_Qle; lia).
  change (inject_Z 4398046511104) with 4398046511104%Q in HS1.
  change (inject_Z (- 4398046511104)) with (- 4398046511104)%Q in HS2.
  change (inject_Z 0) with 0%Q in HA0.
  destruct (round64_error (inject_Z S * c) 42) as (r & -> & Er & Herr).
  - lia.
  - change (pow2 42) with 4398046511104%Q. apply Qabs_Qle_condition.
    destruct Hc as (Hc0 & Hc1 & _). split; nra.
  - change (pow2 (42 - 53)) with (1 # 2048)%Q in Herr.
    apply Qabs_Qle_condition in Herr.
    unfold lt.
    destruct (Qlt_le_dec (inject_Z A) (inject_Z S * (17 # 20))) as [Hlt|Hge].
    + replace (Qlt_bool (inject_Z A) (inject_Z S * (17 # 20))) with true
        by (symmetry; apply Qlt_bool_iff; exact Hlt).
      apply Qlt_bool_iff.
      assert (Hgap : (inject_Z A + (1 # 20) <= inject_Z S * (17 # 20))%Q).
      { assert (20 * A + 1 <= 17 * S)%Z.
        { assert (20 * A < 17 * S)%Z; [|lia].
          rewrite Zlt_Qlt, !inject_Z_mult.
          change (inject_Z 20) with 20%Q. change (inject_Z 17) with 17%Q. lra. }
        assert (inject_Z (20 * A + 1) <= inject_Z (17 * S))%Q
          by (rewrite <- Zle_Qle; assumption).
        rewrite inject_Z_plus, !inject_Z_mult in H0.
        change (inject_Z 20) with 20%Q in H0. change (inject_Z 17) with 17%Q in H0.
        change (inject_Z 1) with 1%Q in H0. lra. }
      destruct Hc as (Hc0 & Hc1 & Hc2). nra.
    + replace (Qlt_bool (inject_Z A) (inject_Z S * (17 # 20))) with false
        by (symmetry; apply not_true_is_false; rewrite Qlt_bool_iff; lra).
      apply not_true_is_false. rewrite Qlt_bool_iff.
      assert (Hr : (r <= inject_Z A)%Q).
      { rewrite Er. apply round_fin_le.
        - apply representable_Z. rewrite pow_53_bound. lia.
        - destruct Hc as (Hc0 & Hc1 & _). nra. }
      lra.
Qed.

Section WholeWindow.
Variables (data : jsarray) (W H c : nat).
Variable I : list (option number).
Hypothesis bytes : byte_pixels data c W H.
Hypothesis whole : whole_greys data c W H.
Hypothesis small : fits W H.
Hypothesis I_sums : forall i j, i < W -> j < H ->
  arr_get I (j * W + i) = Some (integral64 data c W i j).

Lemma int_get_whole (x y : Z) :
  (0 <= x < Z.of_nat W)%Z -> (0 <= y < Z.of_nat H)%Z ->
  int_get I (y * Z.of_nat W + x)
  = of_Z (rect_Z data c W (Z.to_nat x) (Z.to_nat y)).
Proof.
  intros Hx Hy. unfold int_get.
  destruct (Z.ltb_spec (y * Z.of_nat W + x) 0) as [E|_]; [nia|].
  replace (Z.to_nat (y * Z.of_nat W + x)) with (Z.to_nat y * W + Z.to_nat x)
    by nia.
  rewrite I_sums by lia. simpl.
  apply (integral64_whole data W H c bytes whole small); lia.
Qed.

Lemma window_Z_small (x1 x2 y1 y2 : Z) :
  (0 <= x1 < Z.of_nat W)%Z -> (0 <= x2 < Z.of_nat W)%Z ->
  (0 <= y1 < Z.of_nat H)%Z -> (0 <= y2 < Z.of_nat H)%Z ->
  (Z.abs (window_Z data c W x1 x2 y1 y2) <= 2 ^ 42)%Z.
Proof.
  intros Hx1 Hx2 Hy1 Hy2. unfold window_Z.
  pose proof (rect_Z_small data W H c bytes small (Z.to_nat x2) (Z.to_nat y2)
                ltac:(lia) ltac:(lia)).
  pose proof (rect_Z_small data W H c bytes small (Z.to_nat x2) (Z.to_nat y1)
                ltac:(lia) ltac:(lia)).
  pose proof (rect_Z_small data W H c bytes small (Z.to_nat x1) (Z.to_nat y2)
                ltac:(lia) ltac:(lia)).
  pose proof (rect_Z_small data W H c bytes small (Z.to_nat x1) (Z.to_nat y1)
                ltac:(lia) ltac:(lia)).
  change (2 ^ 40)%Z with 1099511627776%Z in *.
  change (2 ^ 42)%Z with 4398046511104%Z. lia.
Qed.

Lemma window_sum_whole (x1 x2 y1 y2 : Z) :
  (0 <= x1 < Z.of_nat W)%Z -> (0 <= x2 < Z.of_nat W)%Z ->
  (0 <= y1 < Z.of_nat H)%Z -> (0 <= y2 < Z.of_nat H)%Z ->
  window_sum I (Z.of_nat W) x1 x2 y1 y2
  = of_Z (window_Z data c W x1 x2 y1 y2).
Proof.
  intros Hx1 Hx2 Hy1 Hy2. unfold window_sum, window_Z.
  rewrite !int_get_whole by assumption.
  pose proof (rect_Z_small data W H c bytes small (Z.to_nat x2) (Z.to_nat y2)
                ltac:(lia) ltac:(lia)).
  pose proof (rect_Z_small data W H c bytes small (Z.to_nat x2) (Z.to_nat y1)
                ltac:(lia) ltac:(lia)).
  pose proof (rect_Z_small data W H c bytes small (Z.to_nat x1) (Z.to_nat y2)
                ltac:(lia) ltac:(lia)).
  pose proof (rect_Z_small data W H c bytes small (Z.to_nat x1) (Z.to_nat y1)
                ltac:(lia) ltac:(lia)).
  change (2 ^ 40)%Z with 1099511627776%Z in *.
  rewrite fsub_Z by (rewrite pow_53_bound; lia).
  rewrite fsub_Z by (rewrite pow_53_bound; lia).
  rewrite fadd_Z by (rewrite pow_53_bound; lia).
  reflexivity.
Qed.

Lemma window_total_whole (x1 x2 y1 y2 : Z) :
  (0 <= x1 < Z.of_nat W)%Z -> (0 <= x2 < Z.of_nat W)%Z ->
  (0 <= y1 < Z.of_nat H)%Z -> (0 <= y2 < Z.of_nat H)%Z ->
  equiv (window_total data c W x1 x2 y1 y2)
    (of_Z (window_Z data c W x1 x2 y1 y2)).
Proof.
  intros Hx1 Hx2 Hy1 Hy2. unfold window_total, window_Z.
  eapply equiv_trans.
  { apply add_equiv; [apply sub_equiv; [apply sub_equiv|]|];
      apply (rect_sum_whole data W H c bytes whole); lia. }
  unfold of_Z, sub, add, neg, equiv.
  unfold Z.sub. rewrite !inject_Z_plus, !inject_Z_opp. reflexivity.
Qed.

(** The value written for a pixel of such a buffer. *)
Lemma pass2_value_whole (i j : nat) :
  i < W -> j < H ->
  pass2_value (grey64 data c W i j) I (Z.of_nat W) (Z.of_nat H) i j
  = if below_window_mean data c W H i j then of_Z 0 else of_Z 255.
Proof.
  intros Hi Hj. unfold pass2_value, below_window_mean. cbv zeta.
  pose proof (half_bracket_nonneg (Z.of_nat W) ltac:(lia)) as Hs2.
  destruct (clamp_window (Z.of_nat W) (half_bracket (Z.of_nat W)) (Z.of_nat i))
    as [Hx1 Hx2]; [exact Hs2|lia|].
  destruct (clamp_window (Z.of_nat H) (half_bracket (Z.of_nat W)) (Z.of_nat j))
    as [Hy1 Hy2]; [exact Hs2|lia|].
  set (s2 := half_bracket (Z.of_nat W)) in *.
  set (x1 := clamp_low (Z.of_nat i - s2)) in *.
  set (x2 := clamp_high (Z.of_nat W) (Z.of_nat i + s2)) in *.
  set (y1 := clamp_low (Z.of_nat j - s2)) in *.
  set (y2 := clamp_high (Z.of_nat H) (Z.of_nat j + s2)) in *.
  set (n := ((x2 - x1) * (y2 - y1))%Z).
  assert (Hn : (0 <= n <= Z.of_nat W * Z.of_nat H)%Z) by (subst n; nia).
  pose proof (grey_Z_byte data c W H i j bytes Hi Hj) as Hg.
  pose proof (window_Z_small x1 x2 y1 y2 ltac:(lia) ltac:(lia)
                ltac:(lia) ltac:(lia)) as HS.
  assert (HA : (0 <= grey_Z data c W i j * n <= 2 ^ 42)%Z).
  { unfold fits in small. change (2 ^ 32)%Z with 4294967296%Z in small.
    change (2 ^ 42)%Z with 4398046511104%Z. nia. }
  rewrite (grey64_whole data c W H) by assumption.
  rewrite fmul_Z by (rewrite pow_53_bound; change (2 ^ 42)%Z with 4398046511104%Z in HA; lia).
  rewrite window_sum_whole by lia.
  rewrite (darker_test _ _ HA HS).
  rewrite (lt_equiv _ (of_Z (grey_Z data c W i j * n)) _
             (of_Z (window_Z data c W x1 x2 y1 y2) * Fin (17 # 20))%js).
  - reflexivity.
  - eapply equiv_trans;
      [apply mul_equiv; [apply (grey_whole data c W H); assumption
                        |apply equiv_refl]|].
    unfold of_Z, mul, equiv. rewrite inject_Z_mult. reflexivity.
  - apply mul_equiv; [|apply equiv_refl].
    apply window_total_whole; lia.
Qed.
End WholeWindow.

(** The adaptive threshold on a buffer of bytes with integer greyscale
    values. *)
Lemma adaptive_pixels data W H c :
  buffer_shape data W H c -> 3 <= c -> fits W H ->
  byte_pixels data c W H -> whole_greys data c W H ->
  forall i j k, i < W -> j < H -> k < c ->
    cell
      (pass2 (js_channels data (Z.of_nat W) (Z.of_nat H))
         (Z.of_nat W) (Z.of_nat H)
         (p1_integral (first_pass data (Z.of_nat W) (Z.of_nat H)))
         (p1_data (first_pass data (Z.of_nat W) (Z.of_nat H))))
      ((j * W + i) * c + k)
    = if k <? 3
      then Num (if below_window_mean data c W H i j
                then of_Z 0 else of_Z 255)
      else cell data ((j * W + i) * c + k).
Proof.
  intros Hshape Hc Hfits Hbytes Hwhole i j k Hi Hj Hk.
  pose proof (channels_key _ _ _ _ Hshape) as Hch.
  unfold first_pass. rewrite <- Nat2Z.inj_mul, Nat2Z.id.
  pose proof (pass1_spec data W H c _ Hch Hc) as (_ & HI & Hd).
  rewrite (pass2_channels _ W H c _ _ Hch Hc) by assumption.
  destruct (Nat.ltb_spec k 3) as [Hk3|Hk3].
  - f_equal. unfold pass2_pixel.
    pose proof (Hd i j 0 Hi Hj ltac:(lia)) as Hg.
    rewrite Nat.add_0_r in Hg. simpl in Hg. rewrite Hg. simpl to_number.
    now apply (pass2_value_whole data W H c).
  - rewrite (Hd i j k Hi Hj Hk).
    destruct (Nat.ltb_spec k 3); [lia|reflexivity].
Qed.

(** X16.  On a buffer of bytes with at least three values per pixel and
    integer greyscale values (the first three channels of every pixel
    add up to a multiple of 3), the adaptive threshold in doubles
    decides as exact arithmetic would: it returns an array of the same
    length in which a pixel's first three channels hold 0 when its
    greyscale value times the size of its window is below 17/20 of the
    sum of the greyscale values over the window, and 255 otherwise; the
    other channels keep their values. *)
Theorem applyAdaptiveThreshold_pixels (data : jsarray) (W H c : nat)
    (Hshape : buffer_shape data W H c) (Hc : 3 <= c) (Hfits : fits W H)
    (Hbytes : byte_pixels data c W H) (Hwhole : whole_greys data c W H) :
  exists out,
    applyAdaptiveThreshold data (Z.of_nat W) (Z.of_nat H) = Returned out
    /\ data_length out = data_length data
    /\ forall i j k, i < W -> j < H -> k < c ->
         cell out ((j * W + i) * c + k)
         = if k <? 3
           then Num (if below_window_mean data c W H i j
                     then of_Z 0 else of_Z 255)
           else cell data ((j * W + i) * c + k).
Proof.
  rewrite applyAdaptiveThreshold_returns by exact Hfits.
  eexists. split; [reflexivity|]. split.
  - now apply (adaptive_length data W H c).
  - now apply adaptive_pixels.
Qed.

Lemma applyAdaptiveThreshold_pixels_witness :
  let data := of_bytes (repeat 200%Z 16 ++ [0; 0; 0; 7] ++ repeat 200%Z 44)%Z in
  exists out,
    applyAdaptiveThreshold data (Z.of_nat 4) (Z.of_nat 4) = Returned out
    /\ data_length out = data_length data
    /\ forall i j k, i < 4 -> j < 4 -> k < 4 ->
         cell out ((j * 4 + i) * 4 + k)
         = if k <? 3
           then Num (if below_window_mean data 4 4 4 i j
                     then of_Z 0 else of_Z 255)
           else cell data ((j * 4 + i) * 4 + k).
Proof.
  apply (applyAdaptiveThreshold_pixels
           (of_bytes (repeat 200%Z 16 ++ [0; 0; 0; 7] ++ repeat 200%Z 44)%Z)
           4 4 4).
  - split; [lia | lia | reflexivity].
  - lia.
  - reflexivity.
  - intros i j k Hi Hj Hk.
    do 4 (destruct i as [|i]; [do 4 (destruct j as [|j];
      [do 3 (destruct k as [|k]; [eexists; split; [reflexivity|lia]|]); lia|]);
      lia|]); lia.
  - intros i j Hi Hj.
    do 4 (destruct i as [|i]; [do 4 (destruct j as [|j]; [reflexivity|]);
      lia|]); lia.
Defined.

(** X17.  An image less than 4 pixels wide, or of a single row, with at
    least three values per pixel, gives no run at all when the adaptive
    threshold is followed by [getLines] (with [2^32] pixels or more,
    which no array holds, the allocation fails instead). *)
Theorem getLines_after_flat_window (data : jsarray) (W H c : nat)
    (Hshape : buffer_shape data W H c) (Hc : 3 <= c)
    (Hflat : W < 4 \/ H = 1) :
  (fits W H ->
   exists out,
     applyAdaptiveThreshold data (Z.of_nat W) (Z.of_nat H) = Returned out
     /\ getLines out (Z.of_nat W) (Z.of_nat H) = Returned [])
  /\ (~ fits W H ->
      applyAdaptiveThreshold data (Z.of_nat W) (Z.of_nat H)
      = Thrown RangeError).
Proof.
  split; [|apply applyAdaptiveThreshold_throws].
  intros Hfits. rewrite applyAdaptiveThreshold_returns by exact Hfits.
  eexists. split; [reflexivity|].
  pose proof (adaptive_length data W H c Hshape Hc) as Hlen.
  apply (getLines_blank_cells _ W H c true).
  - destruct Hshape as [HW HH Hl]. split; [exact HW|exact HH|].
    now rewrite Hlen.
  - intros row col Hr Hcol.
    pose proof (adaptive_flat_window data W H c Hshape Hflat col row 0
                  Hcol Hr ltac:(lia)) as Hcell.
    now rewrite Nat.add_0_r in Hcell.
Qed.

Lemma getLines_after_flat_window_witness :
  exists out,
    applyAdaptiveThreshold
      (of_bytes [0; 0; 0; 255; 255; 255; 0; 0; 0; 9; 9; 9]%Z)
      (Z.of_nat 2) (Z.of_nat 2) = Returned out
    /\ getLines out (Z.of_nat 2) (Z.of_nat 2) = Returned [].
Proof.
  apply (getLines_after_flat_window
           (of_bytes [0; 0; 0; 255; 255; 255; 0; 0; 0; 9; 9; 9]%Z) 2 2 3).
  - split; [lia | lia | reflexivity].
  - lia.
  - left. lia.
  - reflexivity.
Defined.


(** ** isUrl: what the regular expression accepts *)

Lemma nullable_lang r : nullable r = true <-> lang r [].
Proof.
  induction r as [| |p|r1 IH1 r2 IH2|r1 IH1 r2 IH2|r IH]; simpl.
  - split; [discriminate|]. intros Hl. inversion Hl.
  - split; [constructor|reflexivity].
  - split; [discriminate|]. intros Hl. inversion Hl.
  - rewrite andb_true_iff, IH1, IH2. split.
    + intros [H1 H2]. apply (lang_cat r1 r2 [] [] H1 H2).
    + intros Hl. inversion Hl as [| |? ? l1 l2 H1 H2 Hr Hnil| | | |]; subst.
      apply app_eq_nil in Hnil as [-> ->]. now split.
  - rewrite orb_true_iff, IH1, IH2. split.
    + intros [H1|H2]; [now apply lang_alt_l|now apply lang_alt_r].
    + intros Hl. inversion Hl; subst; tauto.
  - split; [constructor|reflexivity].
Qed.

Lemma lang_star_cons r0 l0 :
  lang r0 l0 ->
  forall r c l, r0 = Star r -> l0 = c :: l ->
    exists l1 l2, l = l1 ++ l2 /\ lang r (c :: l1) /\ lang (Star r) l2.
Proof.
  induction 1 as [|p0 c0 Hp0|q1 q2 m1 m2 _ _ _ _|q1 q2 m _ _|q1 q2 m _ _|q
                  |r' l1 l2 H1 _ H2 IH2];
    intros r c l Hr Hl; try discriminate.
  injection Hr as ->. destruct l1 as [|c' l1].
  - simpl in Hl. now apply IH2.
  - injection Hl as -> <-. now exists l1, l2.
Qed.

Lemma deriv_lang r : forall c l, lang (deriv c r) l <-> lang r (c :: l).
Proof.
  induction r as [| |p|r1 IH1 r2 IH2|r1 IH1 r2 IH2|r IH]; intros c l; simpl.
  - split; intros Hl; inversion Hl.
  - split; intros Hl; inversion Hl.
  - destruct (p c) eqn:Hp; split; intros Hl; inversion Hl; subst.
    + now constructor.
    + constructor.
    + congruence.
  - assert (Hcat : lang (Cat (deriv c r1) r2) l ->
                   lang (Cat r1 r2) (c :: l)).
    { intros Hl. inversion Hl as [| |? ? l1 l2 H1 H2| | | |]; subst.
      apply IH1 in H1. apply (lang_cat r1 r2 (c :: l1) l2 H1 H2). }
    assert (Hback : lang (Cat r1 r2) (c :: l) ->
              lang (Cat (deriv c r1) r2) l
              \/ (lang r1 [] /\ lang (deriv c r2) l)).
    { intros Hl. inversion Hl as [| |? ? l1 l2 H1 H2 Hr Hcons| | | |]; subst.
      destruct l1 as [|c' l1].
      - right. simpl in Hcons. subst l2. split; [exact H1|now apply IH2].
      - injection Hcons as -> <-. left. apply lang_cat; [now apply IH1|exact H2]. }
    destruct (nullable r1) eqn:Hn; split.
    + intros Hl. inversion Hl as [| | |? ? ? Hc|? ? ? Hd| |]; subst.
      * now apply Hcat.
      * apply IH2 in Hd. apply nullable_lang in Hn.
        apply (lang_cat r1 r2 [] (c :: l) Hn Hd).
    + intros Hl. destruct (Hback Hl) as [Hc|[_ Hd]];
        [now apply lang_alt_l|now apply lang_alt_r].
    + exact Hcat.
    + intros Hl. destruct (Hback Hl) as [Hc|[H1 _]]; [exact Hc|].
      apply nullable_lang in H1. congruence.
  - split; intros Hl; inversion Hl; subst.
    + apply lang_alt_l. now apply IH1.
    + apply lang_alt_r. now apply IH2.
    + apply lang_alt_l. now apply IH1.
    + apply lang_alt_r. now apply IH2.
  - split.
    + intros Hl. inversion Hl as [| |? ? l1 l2 H1 H2| | | |]; subst.
      apply IH in H1. apply (lang_star_app r (c :: l1) l2 H1 H2).
    + intros Hl.
      destruct (lang_star_cons _ _ Hl r c l eq_refl eq_refl)
        as (l1 & l2 & -> & H1 & H2).
      apply lang_cat; [now apply IH|exact H2].
Qed.

(** The matcher decides the language. *)
Lemma matches_lang s : forall r, matches r s = true <-> lang r (chars s).
Proof.
  induction s as [|c s IH]; intros r; simpl.
  - apply nullable_lang.
  - rewrite IH. apply deriv_lang.
Qed.

Lemma lang_any l : lang (Star any) l.
Proof.
  induction l as [|c l IH]; [constructor|].
  apply (lang_star_app any [c] l); [now constructor|exact IH].
Qed.

Lemma lang_word w l : lang (word w) l <-> l = chars w.
Proof.
  revert l. induction w as [|c w IH]; intros l; simpl.
  - split; [intros Hl; now inversion Hl|intros ->; constructor].
  - split.
    + intros Hl. inversion Hl as [| |? ? l1 l2 H1 H2| | | |]; subst.
      apply IH in H2. subst. inversion H1 as [|? c' Hc| | | | |]; subst.
      apply Ascii.eqb_eq in Hc. now subst.
    + intros ->. apply (lang_cat (lit c) (word w) [c] (chars w)).
      * constructor. apply Ascii.eqb_refl.
      * now apply IH.
Qed.

Lemma lang_plus_class p l :
  lang (plus (Class p)) l -> exists c l', l = c :: l' /\ p c = true.
Proof.
  intros Hl. inversion Hl as [| |? ? l1 l2 H1 H2| | | |]; subst.
  inversion H1; subst. now exists c, l2.
Qed.

Lemma word_is_nonspace c : is_word c = true -> is_nonspace c = true.
Proof.
  destruct c as [[] [] [] [] [] [] [] []]; vm_compute; congruence.
Qed.

Lemma lang_scheme l :
  lang (Alt (word "ftp") (Alt (word "http") (word "https"))) l
  <-> exists scheme, In scheme ["ftp"; "http"; "https"]%string
                     /\ l = chars scheme.
Proof.
  split.
  - intros Hl. inversion Hl as [| | |? ? ? H1|? ? ? H1| |]; subst.
    + apply (lang_word "ftp") in H1. exists "ftp"%string. simpl. tauto.
    + inversion H1 as [| | |? ? ? H2|? ? ? H2| |]; subst.
      * apply (lang_word "http") in H2. exists "http"%string. simpl. tauto.
      * apply (lang_word "https") in H2. exists "https"%string. simpl. tauto.
  - intros (scheme & Hin & ->). simpl in Hin.
    destruct Hin as [<-|[<-|[<-|[]]]].
    + apply lang_alt_l. now apply lang_word.
    + apply lang_alt_r, lang_alt_l. now apply lang_word.
    + apply lang_alt_r, lang_alt_r. now apply lang_word.
Qed.

(** Whatever the expression matches starts with a scheme, ["://"] and
    a character that is not white space. *)
Lemma lang_regexp_head l :
  lang regexp l ->
  exists scheme c rest,
    In scheme ["ftp"; "http"; "https"]%string
    /\ is_nonspace c = true
    /\ l = chars scheme ++ chars "://" ++ c :: rest.
Proof.
  unfold regexp. intros Hl.
  inversion Hl as [| |? ? ls l1 Hs H1| | | |]; subst. clear Hl.
  apply lang_scheme in Hs as (scheme & Hin & ->).
  inversion H1 as [| |? ? lsep l2 Hsep H2| | | |]; subst. clear H1.
  apply (lang_word "://") in Hsep. subst lsep.
  inversion H2 as [| |? ? lu l3 Hu H3| | | |]; subst. clear H2.
  inversion H3 as [| |? ? lh l4 Hh H4| | | |]; subst. clear H3.
  apply lang_plus_class in Hh as (c & lh' & -> & Hc).
  exists scheme.
  inversion Hu as [| | |? ? ? He|? ? ? Hinfo| |]; subst.
  - inversion He; subst. exists c, (lh' ++ l4). now repeat split.
  - inversion Hinfo as [| |? ? lw l5 Hw H5| | | |]; subst.
    apply lang_plus_class in Hw as (c' & lw' & -> & Hc').
    exists c', ((lw' ++ l5) ++ (c :: lh') ++ l4).
    split; [exact Hin|]. split; [now apply word_is_nonspace|].
    now rewrite <- !app_assoc.
Qed.

Lemma lang_regexp_short scheme c :
  In scheme ["ftp"; "http"; "https"]%string -> is_nonspace c = true ->
  lang regexp (chars scheme ++ chars "://" ++ [c]).
Proof.
  intros Hin Hc. unfold regexp.
  apply lang_cat; [apply lang_scheme; now exists scheme|].
  apply lang_cat; [now apply lang_word|].
  apply (lang_cat _ _ [] [c]); [apply lang_alt_l; constructor|].
  apply (lang_cat _ _ [c] []).
  - apply (lang_cat _ _ [c] []); [now constructor|constructor].
  - apply (lang_cat _ _ [] []); apply lang_alt_l; constructor.
Qed.

Lemma test_regexp_has_url s : test regexp s = true <-> has_url s.
Proof.
  unfold test. rewrite matches_lang. split.
  - intros Hl. inversion Hl as [| |? ? before l1 _ H1| | | |]; subst.
    inversion H1 as [| |? ? m after Hm _| | | |]; subst.
    apply lang_regexp_head in Hm as (scheme & c & rest & Hin & Hc & ->).
    exists before, scheme, c, (rest ++ after).
    split; [exact Hin|]. split; [exact Hc|].
    match goal with H : _ = chars s |- _ => rewrite <- H end.
    now rewrite <- !app_assoc.
  - intros (before & scheme & c & after & Hin & Hc & ->).
    apply lang_cat; [apply lang_any|].
    replace (chars scheme ++ chars "://" ++ c :: after)
      with ((chars scheme ++ chars "://" ++ [c]) ++ after)
      by (now rewrite <- !app_assoc).
    apply lang_cat; [now apply lang_regexp_short|apply lang_any].
Qed.

(** X18.  [isUrl] accepts exactly the strings that hold ["ftp://"],
    ["http://"] or ["https://"] followed at once by a character that
    is not white space, wherever in the string that is. *)
Theorem isUrl_has_url (s : string) : isUrl s = true <-> has_url s.
Proof. change (isUrl s) with (test regexp s). apply test_regexp_has_url. Qed.

(** ** getImageDataFromSource *)

Lemma resolve_then_invalid (v : jsvalue) :
  invalid_source (resolve v None) = Fulfilled v.
Proof. reflexivity. Qed.

Lemma resolve_call_none (call : completion jsvalue) :
  resolve_call call invalid_source None =
  match call with
  | Normal v => Fulfilled v
  | Abrupt e => Rejected e
  end.
Proof. destruct call; reflexivity. Qed.

Lemma structured_source (env : platform) (source : jsvalue) :
  is_structured source ->
  getImageDataFromSource env source =
  let tagName := get_prop source "tagName" in
  if truthy tagName then
    if is_string tagName "IMG" then
      resolve_call (createImageData env source) invalid_source None
    else if is_string tagName "CANVAS" then
      resolve_call
        (canvas_read env source (get_prop source "naturalWidth")
           (get_prop source "naturalHeight"))
        invalid_source None
    else invalid_source None
  else if has_pixels source
  then Fulfilled source
  else Rejected InvalidImageSource.
Proof.
  destruct source; simpl; intros Hs; try contradiction; reflexivity.
Qed.

Lemma string_source (env : platform) (s : string) :
  getImageDataFromSource env (VString s) =
  if isNode (process env) then
    jimp_callback (jimp_read env (if isUrl s then ReadUrl s else ReadPath s))
  else if isUrl s then image_handlers env (load_image env s)
  else if truthy (getElementById env s)
  then match createImageData env (getElementById env s) with
       | Normal v => Fulfilled v
       | Abrupt e => Rejected e
       end
  else Rejected InvalidImageSource.
Proof.
  simpl. rewrite resolve_call_none. reflexivity.
Qed.

Lemma isUrl_false_iff (s : string) : isUrl s = false <-> ~ has_url s.
Proof.
  change (isUrl s) with (test regexp s).
  rewrite <- test_regexp_has_url.
  destruct (test regexp s); split; intros H; congruence.
Qed.

(** X19.  A source that is no string and has no truthy [tagName] is
    taken as pixel data on every platform: the promise is fulfilled
    with the source itself when [data], [width] and [height] are all
    truthy, and rejected as an invalid source otherwise; so a width or
    height of 0 is rejected. *)
Theorem getImageDataFromSource_pixel_object
    (env : platform) (source : jsvalue) :
  is_structured source ->
  truthy (get_prop source "tagName") = false ->
  (has_pixels source = true ->
   getImageDataFromSource env source = Fulfilled source) /\
  (has_pixels source = false ->
   getImageDataFromSource env source = Rejected InvalidImageSource) /\
  (get_prop source "width" = VNumber (Fin 0)
   \/ get_prop source "height" = VNumber (Fin 0) ->
   getImageDataFromSource env source = Rejected InvalidImageSource).
Proof.
  intros Hs Htag.
  rewrite (structured_source env source Hs). cbv zeta. rewrite Htag.
  split; [|split].
  - intros ->. reflexivity.
  - intros ->. reflexivity.
  - intros Hzero.
    assert (Hp : has_pixels source = false).
    { unfold has_pixels.
      destruct Hzero as [-> | ->]; simpl.
      - apply andb_false_iff. left. apply andb_false_r.
      - apply andb_false_r. }
    rewrite Hp. reflexivity.
Qed.

Lemma getImageDataFromSource_pixel_object_witness :
  let source :=
    VObject [("data", VPixels (of_bytes [0%Z]));
             ("width", VNumber (Fin 1)); ("height", VNumber (Fin 1))]%string in
  getImageDataFromSource (page []) source = Fulfilled source.
Proof.
  intros source.
  apply (getImageDataFromSource_pixel_object (page []) source).
  - exact I.
  - reflexivity.
  - reflexivity.
Defined.

Lemma is_string_true (v : jsvalue) (s : string) :
  is_string v s = true <-> v = VString s.
Proof.
  destruct v; simpl; split; try discriminate.
  - intros H. apply String.eqb_eq in H. congruence.
  - intros H. injection H as ->. apply String.eqb_refl.
Qed.

Lemma is_string_false (v : jsvalue) (s : string) :
  is_string v s = false <-> v <> VString s.
Proof.
  rewrite <- is_string_true. destruct (is_string v s); split; congruence.
Qed.

(** X20.  A source that is no string and has a truthy [tagName] is
    always settled.  It is fulfilled exactly when the
    tag is IMG or CANVAS and reading the pixels returns, with the value
    read: the rejection that follows has no effect.  An exception while
    reading rejects with that exception, and every other tag is rejected
    as an invalid source. *)
Theorem getImageDataFromSource_element (env : platform) (source : jsvalue) :
  is_structured source ->
  truthy (get_prop source "tagName") = true ->
  getImageDataFromSource env source <> Pending /\
  (forall v,
     getImageDataFromSource env source = Fulfilled v <->
     (get_prop source "tagName" = VString "IMG"
      /\ createImageData env source = Normal v)
     \/ (get_prop source "tagName" = VString "CANVAS"
         /\ canvas_read env source (get_prop source "naturalWidth")
              (get_prop source "naturalHeight") = Normal v)) /\
  (forall e,
     getImageDataFromSource env source = Rejected e <->
     (get_prop source "tagName" = VString "IMG"
      /\ createImageData env source = Abrupt e)
     \/ (get_prop source "tagName" = VString "CANVAS"
         /\ canvas_read env source (get_prop source "naturalWidth")
              (get_prop source "naturalHeight") = Abrupt e)
     \/ (get_prop source "tagName" <> VString "IMG"
         /\ get_prop source "tagName" <> VString "CANVAS"
         /\ e = InvalidImageSource)).
Proof.
  intros Hs Htag.
  rewrite (structured_source env source Hs). cbv zeta. rewrite Htag.
  rewrite !resolve_call_none.
  assert (Hdistinct : VString "IMG" <> VString "CANVAS") by discriminate.
  destruct (is_string (get_prop source "tagName") "IMG") eqn:Himg.
  - apply is_string_true in Himg. rewrite Himg.
    destruct (createImageData env source) as [v0 | e0];
      (split; [discriminate | split]); intros x;
      (split; [intros H; injection H as <- || discriminate H; tauto |]);
      intuition congruence.
  - destruct (is_string (get_prop source "tagName") "CANVAS") eqn:Hcanvas.
    + apply is_string_true in Hcanvas. rewrite Hcanvas.
      destruct (canvas_read env source _ _) as [v0 | e0];
        (split; [discriminate | split]); intros x;
        (split; [intros H; injection H as <- || discriminate H; tauto |]);
        intuition congruence.
    + apply is_string_false in Himg. apply is_string_false in Hcanvas.
      change (invalid_source None) with (Rejected InvalidImageSource).
      split; [discriminate | split]; intros x;
        (split; [intros H; injection H as <- || discriminate H; tauto |]);
        intuition congruence.
Qed.

Lemma getImageDataFromSource_element_witness :
  let source := VObject [("tagName", VString "IMG")]%string in
  getImageDataFromSource (page []) source = Fulfilled source.
Proof.
  intros source.
  apply (getImageDataFromSource_element (page []) source I eq_refl).
  left. split; reflexivity.
Defined.

Lemma image_handlers_pending (env : platform) (result : load_result) :
  image_handlers env result = Pending <->
  exists img e, result = Loaded img /\ createImageData env img = Abrupt e.
Proof.
  destruct result as [event | img]; simpl.
  - split; [discriminate | intros (img & e & H & _); discriminate].
  - destruct (createImageData env img) as [v | e] eqn:Hc; simpl.
    + split; [discriminate |].
      intros (img' & e & H & Hc'). injection H as <-. congruence.
    + split; [| reflexivity]. intros _. exists img, e. auto.
Qed.

Lemma jimp_callback_settles (result : jimp_result) :
  jimp_callback result <> Pending.
Proof. destruct result; discriminate. Qed.

(** X21.  Given that Jimp answers its callback or throws, and that an
    image loads or fails to, the promise stays unsettled in one case
    only: in the browser, for a string that has a URL, when the image
    loads and reading its pixels in the load handler throws.  Every
    other source, on every platform, is fulfilled or rejected. *)
Theorem getImageDataFromSource_pending (env : platform) (source : jsvalue) :
  getImageDataFromSource env source = Pending <->
  exists s img e,
    source = VString s /\ isNode (process env) = false /\ has_url s
    /\ load_image env s = Loaded img
    /\ createImageData env img = Abrupt e.
Proof.
  split.
  - intros H.
    destruct source as [| | b | n | s | a | fields];
      try discriminate H;
      try (rewrite structured_source in H by exact I; cbv zeta in H;
           rewrite !resolve_call_none in H;
           repeat match type of H with
             | context [if ?c then _ else _] => destruct c
             | context [match ?c with Normal _ => _ | Abrupt _ => _ end] =>
                 destruct c
             end; discriminate H).
    rewrite string_source in H.
    destruct (isNode (process env)) eqn:Hnode.
    { exfalso. exact (jimp_callback_settles _ H). }
    destruct (isUrl s) eqn:Hurl.
    + apply image_handlers_pending in H. destruct H as (img & e & Hl & Hc).
      exists s, img, e. repeat split; auto.
      apply test_regexp_has_url. exact Hurl.
    + destruct (truthy (getElementById env s)); [| discriminate H].
      destruct (createImageData env (getElementById env s)); discriminate H.
  - intros (s & img & e & -> & Hnode & Hurl & Hl & Hc).
    rewrite string_source, Hnode.
    apply test_regexp_has_url in Hurl. change (test regexp s) with (isUrl s) in Hurl.
    rewrite Hurl. apply image_handlers_pending. exists img, e. auto.
Qed.

(** X22.  In the browser a string without a URL in it is taken as the id
    of an element.  Without such an element the promise is rejected as
    an invalid source; with one, it is fulfilled with the pixels read
    from it (the rejection that follows has no effect), or rejected with
    what reading them threw. *)
Theorem getImageDataFromSource_element_id (env : platform) (s : string) :
  isNode (process env) = false ->
  ~ has_url s ->
  (truthy (getElementById env s) = false ->
   getImageDataFromSource env (VString s) = Rejected InvalidImageSource) /\
  (forall v,
     truthy (getElementById env s) = true ->
     createImageData env (getElementById env s) = Normal v ->
     getImageDataFromSource env (VString s) = Fulfilled v) /\
  (forall e,
     truthy (getElementById env s) = true ->
     createImageData env (getElementById env s) = Abrupt e ->
     getImageDataFromSource env (VString s) = Rejected e).
Proof.
  intros Hnode Hurl. apply isUrl_false_iff in Hurl.
  rewrite string_source, Hnode, Hurl.
  split; [| split].
  - intros ->. reflexivity.
  - intros v -> ->. reflexivity.
  - intros e -> ->. reflexivity.
Qed.

Lemma getImageDataFromSource_element_id_witness :
  let img := VObject [("tagName", VString "IMG")]%string in
  getImageDataFromSource (page [("barcode"%string, img)]) (VString "barcode")
  = Fulfilled img
  /\ getImageDataFromSource (page []) (VString "barcode")
     = Rejected InvalidImageSource.
Proof.
  intros img.
  assert (Hurl : ~ has_url "barcode").
  { apply isUrl_false_iff. vm_compute. reflexivity. }
  split.
  - apply (getImageDataFromSource_element_id
             (page [("barcode"%string, img)]) "barcode" eq_refl Hurl);
      reflexivity.
  - exact (proj1 (getImageDataFromSource_element_id (page []) "barcode"
                    eq_refl Hurl) eq_refl).
Defined.

(** X23.  In Node a string goes to Jimp and nowhere else: as a URL to
    fetch when it has a URL in it, as a path otherwise.  The promise is
    settled by what Jimp answers, and two platforms with the same
    [process] and the same Jimp give the same result, whatever their
    documents hold. *)
Theorem getImageDataFromSource_node (env : platform) (s : string) :
  isNode (process env) = true ->
  (has_url s ->
   getImageDataFromSource env (VString s)
   = jimp_callback (jimp_read env (ReadUrl s))) /\
  (~ has_url s ->
   getImageDataFromSource env (VString s)
   = jimp_callback (jimp_read env (ReadPath s))) /\
  getImageDataFromSource env (VString s) <> Pending /\
  (forall env' : platform,
     process env' = process env ->
     (forall request, jimp_read env' request = jimp_read env request) ->
     getImageDataFromSource env' (VString s)
     = getImageDataFromSource env (VString s)).
Proof.
  intros Hnode. rewrite string_source, Hnode.
  split; [| split; [| split]].
  - intros Hurl. apply test_regexp_has_url in Hurl.
    change (test regexp s) with (isUrl s) in Hurl. rewrite Hurl. reflexivity.
  - intros Hurl. apply isUrl_false_iff in Hurl. rewrite Hurl. reflexivity.
  - apply jimp_callback_settles.
  - intros env' Hprocess Hjimp.
    rewrite string_source, Hprocess, Hnode, Hjimp. reflexivity.
Qed.

Lemma getImageDataFromSource_node_witness :
  getImageDataFromSource (node (of_bytes [0%Z])) (VString "code.png")
  = Fulfilled
      (VObject [("data", VPixels (of_bytes [0%Z]));
                ("width", VNumber (Fin 1)); ("height", VNumber (Fin 1))]%string)
  /\ getImageDataFromSource (node (of_bytes [0%Z])) (VString "http://a/b.png")
     = Rejected (Raised (VString "offline")).
Proof.
  assert (Hpath : ~ has_url "code.png").
  { apply isUrl_false_iff. vm_compute. reflexivity. }
  assert (Hurl : has_url "http://a/b.png").
  { apply test_regexp_has_url. vm_compute. reflexivity. }
  split.
  - exact (proj1 (proj2 (getImageDataFromSource_node (node (of_bytes [0%Z]))
                           "code.png" eq_refl)) Hpath).
  - exact (proj1 (getImageDataFromSource_node (node (of_bytes [0%Z]))
                    "http://a/b.png" eq_refl) Hurl).
Defined.
